(** * CPU scheduling simulator: the scheduling engine of [src/lib/scheduler.ts]

    A shallow embedding of [simulateSchedule], the four scheduling
    algorithms, [computeMetrics] and [validateProcess], followed by the
    properties that the specification states about them.

    Conventions of the embedding.
    - The numeric fields of a [Process] are integers (the data model says so
      and the user interface only ever produces them with [parseInt]), so the
      engine is modelled over [Z].  Quotients computed by [computeMetrics]
      and the numbers handed to [validateProcess] are exact rationals in
      lowest terms ([Qc]); rounding of IEEE doubles, NaN and the infinities
      are outside the model, except that the quotient [0 / 0] of an average
      over no process is kept apart as [None].
    - A JavaScript string is the list of its UTF-16 code units.
    - [Array.prototype.sort] is stable; it is modelled by a stable insertion
      sort driven by the comparator's sign.
    - A [while] loop is run with a bound on the number of times its body may
      be executed; running out of that bound is the outcome [OutOfFuel].
    - The engine is embedded twice.  First on values, a list of [Process]
      records standing for the array of descriptors; the remaining burst
      times that round robin assigns to are kept in a list of objects
      addressed by position.  Then, in the module [Store], on a store of
      cells addressed by references, where the arrays and objects of the
      caller can be told from the copies that the engine makes; the two are
      proved to compute the same outcome.
    - The code of the user interface that decides what the engine is given
      and how its result is read follows the engine: the guard of the Run
      button and [handleRun] of [src/App.tsx], the handlers of
      [src/components/ProcessTable.tsx], the colours of [src/lib/colors.ts]
      and the position and time markers of [src/components/GanttChart.tsx].
      React state is passed explicitly, the text of an input is a string
      read by a model of [parseInt], and the progress of the animation is an
      exact rational; the animation's timer and the rendering are outside
      the model. *)

From Stdlib Require Import ZArith QArith Qcanon List String Ascii Lia.
From Stdlib Require Import Permutation Sorted DecimalString.
From stdpp Require Import base option list gmap.
Import ListNotations.

Close Scope Q_scope.
Close Scope Qc_scope.
Open Scope Z_scope.

(* ================================================================== *)
(** ** JavaScript values used by the engine *)
(* ================================================================== *)

(** A string: its UTF-16 code units. *)
Definition jsstring : Type := list N.

(** The string denoted by an ASCII literal. *)
Definition str (s : string) : jsstring :=
  List.map N_of_ascii (list_ascii_of_string s).

(** WhiteSpace and LineTerminator code points of ECMAScript, the
    characters removed by [String.prototype.trim]. *)
Definition is_js_whitespace (c : N) : bool :=
  ((9 <=? c) && (c <=? 13) || (c =? 32) || (c =? 160) || (c =? 5760)
   || (8192 <=? c) && (c <=? 8202) || (c =? 8232) || (c =? 8233)
   || (c =? 8239) || (c =? 8287) || (c =? 12288) || (c =? 65279))%N.

Fixpoint trim_start (s : jsstring) : jsstring :=
  match s with
  | c :: s' => if is_js_whitespace c then trim_start s' else s
  | [] => []
  end.

(** [s.trim()] *)
Definition trim (s : jsstring) : jsstring :=
  rev (trim_start (rev (trim_start s))).

(** The three ways a call can end. *)
Inductive outcome (A : Type) : Type :=
| Returned (a : A)
| Threw (message : jsstring)
| OutOfFuel.
Arguments Returned {A} a.
Arguments Threw {A} message.
Arguments OutOfFuel {A}.

(** [while (cond) { body }], the body being executed at most [fuel] times.
    The result carries the number of executions of the body. *)
Fixpoint while {S : Type} (cond : S -> bool) (body : S -> S)
    (fuel : nat) (s : S) : option (nat * S) :=
  if cond s then
    match fuel with
    | O => None
    | Datatypes.S fuel' =>
        match while cond body fuel' (body s) with
        | Some (k, s') => Some (Datatypes.S k, s')
        | None => None
        end
    end
  else Some (O, s).

(** *** Array methods *)

(** Insertion of [x] in front of the first element that does not sort
    strictly before it. *)
Fixpoint sort_insert {A : Type} (cmp : A -> A -> Z) (x : A) (l : list A)
    : list A :=
  match l with
  | [] => [x]
  | y :: l' => if cmp x y <=? 0 then x :: l else y :: sort_insert cmp x l'
  end.

(** [l.sort(cmp)]: stable, ascending for [cmp]. *)
Fixpoint js_sort {A : Type} (cmp : A -> A -> Z) (l : list A) : list A :=
  match l with
  | [] => []
  | x :: l' => sort_insert cmp x (js_sort cmp l')
  end.

(** [l.findIndex(f)]: the first index whose element satisfies [f], or -1. *)
Fixpoint findIndex {A : Type} (f : A -> bool) (l : list A) : Z :=
  match l with
  | [] => -1
  | x :: l' =>
      if f x then 0
      else let i := findIndex f l' in if i <? 0 then -1 else i + 1
  end.

(** [l.splice(start, 1)]: the array left after the call.  A negative
    [start] counts from the end (and is clamped at 0); a [start] past the
    end removes nothing. *)
Definition splice1 {A : Type} (start : Z) (l : list A) : list A :=
  let len := Z.of_nat (length l) in
  let from := if start <? 0 then Z.max (len + start) 0 else Z.min start len in
  delete (Z.to_nat from) l.

(** [Math.min(...l)] for a non-empty [l] (it is [Infinity] for the empty
    array, which no caller passes). *)
Definition math_min (l : list Z) : Z :=
  match l with
  | [] => 0
  | x :: l' => fold_left Z.min l' x
  end.

(* ================================================================== *)
(** ** The data model ([src/types/index.ts]) *)
(* ================================================================== *)

Record Process : Type := mkProcess {
  pid : jsstring;
  arrivalTime : Z;
  burstTime : Z;
  priority : Z;
  insertionOrder : Z
}.

(** [pid] is [null] for an idle period. *)
Record GanttSegment : Type := mkSegment {
  seg_pid : option jsstring;
  seg_start : Z;
  seg_end : Z
}.

Record ProcessMetrics : Type := mkMetrics {
  pm_pid : jsstring;
  pm_arrivalTime : Z;
  pm_burstTime : Z;
  pm_priority : Z;
  pm_completionTime : Z;
  pm_waitingTime : Z;
  pm_turnaroundTime : Z;
  pm_responseTime : Z
}.

(** The averages are quotients by the number of processes; [None] stands
    for the NaN that JavaScript yields for [0 / 0]. *)
Record SimulationResult : Type := mkResult {
  ganttChart : list GanttSegment;
  processMetrics : list ProcessMetrics;
  averageWaitingTime : option Qc;
  averageTurnaroundTime : option Qc;
  averageResponseTime : option Qc;
  cpuUtilization : Qc;
  totalTime : Z
}.

Global Instance Process_eq_dec : EqDecision Process.
Proof. solve_decision. Defined.

(* ================================================================== *)
(** ** The scheduling algorithms *)
(* ================================================================== *)

(** *** First come first served *)

(** The comparator of [scheduleFCFS] (and of [scheduleRoundRobin]). *)
Definition fcfs_compare (a b : Process) : Z :=
  if negb (arrivalTime a =? arrivalTime b)
  then arrivalTime a - arrivalTime b
  else insertionOrder a - insertionOrder b.

(** One turn of the [for (const proc of sorted)] loop, on the pair of
    [gantt] and [currentTime]. *)
Definition fcfs_step (st : list GanttSegment * Z) (proc : Process)
    : list GanttSegment * Z :=
  let '(gantt, currentTime) := st in
  let '(gantt, currentTime) :=
    if currentTime <? arrivalTime proc
    then (gantt ++ [mkSegment None currentTime (arrivalTime proc)],
          arrivalTime proc)
    else (gantt, currentTime) in
  (gantt ++ [mkSegment (Some (pid proc)) currentTime
                       (currentTime + burstTime proc)],
   currentTime + burstTime proc).

Definition scheduleFCFS (processes : list Process) : list GanttSegment :=
  let sorted := js_sort fcfs_compare processes in
  fst (fold_left fcfs_step sorted ([], 0)).

(** *** The loop shared by shortest job first and priority scheduling *)

(** The variables of the loop: [gantt], [remaining] and [currentTime]. *)
Record np_state : Type := mkNp {
  np_gantt : list GanttSegment;
  np_remaining : list Process;
  np_currentTime : Z
}.

Definition np_cond (st : np_state) : bool :=
  (0 <? length (np_remaining st))%nat.

(** The body of [while (remaining.length > 0)], for the comparator [cmp]
    given to [available.sort]. *)
Definition np_body (cmp : Process -> Process -> Z) (st : np_state)
    : np_state :=
  let gantt := np_gantt st in
  let remaining := np_remaining st in
  let currentTime := np_currentTime st in
  let available :=
    List.filter (fun p => arrivalTime p <=? currentTime) remaining in
  if (length available =? 0)%nat then
    let nextArrival := math_min (List.map arrivalTime remaining) in
    mkNp (gantt ++ [mkSegment None currentTime nextArrival])
         remaining nextArrival
  else
    match js_sort cmp available with
    | selected :: _ =>
        let index :=
          findIndex (fun p => bool_decide (pid p = pid selected)) remaining in
        let remaining := splice1 index remaining in
        mkNp (gantt ++ [mkSegment (Some (pid selected)) currentTime
                                  (currentTime + burstTime selected)])
             remaining (currentTime + burstTime selected)
    | [] => st (* not reached: sorting keeps the length *)
    end.

Definition np_schedule (cmp : Process -> Process -> Z) (fuel : nat)
    (processes : list Process) : option (nat * list GanttSegment) :=
  match while np_cond (np_body cmp) fuel (mkNp [] processes 0) with
  | Some (k, st) => Some (k, np_gantt st)
  | None => None
  end.

(** *** Shortest job first *)

Definition sjf_compare (a b : Process) : Z :=
  if negb (burstTime a =? burstTime b) then burstTime a - burstTime b
  else if negb (arrivalTime a =? arrivalTime b)
  then arrivalTime a - arrivalTime b
  else insertionOrder a - insertionOrder b.

Definition scheduleSJF : nat -> list Process ->
    option (nat * list GanttSegment) :=
  np_schedule sjf_compare.

(** *** Priority scheduling *)

Definition priority_compare (a b : Process) : Z :=
  if negb (priority a =? priority b) then priority a - priority b
  else if negb (arrivalTime a =? arrivalTime b)
  then arrivalTime a - arrivalTime b
  else insertionOrder a - insertionOrder b.

Definition schedulePriority : nat -> list Process ->
    option (nat * list GanttSegment) :=
  np_schedule priority_compare.

(** *** Round robin *)

(** [interface RRProcess extends Process { remainingBurst: number }] *)
Record RRProcess : Type := mkRR {
  rr_proc : Process;
  remainingBurst : Z
}.

(** The variables of [scheduleRoundRobin].  The objects built by
    [processes.map(...)] are shared by [allProcesses] and [readyQueue] and
    one of their fields is assigned to: [rr_allProcesses] holds the objects,
    in the order of the array, and [rr_readyQueue] holds references to them,
    a reference being the position of the object in [allProcesses]. *)
Record rr_state : Type := mkRRState {
  rr_gantt : list GanttSegment;
  rr_allProcesses : list RRProcess;
  rr_readyQueue : list nat;
  rr_currentTime : Z;
  rr_processIndex : nat
}.

(** The loop of [enqueueArrivals].  Every turn increments [processIndex]
    and the loop stops when it reaches [allProcesses.length], so [n], the
    number of elements from [processIndex] on, bounds the number of turns
    without ever cutting the loop short. *)
Fixpoint enqueue_loop (n : nat) (allProcesses : list RRProcess)
    (upToTime : Z) (readyQueue : list nat) (processIndex : nat)
    : list nat * nat :=
  match n with
  | O => (readyQueue, processIndex)
  | Datatypes.S n' =>
      match allProcesses !! processIndex with
      | Some p =>
          if arrivalTime (rr_proc p) <=? upToTime
          then enqueue_loop n' allProcesses upToTime
                 (readyQueue ++ [processIndex]) (Datatypes.S processIndex)
          else (readyQueue, processIndex)
      | None => (readyQueue, processIndex)
      end
  end.

Definition enqueueArrivals (upToTime : Z) (st : rr_state) : rr_state :=
  let '(readyQueue, processIndex) :=
    enqueue_loop (length (rr_allProcesses st) - rr_processIndex st)
      (rr_allProcesses st) upToTime (rr_readyQueue st) (rr_processIndex st) in
  mkRRState (rr_gantt st) (rr_allProcesses st) readyQueue
            (rr_currentTime st) processIndex.

Definition rr_cond (st : rr_state) : bool :=
  (0 <? length (rr_readyQueue st))%nat
  || (rr_processIndex st <? length (rr_allProcesses st))%nat.

(** The body of the main loop of [scheduleRoundRobin]. *)
Definition rr_body (quantum : Z) (st : rr_state) : rr_state :=
  match rr_readyQueue st with
  | [] =>
      match rr_allProcesses st !! rr_processIndex st with
      | Some next =>
          let nextArrival := arrivalTime (rr_proc next) in
          enqueueArrivals nextArrival
            (mkRRState
               (rr_gantt st ++ [mkSegment None (rr_currentTime st) nextArrival])
               (rr_allProcesses st) [] nextArrival (rr_processIndex st))
      | None => st (* not reached: the loop condition excludes it *)
      end
  | current :: readyQueue =>
      match rr_allProcesses st !! current with
      | Some cur =>
          let execTime := Z.min quantum (remainingBurst cur) in
          let gantt :=
            rr_gantt st ++
              [mkSegment (Some (pid (rr_proc cur))) (rr_currentTime st)
                         (rr_currentTime st + execTime)] in
          let currentTime := rr_currentTime st + execTime in
          let cur' := mkRR (rr_proc cur) (remainingBurst cur - execTime) in
          let st' :=
            enqueueArrivals currentTime
              (mkRRState gantt (<[current := cur']> (rr_allProcesses st))
                         readyQueue currentTime (rr_processIndex st)) in
          if 0 <? remainingBurst cur'
          then mkRRState (rr_gantt st') (rr_allProcesses st')
                         (rr_readyQueue st' ++ [current])
                         (rr_currentTime st') (rr_processIndex st')
          else st'
      | None => st (* not reached: the queue holds positions of the array *)
      end
  end.

(** The state when the main loop is entered. *)
Definition rr_init (processes : list Process) : rr_state :=
  let allProcesses :=
    js_sort (fun a b => fcfs_compare (rr_proc a) (rr_proc b))
            (List.map (fun p => mkRR p (burstTime p)) processes) in
  enqueueArrivals 0 (mkRRState [] allProcesses [] 0 0).

Definition scheduleRoundRobin (fuel : nat) (processes : list Process)
    (quantum : Z) : option (nat * list GanttSegment) :=
  match while rr_cond (rr_body quantum) fuel (rr_init processes) with
  | Some (k, st) => Some (k, rr_gantt st)
  | None => None
  end.

(* ================================================================== *)
(** ** Metrics *)
(* ================================================================== *)

Definition Z2Qc (z : Z) : Qc := Q2Qc (inject_Z z).

(** [a / b] on integers; [None] when the quotient is not a finite number. *)
Definition js_quotient (a b : Z) : option Qc :=
  if b =? 0 then None else Some (Z2Qc a / Z2Qc b)%Qc.

(** The first loop of [computeMetrics], on the two maps. *)
Definition record_segment (maps : gmap jsstring Z * gmap jsstring Z)
    (segment : GanttSegment) : gmap jsstring Z * gmap jsstring Z :=
  let '(firstStartTime, completionTime) := maps in
  match seg_pid segment with
  | None => maps
  | Some p =>
      let firstStartTime :=
        match firstStartTime !! p with
        | None => <[p := seg_start segment]> firstStartTime
        | Some _ => firstStartTime
        end in
      (firstStartTime, <[p := seg_end segment]> completionTime)
  end.

(** The metrics pushed for one process by the second loop. *)
Definition process_metrics (firstStartTime completionTime : gmap jsstring Z)
    (proc : Process) : ProcessMetrics :=
  let ct := default 0 (completionTime !! pid proc) in
  let turnaroundTime := ct - arrivalTime proc in
  let waitingTime := turnaroundTime - burstTime proc in
  let responseTime :=
    default 0 (firstStartTime !! pid proc) - arrivalTime proc in
  mkMetrics (pid proc) (arrivalTime proc) (burstTime proc) (priority proc)
            ct (Z.max 0 waitingTime) turnaroundTime (Z.max 0 responseTime).

(** [busyTime]: the durations of the segments that are not idle. *)
Definition busy_time (ganttChart : list GanttSegment) : Z :=
  fold_left (fun sum s => sum + (seg_end s - seg_start s))
    (List.filter (fun s => bool_decide (seg_pid s <> None)) ganttChart) 0.

(** [totalTime]: the end of the last segment. *)
Definition total_time (ganttChart : list GanttSegment) : Z :=
  match last ganttChart with
  | Some s => seg_end s
  | None => 0
  end.

Section Metrics.

(** [String.prototype.localeCompare] depends on the host's locale. *)
Variable localeCompare : jsstring -> jsstring -> Z.

Definition computeMetrics (processes : list Process)
    (ganttChart : list GanttSegment) : SimulationResult :=
  let '(firstStartTime, completionTime) :=
    fold_left record_segment ganttChart (∅, ∅) in
  let processMetrics :=
    List.map (process_metrics firstStartTime completionTime) processes in
  let processMetrics :=
    js_sort (fun a b => localeCompare (pm_pid a) (pm_pid b))
            processMetrics in
  let n := Z.of_nat (length processMetrics) in
  let avgWaiting :=
    js_quotient
      (fold_left (fun sum p => sum + pm_waitingTime p) processMetrics 0) n in
  let avgTurnaround :=
    js_quotient
      (fold_left (fun sum p => sum + pm_turnaroundTime p) processMetrics 0)
      n in
  let avgResponse :=
    js_quotient
      (fold_left (fun sum p => sum + pm_responseTime p) processMetrics 0)
      n in
  let totalTime := total_time ganttChart in
  let busyTime := busy_time ganttChart in
  let cpuUtilization :=
    if 0 <? totalTime
    then (Z2Qc busyTime / Z2Qc totalTime * Z2Qc 100)%Qc
    else Z2Qc 0 in
  mkResult ganttChart processMetrics avgWaiting avgTurnaround avgResponse
           cpuUtilization totalTime.

(** The [switch] of [simulateSchedule], with the number of turns the
    loop of the chosen algorithm took. *)
Definition dispatch (fuel : nat) (procs : list Process)
    (algorithm : jsstring) (quantum : Z)
    : outcome (nat * list GanttSegment) :=
  let finished (r : option (nat * list GanttSegment)) :=
    match r with
    | Some kg => Returned kg
    | None => OutOfFuel
    end in
  if decide (algorithm = str "FCFS")
  then Returned (length procs, scheduleFCFS procs)
  else if decide (algorithm = str "SJF")
  then finished (scheduleSJF fuel procs)
  else if decide (algorithm = str "Priority")
  then finished (schedulePriority fuel procs)
  else if decide (algorithm = str "RoundRobin")
  then finished (scheduleRoundRobin fuel procs quantum)
  else Threw (str "Unknown algorithm: " ++ algorithm).

(** [simulateSchedule(processes, algorithm, quantum = 2)]; [fuel] bounds
    the turns of the scheduling loop.  The copies made by
    [processes.map((p) => ({ ...p }))] have the fields of the originals. *)
Definition simulateSchedule (fuel : nat) (processes : list Process)
    (algorithm : jsstring) (quantum : option Z)
    : outcome SimulationResult :=
  let quantum := default 2 quantum in
  if (length processes =? 0)%nat then
    Returned (mkResult [] [] (Some (Z2Qc 0)) (Some (Z2Qc 0))
                       (Some (Z2Qc 0)) (Z2Qc 0) 0)
  else
    let procs := List.map (fun p => p) processes in
    match dispatch fuel procs algorithm quantum with
    | Returned (_, ganttChart) => Returned (computeMetrics procs ganttChart)
    | Threw message => Threw message
    | OutOfFuel => OutOfFuel
    end.

End Metrics.

(* ================================================================== *)
(** ** Validation of one process *)
(* ================================================================== *)

(** [Partial<Process>]: every field may be missing. *)
Record PartialProcess : Type := mkPartial {
  pp_pid : option jsstring;
  pp_arrivalTime : option Qc;
  pp_burstTime : option Qc;
  pp_priority : option Qc;
  pp_insertionOrder : option Qc
}.

Record Validation : Type := mkValidation {
  valid : bool;
  errors : list jsstring
}.

Definition num_lt (x y : Qc) : bool :=
  match (x ?= y)%Qc with Lt => true | _ => false end.

Definition num_le (x y : Qc) : bool :=
  match (x ?= y)%Qc with Gt => false | _ => true end.

(** [!process.pid || process.pid.trim() === ""] *)
Definition pid_missing (p : option jsstring) : bool :=
  match p with
  | None => true
  | Some s => bool_decide (s = []) || bool_decide (trim s = [])
  end.

Definition validateProcess (process : PartialProcess) : Validation :=
  let errors := [] in
  let errors :=
    if pid_missing (pp_pid process)
    then errors ++ [str "Process ID is required"] else errors in
  let errors :=
    if match pp_arrivalTime process with
       | None => true
       | Some a => num_lt a (Z2Qc 0)
       end
    then errors ++ [str "Arrival time must be >= 0"] else errors in
  let errors :=
    if match pp_burstTime process with
       | None => true
       | Some b => num_le b (Z2Qc 0)
       end
    then errors ++ [str "Burst time must be > 0"] else errors in
  let errors :=
    if match pp_priority process with
       | None => true
       | Some p => num_lt p (Z2Qc 0)
       end
    then errors ++ [str "Priority must be >= 0"] else errors in
  mkValidation (length errors =? 0)%nat errors.

Definition getExampleProcesses : list Process :=
  [ mkProcess (str "P1") 0 5 2 0;
    mkProcess (str "P2") 1 3 1 1;
    mkProcess (str "P3") 2 8 4 2;
    mkProcess (str "P4") 3 6 3 3;
    mkProcess (str "P5") 4 4 2 4 ].

(* ================================================================== *)
(** ** Vocabulary of the specification *)
(* ================================================================== *)

Definition Zsum (l : list Z) : Z := fold_right Z.add 0 l.

Definition duration (s : GanttSegment) : Z := seg_end s - seg_start s.

(** The time a timeline gives to the process identified by [p]. *)
Definition service_time (p : jsstring) (g : list GanttSegment) : Z :=
  Zsum (List.map duration
          (List.filter (fun s => bool_decide (seg_pid s = Some p)) g)).

(** The burst time asked for by the processes of [l] identified by [p]. *)
Definition demand (p : jsstring) (l : list Process) : Z :=
  Zsum (List.map burstTime
          (List.filter (fun q => bool_decide (pid q = p)) l)).

Definition total_burst (l : list Process) : Z := Zsum (List.map burstTime l).

(** [chain t g t']: the segments of [g] are non-empty intervals, the first
    starts at [t], each starts where its predecessor ends, and the last
    ends at [t'] (with [t' = t] when there is no segment). *)
Fixpoint chain (t : Z) (g : list GanttSegment) (t' : Z) : Prop :=
  match g with
  | [] => t = t'
  | s :: g' => seg_start s = t /\ seg_start s < seg_end s
               /\ chain (seg_end s) g' t'
  end.

(** The four policy tokens. *)
Definition recognized (algorithm : jsstring) : Prop :=
  algorithm = str "FCFS" \/ algorithm = str "SJF"
  \/ algorithm = str "Priority" \/ algorithm = str "RoundRobin".


(** *** The state machine of section 4.1, as the specification words it *)

(** "remove it from remaining": the selected descriptor itself leaves. *)
Fixpoint remove_first (x : Process) (l : list Process) : list Process :=
  match l with
  | [] => []
  | y :: l' => if decide (x = y) then l' else y :: remove_first x l'
  end.

(** One step: [available] is what has arrived; when it is empty an idle
    segment runs up to the least arrival time of [remaining]; otherwise the
    first process of [available] in the policy's ascending order runs for
    its burst time and leaves [remaining]. *)
Definition spec_step (cmp : Process -> Process -> Z) (st : np_state)
    : np_state :=
  let currentTime := np_currentTime st in
  let available :=
    List.filter (fun p => arrivalTime p <=? currentTime) (np_remaining st) in
  match js_sort cmp available with
  | [] =>
      let nextArrival := math_min (List.map arrivalTime (np_remaining st)) in
      mkNp (np_gantt st ++ [mkSegment None currentTime nextArrival])
           (np_remaining st) nextArrival
  | selected :: _ =>
      mkNp (np_gantt st ++ [mkSegment (Some (pid selected)) currentTime
                                      (currentTime + burstTime selected)])
           (remove_first selected (np_remaining st))
           (currentTime + burstTime selected)
  end.

(** The machine run from its initial state until [remaining] is empty. *)
Definition spec_machine (cmp : Process -> Process -> Z) (fuel : nat)
    (processes : list Process) : option (nat * list GanttSegment) :=
  match while np_cond (spec_step cmp) fuel (mkNp [] processes 0) with
  | Some (k, st) => Some (k, np_gantt st)
  | None => None
  end.

(* ================================================================== *)
(** ** Invariants and measures of the loops *)
(* ================================================================== *)

(** The processes of [R] that have arrived at time [t]. *)
Definition arrived (t : Z) (R : list Process) : list Process :=
  List.filter (fun p => arrivalTime p <=? t) R.



(** The time given to [p] and the time still asked for under [p] add up to
    [c]. *)
Definition np_work_inv (p : jsstring) (c : Z) (st : np_state) : Prop :=
  NoDup (List.map pid (np_remaining st))
  /\ service_time p (np_gantt st) + demand p (np_remaining st) = c.

(** The objects of [allProcesses]: the processes in arrival order, each
    with its whole burst time left. *)
Definition rr_objects (processes : list Process) : list RRProcess :=
  js_sort (fun a b => fcfs_compare (rr_proc a) (rr_proc b))
          (List.map (fun p => mkRR p (burstTime p)) processes).

(** The sum of [f] over the objects that the references of [L] point to. *)
Definition rr_weight (f : RRProcess -> Z) (allProcesses : list RRProcess)
    (L : list nat) : Z :=
  Zsum (List.map (fun i => match allProcesses !! i with
                           | Some p => f p
                           | None => 0
                           end) L).

(** The references to the processes that have not been enqueued yet. *)
Definition rr_pending (st : rr_state) : list nat :=
  seq (rr_processIndex st)
      (length (rr_allProcesses st) - rr_processIndex st).

(** What holds each time the condition of the round robin loop is tested:
    the queue holds distinct references to processes already passed by
    [processIndex]; every process in the queue or still to arrive has
    burst time left; the timeline is a chain that ends at the current time;
    the next process to arrive arrives later than the current time. *)
Definition rr_inv (st : rr_state) : Prop :=
  NoDup (rr_readyQueue st)
  /\ Forall (fun i => (i < rr_processIndex st)%nat) (rr_readyQueue st)
  /\ (rr_processIndex st <= length (rr_allProcesses st))%nat
  /\ Forall (fun i => exists p, rr_allProcesses st !! i = Some p
                                /\ 0 < remainingBurst p)
            (rr_readyQueue st ++ rr_pending st)
  /\ chain 0 (rr_gantt st) (rr_currentTime st)
  /\ (forall p, rr_allProcesses st !! rr_processIndex st = Some p ->
                rr_currentTime st < arrivalTime (rr_proc p)).



(** What holds of the round robin variables whatever the input: references
    in the queue point to processes already passed by [processIndex], and
    the objects of [allProcesses] are still those of the sorted copy, up to
    the burst time they have left. *)
Definition rr_store_inv (processes : list Process) (st : rr_state) : Prop :=
  (rr_processIndex st <= length (rr_allProcesses st))%nat
  /\ Forall (fun i => (i < rr_processIndex st)%nat) (rr_readyQueue st)
  /\ rr_proc <$> rr_allProcesses st = rr_proc <$> rr_objects processes.


(* ================================================================== *)
(** ** Concrete inputs *)
(* ================================================================== *)

(** A comparison of strings by code units, one possible behaviour of
    [localeCompare]. *)
Fixpoint ordinal_compare (a b : jsstring) : Z :=
  match a, b with
  | [], [] => 0
  | [], _ :: _ => -1
  | _ :: _, [] => 1
  | x :: a', y :: b' =>
      if (x <? y)%N then -1 else if (y <? x)%N then 1
      else ordinal_compare a' b'
  end.

(** The processes of the round robin test "should preempt processes after
    time quantum". *)
Definition two_processes : list Process :=
  [ mkProcess (str "P1") 0 5 1 0; mkProcess (str "P2") 0 3 1 1 ].

(** Two descriptors that bear the same identifier, which the engine does
    not forbid. *)
Definition same_identifier : list Process :=
  [ mkProcess (str "A") 0 5 1 1; mkProcess (str "A") 0 3 1 0 ].

(** Processes that arrive while the first one runs its quantum. *)
Definition arrival_at_preemption : list Process :=
  [ mkProcess (str "P1") 0 4 1 0; mkProcess (str "P2") 2 2 1 1 ].


(** The result returned for no process. *)
Definition empty_result : SimulationResult :=
  mkResult [] [] (Some (Z2Qc 0)) (Some (Z2Qc 0)) (Some (Z2Qc 0)) (Z2Qc 0) 0.


(** A descriptor whose numbers are 1.5, 0.5 and 2.5. *)
Definition fractional : PartialProcess :=
  mkPartial (Some (str "P1")) (Some (Q2Qc (3 # 2))) (Some (Q2Qc (1 # 2)))
            (Some (Q2Qc (5 # 2))) (Some (Z2Qc 0)).

(** *** The four rules of validation, as the specification words them *)





(* ================================================================== *)
(** ** The engine over a store of objects and arrays *)
(* ================================================================== *)

(** The caller hands [simulateSchedule] a reference to an array of
    references to descriptors, and the engine assigns to fields and sorts,
    splices, pushes to and shifts arrays in place.  In this module the
    arrays of processes and the process objects live in a store and are
    handled through references, so that what a call does to the objects of
    its caller can be stated.  Numbers, strings, timeline segments and the
    result, which the engine only builds, stay values. *)
Module Store.

(** A cell: a process object, with its [remainingBurst] property when it
    has one, or an array of references. *)
Inductive cell : Type :=
| Object (fields : Process) (remainingBurst : option Z)
| Array (elements : list nat).

(** The store: a reference is a position in it. *)
Abbreviation store := (list cell).

(** A new cell, at the end of the store. *)
Definition alloc (c : cell) (h : store) : nat * store :=
  (length h, h ++ [c]).

Fixpoint alloc_all (cs : list cell) (h : store) : list nat * store :=
  match cs with
  | [] => ([], h)
  | c :: cs' =>
      let '(o, h) := alloc c h in
      let '(os, h) := alloc_all cs' h in
      (o :: os, h)
  end.

(** The elements of the array at [a]. *)
Definition elements (h : store) (a : nat) : list nat :=
  match h !! a with
  | Some (Array l) => l
  | _ => []
  end.

(** The [Process] properties of the object at [o]. *)
Definition fields (h : store) (o : nat) : Process :=
  match h !! o with
  | Some (Object p _) => p
  | _ => mkProcess [] 0 0 0 0
  end.

(** The [remainingBurst] property of the object at [o], if it has one. *)
Definition remaining_burst (h : store) (o : nat) : option Z :=
  match h !! o with
  | Some (Object _ r) => r
  | _ => None
  end.

(** [a.map(f)] for an [f] that builds an object from the one it is given:
    a new array of new objects. *)
Definition array_map (f : store -> nat -> cell) (a : nat) (h : store)
    : nat * store :=
  let '(os, h') := alloc_all (List.map (f h) (elements h a)) h in
  alloc (Array os) h'.

(** [[...a]]: a new array with the same elements. *)
Definition array_copy (a : nat) (h : store) : nat * store :=
  alloc (Array (elements h a)) h.

(** [a.filter(f)]: a new array. *)
Definition array_filter (f : Process -> bool) (a : nat) (h : store)
    : nat * store :=
  alloc (Array (List.filter (fun o => f (fields h o)) (elements h a))) h.

(** [a.sort(cmp)]: the array at [a] is reordered in place. *)
Definition array_sort (cmp : Process -> Process -> Z) (a : nat)
    (h : store) : store :=
  <[a := Array (js_sort (fun x y => cmp (fields h x) (fields h y))
                        (elements h a))]> h.

(** [while (cond) { body }] with at most [fuel] turns: the number of
    turns if the loop is left within them, and the state reached. *)
Fixpoint loop {S : Type} (cond : S -> bool) (body : S -> S)
    (fuel : nat) (s : S) : option nat * S :=
  if cond s then
    match fuel with
    | O => (None, s)
    | Datatypes.S fuel' =>
        let '(k, s') := loop cond body fuel' (body s) in
        (option_map Datatypes.S k, s')
    end
  else (Some O, s).

(** *** First come first served *)

Definition scheduleFCFS (processes : nat) (h : store)
    : list GanttSegment * store :=
  let '(sorted, h) := array_copy processes h in
  let h := array_sort fcfs_compare sorted h in
  (fst (fold_left (fun st proc => fcfs_step st (fields h proc))
                  (elements h sorted) ([], 0)),
   h).

(** *** Shortest job first and priority scheduling *)

Record np_state : Type := mkNp {
  np_gantt : list GanttSegment;
  np_currentTime : Z;
  np_store : store
}.

Definition np_cond (remaining : nat) (st : np_state) : bool :=
  (0 <? length (elements (np_store st) remaining))%nat.

Definition np_body (cmp : Process -> Process -> Z) (remaining : nat)
    (st : np_state) : np_state :=
  let gantt := np_gantt st in
  let currentTime := np_currentTime st in
  let '(available, h) :=
    array_filter (fun p => arrivalTime p <=? currentTime) remaining
                 (np_store st) in
  if (length (elements h available) =? 0)%nat then
    let nextArrival :=
      math_min (List.map (fun p => arrivalTime (fields h p))
                         (elements h remaining)) in
    mkNp (gantt ++ [mkSegment None currentTime nextArrival]) nextArrival h
  else
    let h := array_sort cmp available h in
    match elements h available with
    | selected :: _ =>
        let index :=
          findIndex (fun p => bool_decide (pid (fields h p)
                                           = pid (fields h selected)))
                    (elements h remaining) in
        let h :=
          <[remaining := Array (splice1 index (elements h remaining))]> h in
        mkNp (gantt ++ [mkSegment (Some (pid (fields h selected)))
                                  currentTime
                                  (currentTime
                                   + burstTime (fields h selected))])
             (currentTime + burstTime (fields h selected)) h
    | [] => mkNp gantt currentTime h
    end.

Definition np_schedule (cmp : Process -> Process -> Z) (fuel : nat)
    (processes : nat) (h : store)
    : option (nat * list GanttSegment) * store :=
  let '(remaining, h) := array_copy processes h in
  let '(k, st) :=
    loop (np_cond remaining) (np_body cmp remaining) fuel (mkNp [] 0 h) in
  (option_map (fun k => (k, np_gantt st)) k, np_store st).

Definition scheduleSJF := np_schedule sjf_compare.

Definition schedulePriority := np_schedule priority_compare.

(** *** Round robin *)

Record rr_state : Type := mkRRState {
  rr_gantt : list GanttSegment;
  rr_currentTime : Z;
  rr_processIndex : nat;
  rr_store : store
}.

Section RoundRobin.

(** The references held by the constants [allProcesses] and
    [readyQueue]. *)
Variables allProcesses readyQueue : nat.

Fixpoint enqueue_loop (n : nat) (upToTime : Z) (processIndex : nat)
    (h : store) : nat * store :=
  match n with
  | O => (processIndex, h)
  | Datatypes.S n' =>
      match elements h allProcesses !! processIndex with
      | Some p =>
          if arrivalTime (fields h p) <=? upToTime
          then enqueue_loop n' upToTime (Datatypes.S processIndex)
                 (<[readyQueue := Array (elements h readyQueue ++ [p])]> h)
          else (processIndex, h)
      | None => (processIndex, h)
      end
  end.

Definition enqueueArrivals (upToTime : Z) (st : rr_state) : rr_state :=
  let '(processIndex, h) :=
    enqueue_loop
      (length (elements (rr_store st) allProcesses) - rr_processIndex st)
      upToTime (rr_processIndex st) (rr_store st) in
  mkRRState (rr_gantt st) (rr_currentTime st) processIndex h.

Definition rr_cond (st : rr_state) : bool :=
  (0 <? length (elements (rr_store st) readyQueue))%nat
  || (rr_processIndex st
      <? length (elements (rr_store st) allProcesses))%nat.

Definition rr_body (quantum : Z) (st : rr_state) : rr_state :=
  let h := rr_store st in
  match elements h readyQueue with
  | [] =>
      match elements h allProcesses !! rr_processIndex st with
      | Some next =>
          let nextArrival := arrivalTime (fields h next) in
          enqueueArrivals nextArrival
            (mkRRState
               (rr_gantt st
                  ++ [mkSegment None (rr_currentTime st) nextArrival])
               nextArrival (rr_processIndex st) h)
      | None => st
      end
  | current :: rest =>
      (* readyQueue.shift() *)
      let h := <[readyQueue := Array rest]> h in
      let remainingBurst := default 0 (remaining_burst h current) in
      let execTime := Z.min quantum remainingBurst in
      let gantt :=
        rr_gantt st
          ++ [mkSegment (Some (pid (fields h current)))
                        (rr_currentTime st)
                        (rr_currentTime st + execTime)] in
      let currentTime := rr_currentTime st + execTime in
      (* current.remainingBurst -= execTime *)
      let h := <[current := Object (fields h current)
                                   (Some (remainingBurst - execTime))]> h in
      let st' :=
        enqueueArrivals currentTime
          (mkRRState gantt currentTime (rr_processIndex st) h) in
      if 0 <? default 0 (remaining_burst (rr_store st') current)
      then mkRRState (rr_gantt st') (rr_currentTime st')
             (rr_processIndex st')
             (<[readyQueue :=
                  Array (elements (rr_store st') readyQueue ++ [current])]>
                (rr_store st'))
      else st'
  end.

End RoundRobin.

Definition scheduleRoundRobin (fuel : nat) (processes : nat) (quantum : Z)
    (h : store) : option (nat * list GanttSegment) * store :=
  let '(allProcesses, h) :=
    array_map (fun h p => Object (fields h p)
                                 (Some (burstTime (fields h p))))
              processes h in
  let h := array_sort fcfs_compare allProcesses h in
  let '(readyQueue, h) := alloc (Array []) h in
  let st :=
    enqueueArrivals allProcesses readyQueue 0 (mkRRState [] 0 0 h) in
  let '(k, st) :=
    loop (rr_cond allProcesses readyQueue)
         (rr_body allProcesses readyQueue quantum) fuel st in
  (option_map (fun k => (k, rr_gantt st)) k, rr_store st).

(** *** The entry point *)

Definition dispatch (fuel : nat) (procs : nat) (algorithm : jsstring)
    (quantum : Z) (h : store)
    : outcome (nat * list GanttSegment) * store :=
  let finished (r : option (nat * list GanttSegment) * store) :=
    match r with
    | (Some kg, h) => (Returned kg, h)
    | (None, h) => (OutOfFuel, h)
    end in
  if decide (algorithm = str "FCFS")
  then let '(g, h') := scheduleFCFS procs h in
       (Returned (length (elements h procs), g), h')
  else if decide (algorithm = str "SJF")
  then finished (scheduleSJF fuel procs h)
  else if decide (algorithm = str "Priority")
  then finished (schedulePriority fuel procs h)
  else if decide (algorithm = str "RoundRobin")
  then finished (scheduleRoundRobin fuel procs quantum h)
  else (Threw (str "Unknown algorithm: " ++ algorithm), h).

(** [simulateSchedule(processes, algorithm, quantum = 2)], [processes]
    being a reference to the array of the caller: the outcome, and the
    store when the call ends (or runs out of fuel). *)
Definition simulateSchedule (localeCompare : jsstring -> jsstring -> Z)
    (fuel : nat) (processes : nat) (algorithm : jsstring)
    (quantum : option Z) (h : store)
    : outcome SimulationResult * store :=
  let quantum := default 2 quantum in
  if (length (elements h processes) =? 0)%nat then
    (Returned (mkResult [] [] (Some (Z2Qc 0)) (Some (Z2Qc 0))
                        (Some (Z2Qc 0)) (Z2Qc 0) 0), h)
  else
    (* processes.map((p) => ({ ...p })) *)
    let '(procs, h) :=
      array_map (fun h p => Object (fields h p) (remaining_burst h p))
                processes h in
    match dispatch fuel procs algorithm quantum h with
    | (Returned (_, ganttChart), h) =>
        (Returned (computeMetrics localeCompare
                     (List.map (fields h) (elements h procs)) ganttChart),
         h)
    | (Threw message, h) => (Threw message, h)
    | (OutOfFuel, h) => (OutOfFuel, h)
    end.

(** [frame h0 h]: the store [h] has grown from [h0] without any change
    to the cells of [h0], and the arrays made since hold references to
    objects made since only. *)
Definition frame (h0 h : store) : Prop :=
  h0 `prefix_of` h
  /\ forall a, (length h0 <= a)%nat ->
               Forall (fun o => (length h0 <= o)%nat) (elements h a).

(** The store in which the caller holds the array [descriptors]: the
    descriptors first, then the array, the reference to which is
    returned with the store. *)
Definition caller_store (descriptors : list Process) : nat * store :=
  (length descriptors,
   List.map (fun p => Object p None) descriptors
     ++ [Array (seq 0 (length descriptors))]).

End Store.

(** *** The variables of the loops, as values and in the store *)

(** The variables of the non-preemptive loop of the two engines hold the
    same timeline and the same time, and the array [remaining] of the
    store, made after the store was [entry], reads as the list
    [remaining] of values. *)
Definition np_related (entry : Store.store) (remaining : nat)
    (s : np_state) (t : Store.np_state) : Prop :=
  np_gantt s = Store.np_gantt t
  /\ np_currentTime s = Store.np_currentTime t
  /\ entry `prefix_of` Store.np_store t
  /\ (length entry <= remaining < length (Store.np_store t))%nat
  /\ Forall (fun o => (o < length entry)%nat)
            (Store.elements (Store.np_store t) remaining)
  /\ List.map (Store.fields entry)
               (Store.elements (Store.np_store t) remaining)
     = np_remaining s.

(** The round robin object that a cell of the store stands for. *)
Definition rr_object (h : Store.store) (o : nat) : RRProcess :=
  mkRR (Store.fields h o) (default 0 (Store.remaining_burst h o)).

(** The array [allProcesses] of the store holds the distinct references
    [os] to the objects that the list [allProcesses] holds as values, and
    the array [readyQueue] of the store holds the references that the list
    [readyQueue] holds as positions. *)
Definition rr_store_related (os : list nat) (allProcesses readyQueue : nat)
    (objects : list RRProcess) (queue : list nat) (h : Store.store) : Prop :=
  (allProcesses < readyQueue < length h)%nat
  /\ NoDup os
  /\ Forall (fun o => (o < allProcesses)%nat) os
  /\ Store.elements h allProcesses = os
  /\ List.map (rr_object h) os = objects
  /\ Forall2 (fun q i => os !! i = Some q) (Store.elements h readyQueue)
             queue.

(** The variables of the round robin loop of the two engines hold the same
    timeline, time and index, and the same objects and queue. *)
Definition rr_related (os : list nat) (allProcesses readyQueue : nat)
    (s : rr_state) (t : Store.rr_state) : Prop :=
  rr_gantt s = Store.rr_gantt t
  /\ rr_currentTime s = Store.rr_currentTime t
  /\ rr_processIndex s = Store.rr_processIndex t
  /\ rr_store_related os allProcesses readyQueue (rr_allProcesses s)
       (rr_readyQueue s) (Store.rr_store t).

(* ================================================================== *)
(** ** Vocabulary of the properties of timelines and metrics *)
(* ================================================================== *)

(** Every segment that runs a process starts once a process that bears its
    identifier has arrived. *)
Definition after_arrival (l : list Process) (g : list GanttSegment) : Prop :=
  forall s x, In s g -> seg_pid s = Some x ->
    exists p, In p l /\ pid p = x /\ arrivalTime p <= seg_start s.




(** What holds of round robin besides [rr_inv]: the objects stand for
    processes of the input, the processes in the queue have arrived, and no
    segment started before its process arrived. *)
Definition rr_arrival_inv (procs : list Process) (st : rr_state) : Prop :=
  rr_inv st
  /\ Forall (fun o => In (rr_proc o) procs) (rr_allProcesses st)
  /\ Forall (fun i => exists o, rr_allProcesses st !! i = Some o
                                /\ arrivalTime (rr_proc o)
                                   <= rr_currentTime st)
            (rr_readyQueue st)
  /\ after_arrival procs (rr_gantt st).

(** The result of a call that returned (the result for no process
    otherwise); it names the results of the concrete calls below. *)
Definition returned_result (o : outcome SimulationResult)
    : SimulationResult :=
  match o with
  | Returned r => r
  | _ => empty_result
  end.

(** The example processes under each policy, round robin with the default
    quantum. *)
Definition example_result (algorithm : string) : SimulationResult :=
  returned_result
    (simulateSchedule ordinal_compare 40 getExampleProcesses (str algorithm)
       None).

(** The order of first come first served: earlier arrival first, then
    lower insertion order. *)
Definition arrival_order (a b : Process) : Prop :=
  arrivalTime a < arrivalTime b
  \/ (arrivalTime a = arrivalTime b /\ insertionOrder a <= insertionOrder b).


(** [p] is ready when the segment [s], at position [i] of [g], starts: it
    has arrived and no earlier segment bears its identifier. *)
Definition ready_before (procs : list Process) (g : list GanttSegment)
    (i : nat) (s : GanttSegment) (p : Process) : Prop :=
  In p procs /\ arrivalTime p <= seg_start s
  /\ ~ In (Some (pid p)) (List.map seg_pid (take i g)).

(** Every segment of [g] that is not idle runs a process that comes first,
    for [better], among those ready when the segment starts. *)
Definition selects_least (better : Process -> Process -> Prop)
    (procs : list Process) (g : list GanttSegment) : Prop :=
  forall i s x, g !! i = Some s -> seg_pid s = Some x ->
    exists sel, In sel procs /\ pid sel = x
                /\ forall p, ready_before procs g i s p -> better sel p.

(** The order of shortest job first: shorter burst time first, then the
    order of arrival. *)
Definition sjf_order (a b : Process) : Prop :=
  burstTime a < burstTime b
  \/ (burstTime a = burstTime b /\ arrival_order a b).

(** The order of priority scheduling: lower priority number first, then
    the order of arrival. *)
Definition priority_order (a b : Process) : Prop :=
  priority a < priority b
  \/ (priority a = priority b /\ arrival_order a b).

(** What the non-preemptive loop keeps about its selections: a process of
    the input is still in [remaining] or has a segment, and every segment
    ran a least process among the ready ones. *)
Definition np_select_inv (cmp : Process -> Process -> Z)
    (procs : list Process) (st : np_state) : Prop :=
  NoDup (List.map pid (np_remaining st))
  /\ (forall p, In p (np_remaining st) -> In p procs)
  /\ (forall p, In p procs ->
        In p (np_remaining st)
        \/ In (Some (pid p)) (List.map seg_pid (np_gantt st)))
  /\ selects_least (fun a b => cmp a b <= 0) procs (np_gantt st).







(** What a row of the metrics copies from its process, and the same
    fields of a process. *)
Definition row_key (m : ProcessMetrics) : jsstring * Z * Z * Z :=
  (pm_pid m, pm_arrivalTime m, pm_burstTime m, pm_priority m).

Definition process_key (p : Process) : jsstring * Z * Z * Z :=
  (pid p, arrivalTime p, burstTime p, priority p).


(** The first half of a turn of the loop of [scheduleFCFS]: the idle
    segment, when the process has not arrived yet. *)
Definition fcfs_wait (st : list GanttSegment * Z) (proc : Process)
    : list GanttSegment * Z :=
  let '(gantt, currentTime) := st in
  if currentTime <? arrivalTime proc
  then (gantt ++ [mkSegment None currentTime (arrivalTime proc)],
        arrivalTime proc)
  else (gantt, currentTime).

(** [scheduleFCFS] after its first [j] processes. *)
Definition fcfs_prefix (procs : list Process) (j : nat)
    : list GanttSegment * Z :=
  fold_left fcfs_step (take j (js_sort fcfs_compare procs)) ([], 0).

(** Round robin with a quantum that no burst time exceeds, seen as first
    come first served: [j] processes have run to their end, the queue holds
    the next ones in order, and the timeline is that of [scheduleFCFS]
    after [j] processes, with the idle segment before the next process
    when the queue is not empty. *)
Definition rr_fcfs_inv (procs : list Process) (st : rr_state) : Prop :=
  let sorted := js_sort fcfs_compare procs in
  let i := rr_processIndex st in
  exists j,
    (j <= i <= length sorted)%nat
    /\ rr_readyQueue st = seq j (i - j)
    /\ rr_proc <$> rr_allProcesses st = sorted
    /\ (forall c o, (j <= c)%nat -> rr_allProcesses st !! c = Some o ->
                    remainingBurst o = burstTime (rr_proc o))
    /\ (forall c p, (j <= c < i)%nat -> sorted !! c = Some p ->
                    arrivalTime p <= rr_currentTime st)
    /\ (forall p, sorted !! i = Some p -> rr_currentTime st < arrivalTime p)
    /\ (j = i -> (rr_gantt st, rr_currentTime st) = fcfs_prefix procs j)
    /\ (forall p, (j < i)%nat -> sorted !! j = Some p ->
                  (rr_gantt st, rr_currentTime st)
                  = fcfs_wait (fcfs_prefix procs j) p).






(* ================================================================== *)
(** ** The application ([src/App.tsx], [src/components/Controls.tsx]) *)
(* ================================================================== *)



(** [canRun] of [App]: there is a process, and every process has an
    identifier that is not blank, an arrival time and a priority of at
    least 0 and a positive burst time. *)
Definition canRun (processes : list Process) : bool :=
  (0 <? length processes)%nat
  && forallb (fun p => negb (bool_decide (trim (pid p) = []))
                       && (0 <=? arrivalTime p) && (0 <? burstTime p)
                       && (0 <=? priority p))
             processes.


(** A whole process where a [Partial<Process>] is expected. *)
Definition as_partial (p : Process) : PartialProcess :=
  mkPartial (Some (pid p)) (Some (Z2Qc (arrivalTime p)))
            (Some (Z2Qc (burstTime p))) (Some (Z2Qc (priority p)))
            (Some (Z2Qc (insertionOrder p))).

(** *** [parseInt(s, 10)] *)

(** The value of a decimal digit. *)
Definition digit_value (c : N) : option Z :=
  if ((48 <=? c) && (c <=? 57))%N then Some (Z.of_N c - 48) else None.

(** The number denoted by the longest prefix of [s] made of digits, after
    the digits that gave [acc]; [None] when there has been no digit. *)
Fixpoint parse_digits (acc : option Z) (s : jsstring) : option Z :=
  match s with
  | c :: s' =>
      match digit_value c with
      | Some d => parse_digits (Some (10 * default 0 acc + d)) s'
      | None => acc
      end
  | [] => acc
  end.

(** [parseInt(s, 10)]: leading white space is skipped, then a sign, then
    the digits are read; [None] stands for NaN.  (The rounding of integers
    beyond 2^53 is outside the model.) *)
Definition parseInt (s : jsstring) : option Z :=
  let s := trim_start s in
  let '(sign, s) :=
    match s with
    | 45%N :: s' => (-1, s')
    | 43%N :: s' => (1, s')
    | _ => (1, s)
    end in
  match parse_digits None s with
  | Some n => Some (sign * n)
  | None => None
  end.

(** [n || d] for the result [n] of [parseInt]: NaN and 0 are falsy. *)
Definition or_else (n : option Z) (d : Z) : Z :=
  match n with
  | Some n => if n =? 0 then d else n
  | None => d
  end.


(* ================================================================== *)
(** ** The process table ([src/components/ProcessTable.tsx]) *)
(* ================================================================== *)

(** The decimal digits of a natural number, as [`${n}`] gives them. *)
Definition number_to_string (n : nat) : jsstring :=
  str (NilZero.string_of_uint (Nat.to_uint n)).

(** [l.filter((x, i) => f(x, i))], the indices starting at [i]. *)
Fixpoint filter_from {A : Type} (f : A -> nat -> bool) (i : nat)
    (l : list A) : list A :=
  match l with
  | [] => []
  | x :: l' =>
      if f x i then x :: filter_from f (Datatypes.S i) l'
      else filter_from f (Datatypes.S i) l'
  end.

(** The state that the table works on: the processes, which [App] holds,
    and the errors by row index, which the table holds. *)
Record table : Type := mkTable {
  table_processes : list Process;
  table_errors : gmap nat (list jsstring)
}.

(** [addProcess] *)
Definition addProcess (t : table) : table :=
  let processes := table_processes t in
  let newPid := str "P" ++ number_to_string (length processes + 1) in
  let newProcess :=
    mkProcess newPid 0 1 1 (Z.of_nat (length processes)) in
  mkTable (processes ++ [newProcess]) (table_errors t).

(** [keyof Process] *)
Inductive Field : Type :=
| field_pid
| field_arrivalTime
| field_burstTime
| field_priority
| field_insertionOrder.

(** [{ ...p, [field]: value }] for the text [value] of an input: the text
    itself for [pid], and [parseInt(value, 10) || 0] for the numbers. *)
Definition with_field (p : Process) (field : Field) (value : jsstring)
    : Process :=
  let numValue := or_else (parseInt value) 0 in
  match field with
  | field_pid =>
      mkProcess value (arrivalTime p) (burstTime p) (priority p)
                (insertionOrder p)
  | field_arrivalTime =>
      mkProcess (pid p) numValue (burstTime p) (priority p)
                (insertionOrder p)
  | field_burstTime =>
      mkProcess (pid p) (arrivalTime p) numValue (priority p)
                (insertionOrder p)
  | field_priority =>
      mkProcess (pid p) (arrivalTime p) (burstTime p) numValue
                (insertionOrder p)
  | field_insertionOrder =>
      mkProcess (pid p) (arrivalTime p) (burstTime p) (priority p) numValue
  end.

(** [updateProcess(index, field, value)], which every input of the table
    calls with its text and the index of its row; a call with an index
    that is not a row of the table is outside the model ([None]). *)
Definition updateProcess (t : table) (index : nat) (field : Field)
    (value : jsstring) : option table :=
  match table_processes t !! index with
  | Some p =>
      let updated := <[index := with_field p field value]>
                       (table_processes t) in
      let validation := validateProcess (as_partial (with_field p field value)) in
      let newErrors :=
        if negb (valid validation)
        then <[index := errors validation]> (table_errors t)
        else delete index (table_errors t) in
      Some (mkTable updated newErrors)
  | None => None
  end.

(** [deleteProcess(index)] *)
Definition deleteProcess (t : table) (index : nat) : table :=
  let updated :=
    filter_from (fun _ i => negb (i =? index)%nat) 0 (table_processes t) in
  let reordered :=
    imap (fun i p => mkProcess (pid p) (arrivalTime p) (burstTime p)
                               (priority p) (Z.of_nat i))
         updated in
  mkTable reordered (delete index (table_errors t)).

(** [loadExample] and [clearAll] *)
Definition loadExample : table := mkTable getExampleProcesses ∅.

Definition clearAll : table := mkTable [] ∅.

(** The fields that a cell of the table edits ([EditingCell]). *)
Inductive EditingField : Type :=
| edit_pid
| edit_arrivalTime
| edit_burstTime
| edit_priority.

Definition field_of (f : EditingField) : Field :=
  match f with
  | edit_pid => field_pid
  | edit_arrivalTime => field_arrivalTime
  | edit_burstTime => field_burstTime
  | edit_priority => field_priority
  end.

(** What the user can do to the table; rows are edited and deleted through
    the inputs and the button of an existing row. *)
Inductive action : Type :=
| AddProcess
| UpdateProcess (index : nat) (field : EditingField) (value : jsstring)
| DeleteProcess (index : nat)
| LoadExample
| ClearAll.

Definition perform (t : table) (a : action) : option table :=
  match a with
  | AddProcess => Some (addProcess t)
  | UpdateProcess index field value =>
      updateProcess t index (field_of field) value
  | DeleteProcess index =>
      if (index <? length (table_processes t))%nat
      then Some (deleteProcess t index) else None
  | LoadExample => Some loadExample
  | ClearAll => Some clearAll
  end.

(** The table after a sequence of actions; [None] when one of them was not
    on offer. *)
Fixpoint perform_all (t : table) (actions : list action) : option table :=
  match actions with
  | [] => Some t
  | a :: actions' =>
      match perform t a with
      | Some t' => perform_all t' actions'
      | None => None
      end
  end.

(** The table of a page that has just been loaded. *)
Definition initial_table : table := mkTable [] ∅.

Definition is_delete (a : action) : bool :=
  match a with
  | DeleteProcess _ => true
  | _ => false
  end.

(** The rows bear their position as insertion order. *)
Definition numbered (processes : list Process) : Prop :=
  forall i p, processes !! i = Some p -> insertionOrder p = Z.of_nat i.

(** The errors of the table are those of its rows: a row has an entry
    exactly when [validateProcess] rejects it, and there is no entry
    beyond the rows. *)
Definition errors_match_rows (t : table) : Prop :=
  (forall i p, table_processes t !! i = Some p ->
     (table_errors t !! i = None
      <-> valid (validateProcess (as_partial p)) = true))
  /\ (forall i, (length (table_processes t) <= i)%nat ->
                table_errors t !! i = None).

(** The table after a sequence of actions from the empty table (the empty
    table when an action was not on offer). *)
Definition table_after (actions : list action) : table :=
  default initial_table (perform_all initial_table actions).

(** A row as [addProcess] makes it, up to its number and insertion order. *)
Definition added_row (p : Process) : Prop :=
  arrivalTime p = 0 /\ burstTime p = 1 /\ priority p = 1
  /\ exists s, pid p = str "P" ++ s.

(* ================================================================== *)
(** ** Colors ([src/lib/colors.ts], [src/types/index.ts]) *)
(* ================================================================== *)

Record ProcessColor : Type := mkColor {
  color_bg : jsstring;
  color_border : jsstring;
  color_text : jsstring
}.

Definition PROCESS_COLORS : list ProcessColor :=
  [ mkColor (str "bg-blue-500") (str "border-blue-600") (str "text-blue-600");
    mkColor (str "bg-emerald-500") (str "border-emerald-600")
            (str "text-emerald-600");
    mkColor (str "bg-amber-500") (str "border-amber-600")
            (str "text-amber-600");
    mkColor (str "bg-rose-500") (str "border-rose-600") (str "text-rose-600");
    mkColor (str "bg-purple-500") (str "border-purple-600")
            (str "text-purple-600");
    mkColor (str "bg-cyan-500") (str "border-cyan-600") (str "text-cyan-600");
    mkColor (str "bg-orange-500") (str "border-orange-600")
            (str "text-orange-600");
    mkColor (str "bg-pink-500") (str "border-pink-600") (str "text-pink-600");
    mkColor (str "bg-indigo-500") (str "border-indigo-600")
            (str "text-indigo-600");
    mkColor (str "bg-teal-500") (str "border-teal-600") (str "text-teal-600")
  ].

Definition PROCESS_HEX_COLORS : list jsstring :=
  [ str "#3b82f6"; str "#10b981"; str "#f59e0b"; str "#f43f5e";
    str "#a855f7"; str "#06b6d4"; str "#f97316"; str "#ec4899";
    str "#6366f1"; str "#14b8a6" ].

(** [l.indexOf(x)]: the first index at which [x] stands, or -1. *)
Definition indexOf (x : jsstring) (l : list jsstring) : Z :=
  findIndex (fun y => bool_decide (y = x)) l.

(** [l[i]] for an integer [i]: [undefined], here [None], when [i] is not an
    index of [l]. *)
Definition at_index {A : Type} (l : list A) (i : Z) : option A :=
  if i <? 0 then None else l !! Z.to_nat i.

(** [getProcessColor(pid, allPids)]; [%] is the remainder that has the
    sign of the dividend. *)
Definition getProcessColor (pid : jsstring) (allPids : list jsstring)
    : option ProcessColor :=
  let index := indexOf pid allPids in
  at_index PROCESS_COLORS (Z.rem index (Z.of_nat (length PROCESS_COLORS))).

Definition getProcessHexColor (pid : jsstring) (allPids : list jsstring)
    : option jsstring :=
  let index := indexOf pid allPids in
  at_index PROCESS_HEX_COLORS
    (Z.rem index (Z.of_nat (length PROCESS_HEX_COLORS))).

Definition getIdleColor : ProcessColor :=
  mkColor (str "bg-gray-300 dark:bg-gray-600")
          (str "border-gray-400 dark:border-gray-500")
          (str "text-gray-500 dark:text-gray-400").

(** The loop of [generateColorMap]: the map and the index after
    [pids.forEach((pid, index) => map.set(pid, ...))]. *)
Definition color_map_loop (pids : list jsstring)
    : gmap jsstring (option jsstring) * Z :=
  fold_left
    (fun (st : gmap jsstring (option jsstring) * Z) pid =>
       let '(map, index) := st in
       (<[pid := at_index PROCESS_HEX_COLORS
                   (Z.rem index (Z.of_nat (length PROCESS_HEX_COLORS)))]>
          map,
        index + 1))
    pids (∅, 0).

(** [generateColorMap(pids)] *)
Definition generateColorMap (pids : list jsstring)
    : gmap jsstring (option jsstring) :=
  fst (color_map_loop pids).

Global Instance ProcessColor_eq_dec : EqDecision ProcessColor.
Proof. solve_decision. Defined.

(* ================================================================== *)
(** ** The chart ([src/components/GanttChart.tsx]) *)
(* ================================================================== *)

(** The state of the chart: whether the animation plays, and how far it
    has got, a number that need not be an integer. *)
Record chart : Type := mkChart {
  isPlaying : bool;
  animationProgress : Qc
}.

(** [currentSegmentIndex]: -1 at the start, otherwise the first segment
    that holds the progress, or the last segment when none does. *)
Definition currentSegmentIndex (segments : list GanttSegment)
    (progress : Qc) : Z :=
  if decide (progress = Z2Qc 0) then -1
  else
    let idx :=
      findIndex (fun seg => num_le (Z2Qc (seg_start seg)) progress
                            && num_lt progress (Z2Qc (seg_end seg)))
                segments in
    if negb (idx =? -1) then idx else Z.of_nat (length segments) - 1.

(** [handlePlay], [handlePause], [handleStep] and [handleReset] *)
Definition handlePlay (totalTime : Z) (st : chart) : chart :=
  mkChart true
    (if num_le (Z2Qc totalTime) (animationProgress st) then Z2Qc 0
     else animationProgress st).

Definition handlePause (st : chart) : chart :=
  mkChart false (animationProgress st).

Definition handleStep (segments : list GanttSegment) (totalTime : Z)
    (st : chart) : chart :=
  match at_index segments
          (currentSegmentIndex segments (animationProgress st) + 1) with
  | Some nextSegment => mkChart false (Z2Qc (seg_start nextSegment))
  | None =>
      if (0 <? length segments)%nat then mkChart false (Z2Qc totalTime)
      else mkChart false (animationProgress st)
  end.

Definition handleReset (st : chart) : chart := mkChart false (Z2Qc 0).

(** [getSegmentColor(pid)] *)
Definition getSegmentColor (allPids : list jsstring) (pid : option jsstring)
    : option jsstring :=
  match pid with
  | None => Some (str "#9ca3af")
  | Some pid => getProcessHexColor pid allPids
  end.




(* ================================================================== *)
(** ** Loops *)
(* ================================================================== *)

Lemma while_exit {S : Type} (cond : S -> bool) (body : S -> S) fuel s :
  cond s = false -> while cond body fuel s = Some (O, s).
Proof. intros H. destruct fuel; simpl; rewrite H; reflexivity. Qed.

Lemma while_step {S : Type} (cond : S -> bool) (body : S -> S) fuel s :
  cond s = true ->
  while cond body (Datatypes.S fuel) s =
    match while cond body fuel (body s) with
    | Some (k, s') => Some (Datatypes.S k, s')
    | None => None
    end.
Proof. intros H. simpl. rewrite H. reflexivity. Qed.

(** An invariant of the body holds when the loop is left, and the loop
    condition is false then. *)
Lemma while_invariant {S : Type} (I : S -> Prop) cond (body : S -> S) :
  (forall s, I s -> cond s = true -> I (body s)) ->
  forall fuel s k s',
    I s -> while cond body fuel s = Some (k, s') -> I s' /\ cond s' = false.
Proof.
  intros Hbody fuel. induction fuel as [|fuel IH]; intros s k s' Hs Hrun.
  - simpl in Hrun. destruct (cond s) eqn:Hc; [discriminate|].
    inversion Hrun; subst. auto.
  - destruct (cond s) eqn:Hc.
    + rewrite while_step in Hrun by assumption.
      destruct (while cond body fuel (body s)) as [[k0 s0]|] eqn:Hrec;
        [|discriminate].
      inversion Hrun; subst.
      apply (IH (body s) k0 s'); [apply Hbody; assumption | assumption].
    + rewrite while_exit in Hrun by assumption. inversion Hrun; subst. auto.
Qed.



(* ================================================================== *)
(** ** Sorting *)
(* ================================================================== *)

Lemma sort_insert_perm {A : Type} (cmp : A -> A -> Z) x l :
  Permutation (sort_insert cmp x l) (x :: l).
Proof.
  induction l as [|y l IH]; simpl; [reflexivity|].
  destruct (cmp x y <=? 0); [reflexivity|].
  rewrite IH. apply perm_swap.
Qed.

Lemma js_sort_perm {A : Type} (cmp : A -> A -> Z) l :
  Permutation (js_sort cmp l) l.
Proof.
  induction l as [|x l IH]; simpl; [reflexivity|].
  rewrite sort_insert_perm. constructor. assumption.
Qed.

Lemma js_sort_length {A : Type} (cmp : A -> A -> Z) l :
  length (js_sort cmp l) = length l.
Proof. apply Permutation_length, js_sort_perm. Qed.

Lemma js_sort_In {A : Type} (cmp : A -> A -> Z) l x :
  In x (js_sort cmp l) <-> In x l.
Proof.
  split; apply Permutation_in; [|symmetry]; apply js_sort_perm.
Qed.

Lemma js_sort_nil_inv {A : Type} (cmp : A -> A -> Z) l :
  js_sort cmp l = [] -> l = [].
Proof.
  intros H. apply length_zero_iff_nil.
  rewrite <- (js_sort_length cmp), H. reflexivity.
Qed.

(** The element that a sort puts first. *)
Lemma js_sort_head_cons {A : Type} (cmp : A -> A -> Z) x l :
  head (js_sort cmp (x :: l)) =
    match head (js_sort cmp l) with
    | None => Some x
    | Some m => if cmp x m <=? 0 then Some x else Some m
    end.
Proof.
  simpl. destruct (js_sort cmp l) as [|m t]; simpl; [reflexivity|].
  destruct (cmp x m <=? 0); reflexivity.
Qed.

Lemma js_sort_head_In {A : Type} (cmp : A -> A -> Z) l m :
  head (js_sort cmp l) = Some m -> In m l.
Proof.
  intros H. apply (js_sort_In cmp).
  destruct (js_sort cmp l); simpl in H; [discriminate|].
  inversion H; subst. left; reflexivity.
Qed.

(** Removing the element sorted first leaves the rest of the sorted list. *)
Lemma js_sort_remove_first cmp (R : list Process) m :
  (forall x, cmp x x = 0) ->
  head (js_sort cmp R) = Some m ->
  js_sort cmp (remove_first m R) = tail (js_sort cmp R).
Proof.
  intros Hrefl. induction R as [|x R IH]; intros Hm; [discriminate|].
  rewrite js_sort_head_cons in Hm. simpl remove_first.
  destruct (decide (m = x)) as [->|Hne].
  - simpl. destruct (js_sort cmp R) as [|m' T]; simpl; [reflexivity|].
    simpl in Hm. destruct (cmp x m' <=? 0) eqn:Hc; [reflexivity|].
    inversion Hm; subst. rewrite Hrefl in Hc. discriminate.
  - destruct (head (js_sort cmp R)) as [m'|] eqn:Hh.
    + destruct (cmp x m' <=? 0) eqn:Hc; inversion Hm; subst; [congruence|].
      simpl. rewrite IH by reflexivity.
      destruct (js_sort cmp R) as [|m' T]; simpl in *; [discriminate|].
      inversion Hh; subst. rewrite Hc. reflexivity.
    + inversion Hm; subst. congruence.
Qed.

Lemma remove_first_length (R : list Process) m :
  In m R -> length R = Datatypes.S (length (remove_first m R)).
Proof.
  induction R as [|x R IH]; simpl; [tauto|].
  intros [->|Hin].
  - destruct (decide (m = m)); [reflexivity|congruence].
  - destruct (decide (m = x)); [reflexivity|]. simpl. rewrite <- IH; auto.
Qed.

(** *** The least element of an array of numbers *)

Lemma fold_min_spec l : forall a,
  (fold_left Z.min l a = a \/ In (fold_left Z.min l a) l)
  /\ fold_left Z.min l a <= a
  /\ (forall x, In x l -> fold_left Z.min l a <= x).
Proof.
  induction l as [|y l IH]; intros a; simpl.
  - split; [left; reflexivity|]. split; [lia|tauto].
  - destruct (IH (Z.min a y)) as (Hin & Hle & Hall).
    split; [|split].
    + destruct Hin as [Heq|Hin]; [|right; right; assumption].
      rewrite Heq. destruct (Z.min_spec a y) as [[_ ->]|[_ ->]]; auto.
    + lia.
    + intros x [->|Hx]; [lia|auto].
Qed.

Lemma math_min_In l : l <> [] -> In (math_min l) l.
Proof.
  destruct l as [|a l]; [congruence|]. intros _. simpl.
  destruct (fold_min_spec l a) as ([->|H] & _); auto.
Qed.

Lemma math_min_le l x : In x l -> math_min l <= x.
Proof.
  destruct l as [|a l]; [simpl; tauto|].
  destruct (fold_min_spec l a) as (_ & Hle & Hall).
  simpl. intros [->|Hx]; auto.
Qed.

(** *** The first-come-first-served order *)

Lemma fcfs_compare_refl a : fcfs_compare a a = 0.
Proof. unfold fcfs_compare. rewrite Z.eqb_refl. simpl. lia. Qed.

Lemma fcfs_compare_lt a b :
  arrivalTime a < arrivalTime b ->
  fcfs_compare a b < 0 /\ 0 < fcfs_compare b a.
Proof.
  intros H. unfold fcfs_compare.
  destruct (arrivalTime a =? arrivalTime b) eqn:E1; [lia|].
  destruct (arrivalTime b =? arrivalTime a) eqn:E2; [lia|].
  simpl. lia.
Qed.

Lemma fcfs_compare_le a b :
  fcfs_compare a b <= 0 -> arrivalTime a <= arrivalTime b.
Proof.
  unfold fcfs_compare.
  destruct (arrivalTime a =? arrivalTime b) eqn:E1; simpl; lia.
Qed.

(** Among the processes that have arrived, the first in arrival order is
    the first in arrival order of the whole pool. *)
Lemma fcfs_head_available R t m :
  head (js_sort fcfs_compare
          (List.filter (fun p => arrivalTime p <=? t) R)) = Some m ->
  head (js_sort fcfs_compare R) = Some m.
Proof.
  revert m. induction R as [|x R IH]; intros m; simpl List.filter;
    [discriminate|].
  destruct (arrivalTime x <=? t) eqn:Hx.
  - rewrite !js_sort_head_cons.
    destruct (head (js_sort fcfs_compare (List.filter _ R))) as [m'|] eqn:Hf.
    + rewrite (IH m' eq_refl). auto.
    + intros Hm. inversion Hm; subst.
      destruct (head (js_sort fcfs_compare R)) as [m''|] eqn:Hr;
        [|reflexivity].
      assert (HF : List.filter (fun p => arrivalTime p <=? t) R = []).
      { apply (js_sort_nil_inv fcfs_compare).
        destruct (js_sort fcfs_compare (List.filter _ R)); [reflexivity|].
        discriminate. }
      apply js_sort_head_In in Hr.
      assert (Hlate : (arrivalTime m'' <=? t) = false).
      { destruct (arrivalTime m'' <=? t) eqn:E; [|reflexivity].
        assert (Hin : In m'' (List.filter (fun p => arrivalTime p <=? t) R))
          by (apply filter_In; auto).
        rewrite HF in Hin. destruct Hin. }
      destruct (fcfs_compare_lt m m'') as [Hlt _]; [lia|].
      destruct (fcfs_compare m m'' <=? 0) eqn:E; [reflexivity|lia].
  - intros Hm. rewrite js_sort_head_cons, (IH m Hm).
    apply js_sort_head_In, filter_In in Hm. destruct Hm as [_ Hm].
    destruct (fcfs_compare_lt m x) as [_ Hgt]; [lia|].
    destruct (fcfs_compare x m <=? 0) eqn:E; [lia|reflexivity].
Qed.

Lemma fcfs_head_earliest R m :
  head (js_sort fcfs_compare R) = Some m ->
  forall y, In y R -> arrivalTime m <= arrivalTime y.
Proof.
  revert m. induction R as [|x R IH]; intros m Hm y Hy; [destruct Hy|].
  rewrite js_sort_head_cons in Hm.
  destruct (head (js_sort fcfs_compare R)) as [m'|] eqn:Hr.
  - specialize (IH m' eq_refl).
    destruct (fcfs_compare x m' <=? 0) eqn:E; inversion Hm; subst.
    + apply Z.leb_le, fcfs_compare_le in E.
      destruct Hy as [->|Hy]; [lia|]. specialize (IH y Hy). lia.
    + destruct Hy as [->|Hy]; [|auto].
      destruct (Z_lt_le_dec (arrivalTime y) (arrivalTime m)) as [Hlt|]; [|lia].
      destruct (fcfs_compare_lt y m Hlt). lia.
  - inversion Hm; subst.
    assert (R = []) as ->.
    { apply (js_sort_nil_inv fcfs_compare).
      destruct (js_sort fcfs_compare R); [reflexivity|discriminate]. }
    destruct Hy as [->|[]]. lia.
Qed.

Lemma fcfs_next_arrival R m :
  head (js_sort fcfs_compare R) = Some m ->
  math_min (List.map arrivalTime R) = arrivalTime m.
Proof.
  intros Hm. pose proof (js_sort_head_In _ _ _ Hm) as Hin.
  assert (Hne : List.map arrivalTime R <> [])
    by (destruct R; [destruct Hin|discriminate]).
  pose proof (math_min_In _ Hne) as Hmin.
  apply in_map_iff in Hmin. destruct Hmin as (y & Hy & HyR).
  pose proof (fcfs_head_earliest R m Hm y HyR).
  pose proof (math_min_le (List.map arrivalTime R) (arrivalTime m)
                (in_map _ _ _ Hin)).
  lia.
Qed.

(** *** The specification's machine under the first-come-first-served order *)

Lemma np_cond_cons g x R t : np_cond (mkNp g (x :: R) t) = true.
Proof. reflexivity. Qed.

Lemma spec_machine_fcfs_loop : forall n R g t fuel,
  length R = n -> (2 * n <= fuel)%nat ->
  exists k st',
    while np_cond (spec_step fcfs_compare) fuel (mkNp g R t) = Some (k, st')
    /\ np_gantt st' =
         fst (fold_left fcfs_step (js_sort fcfs_compare R) (g, t)).
Proof.
  induction n as [|n IH]; intros R g t fuel Hlen Hfuel.
  - destruct R; [|discriminate]. exists O, (mkNp g [] t).
    rewrite while_exit by reflexivity. auto.
  - destruct (js_sort fcfs_compare R) as [|m T] eqn:HS.
    { apply js_sort_nil_inv in HS. subst R. discriminate. }
    assert (Hhead : head (js_sort fcfs_compare R) = Some m)
      by (rewrite HS; reflexivity).
    assert (HmR : In m R) by (eapply js_sort_head_In; eauto).
    assert (HT : js_sort fcfs_compare (remove_first m R) = T).
    { rewrite (js_sort_remove_first _ _ _ fcfs_compare_refl Hhead), HS.
      reflexivity. }
    assert (Hlen' : length (remove_first m R) = n).
    { pose proof (remove_first_length R m HmR). lia. }
    assert (Hcond : forall g' t', np_cond (mkNp g' R t') = true).
    { intros. destruct R; [destruct HmR|reflexivity]. }
    destruct fuel as [|fuel]; [lia|].
    rewrite while_step by apply Hcond.
    unfold spec_step at 2. simpl np_remaining. simpl np_currentTime.
    simpl np_gantt.
    destruct (js_sort fcfs_compare
                (List.filter (fun p => arrivalTime p <=? t) R))
      as [|sel A] eqn:Hav.
    + (* nothing has arrived: an idle segment, then [m] *)
      apply js_sort_nil_inv in Hav.
      assert (Hlate : t < arrivalTime m).
      { destruct (Z_lt_le_dec t (arrivalTime m)) as [|Hle]; [assumption|].
        assert (Hin : In m (List.filter (fun p => arrivalTime p <=? t) R))
          by (apply filter_In; split; [assumption|apply Z.leb_le; lia]).
        rewrite Hav in Hin. destruct Hin. }
      rewrite (fcfs_next_arrival R m Hhead).
      destruct fuel as [|fuel]; [lia|].
      rewrite while_step by apply Hcond.
      unfold spec_step at 2. simpl np_remaining. simpl np_currentTime.
      simpl np_gantt.
      destruct (js_sort fcfs_compare
                  (List.filter (fun p => arrivalTime p <=? arrivalTime m) R))
        as [|sel A] eqn:Hav'.
      { apply js_sort_nil_inv in Hav'.
        assert (Hin : In m (List.filter
                              (fun p => arrivalTime p <=? arrivalTime m) R))
          by (apply filter_In; split; [assumption|apply Z.leb_le; lia]).
        rewrite Hav' in Hin. destruct Hin. }
      assert (sel = m) as ->.
      { pose proof (fcfs_head_available R (arrivalTime m) sel) as H.
        rewrite Hav' in H. specialize (H eq_refl). congruence. }
      destruct (IH (remove_first m R)
                   ((g ++ [mkSegment None t (arrivalTime m)]) ++
                      [mkSegment (Some (pid m)) (arrivalTime m)
                                 (arrivalTime m + burstTime m)])
                   (arrivalTime m + burstTime m) fuel Hlen')
        as (k & st' & Hrun & Hg); [lia|].
      exists (Datatypes.S (Datatypes.S k)), st'. rewrite Hrun.
      split; [reflexivity|]. rewrite Hg, HT. simpl fold_left.
      unfold fcfs_step at 2.
      destruct (t <? arrivalTime m) eqn:E; [reflexivity|].
      apply Z.ltb_ge in E. lia.
    + (* [m] has arrived and is first in the order *)
      assert (sel = m) as ->.
      { pose proof (fcfs_head_available R t sel) as H.
        rewrite Hav in H. specialize (H eq_refl). congruence. }
      assert (Harr : arrivalTime m <= t).
      { assert (Hin : In m (List.filter (fun p => arrivalTime p <=? t) R))
          by (rewrite <- (js_sort_In fcfs_compare), Hav; left; reflexivity).
        apply filter_In in Hin. destruct Hin as [_ Hin].
        apply Z.leb_le in Hin. assumption. }
      destruct (IH (remove_first m R)
                   (g ++ [mkSegment (Some (pid m)) t (t + burstTime m)])
                   (t + burstTime m) fuel Hlen')
        as (k & st' & Hrun & Hg); [lia|].
      exists (Datatypes.S k), st'. rewrite Hrun.
      split; [reflexivity|]. rewrite Hg, HT. simpl fold_left.
      unfold fcfs_step at 2.
      destruct (t <? arrivalTime m) eqn:E; [|reflexivity].
      apply Z.ltb_lt in E. lia.
Qed.

(** C7.  First come first served, computed by one global sort on arrival
    time then insertion order with idle segments where the next arrival is
    still ahead, yields the very timeline of the general state machine of
    the specification run with that order: for every list of processes, the
    machine stops within two turns per process and returns the timeline of
    [scheduleFCFS]. *)
Theorem fcfs_refines_general_loop (processes : list Process) (fuel : nat) :
  (2 * length processes <= fuel)%nat ->
  exists k,
    spec_machine fcfs_compare fuel processes
    = Some (k, scheduleFCFS processes).
Proof.
  intros Hfuel.
  destruct (spec_machine_fcfs_loop (length processes) processes [] 0 fuel
              eq_refl Hfuel) as (k & st' & Hrun & Hg).
  exists k. unfold spec_machine, scheduleFCFS. rewrite Hrun, Hg. reflexivity.
Qed.

Lemma fcfs_refines_general_loop_witness :
  exists k,
    spec_machine fcfs_compare 10 getExampleProcesses
    = Some (k, scheduleFCFS getExampleProcesses).
Proof.
  apply (fcfs_refines_general_loop getExampleProcesses 10). simpl. lia.
Defined.

(* ================================================================== *)
(** ** Sums and timelines *)
(* ================================================================== *)

Lemma Zsum_app l1 l2 : Zsum (l1 ++ l2) = Zsum l1 + Zsum l2.
Proof. induction l1 as [|x l1 IH]; simpl; [reflexivity|]. rewrite IH. lia. Qed.

Lemma Zsum_perm l1 l2 : Permutation l1 l2 -> Zsum l1 = Zsum l2.
Proof. induction 1; simpl; lia. Qed.

Lemma service_time_app p g1 g2 :
  service_time p (g1 ++ g2) = service_time p g1 + service_time p g2.
Proof.
  unfold service_time. rewrite List.filter_app, List.map_app. apply Zsum_app.
Qed.

Lemma service_time_idle p a b : service_time p [mkSegment None a b] = 0.
Proof. reflexivity. Qed.

Lemma service_time_run p q a b :
  service_time p [mkSegment (Some q) a b] = if decide (q = p) then b - a else 0.
Proof.
  unfold service_time. simpl.
  destruct (decide (q = p)) as [->|Hne].
  - rewrite bool_decide_eq_true_2 by reflexivity. simpl. unfold duration.
    simpl. lia.
  - rewrite bool_decide_eq_false_2 by congruence. reflexivity.
Qed.

Lemma demand_app p l1 l2 : demand p (l1 ++ l2) = demand p l1 + demand p l2.
Proof.
  unfold demand. rewrite List.filter_app, List.map_app. apply Zsum_app.
Qed.

Lemma demand_cons p q l :
  demand p (q :: l) = (if decide (pid q = p) then burstTime q else 0)
                      + demand p l.
Proof.
  unfold demand. simpl. destruct (decide (pid q = p)) as [Heq|Hne].
  - rewrite bool_decide_eq_true_2 by assumption. reflexivity.
  - rewrite bool_decide_eq_false_2 by assumption. reflexivity.
Qed.



Lemma total_burst_perm l1 l2 :
  Permutation l1 l2 -> total_burst l1 = total_burst l2.
Proof.
  intros H. apply Zsum_perm, Permutation_map. assumption.
Qed.


Lemma chain_snoc t g t' p e :
  chain t g t' -> t' < e -> chain t (g ++ [mkSegment p t' e]) e.
Proof.
  revert t. induction g as [|s g IH]; simpl; intros t Hc He.
  - subst. auto.
  - destruct Hc as (Hs & Hlt & Hc). auto.
Qed.

Lemma chain_app t g1 t1 g2 t2 :
  chain t g1 t1 -> chain t1 g2 t2 -> chain t (g1 ++ g2) t2.
Proof.
  revert t. induction g1 as [|s g1 IH]; simpl; intros t H1 H2.
  - subst. assumption.
  - destruct H1 as (Hs & Hlt & H1). auto.
Qed.

Lemma chain_le t g t' : chain t g t' -> t <= t'.
Proof.
  revert t. induction g as [|s g IH]; simpl; intros t H; [lia|].
  destruct H as (Hs & Hlt & H). apply IH in H. lia.
Qed.

(** *** [findIndex] followed by [splice] *)

Lemma findIndex_first {A : Type} (f : A -> bool) l :
  (exists x, In x l /\ f x = true) ->
  exists l1 q l2,
    l = l1 ++ q :: l2 /\ f q = true /\ Forall (fun y => f y = false) l1
    /\ findIndex f l = Z.of_nat (length l1).
Proof.
  induction l as [|x l IH]; intros (y & Hy & Hfy); [destruct Hy|].
  simpl findIndex. destruct (f x) eqn:Hfx.
  - exists [], x, l. auto.
  - destruct IH as (l1 & q & l2 & -> & Hq & Hl1 & Hidx).
    { destruct Hy as [->|Hy]; [congruence|eauto]. }
    exists (x :: l1), q, l2. rewrite Hidx.
    repeat split; auto.
    destruct (Z.ltb_spec (Z.of_nat (length l1)) 0); [lia|].
    simpl length. lia.
Qed.

Lemma splice1_middle {A : Type} (l1 : list A) q l2 :
  splice1 (Z.of_nat (length l1)) (l1 ++ q :: l2) = l1 ++ l2.
Proof.
  unfold splice1.
  destruct (Z.ltb_spec (Z.of_nat (length l1)) 0); [lia|].
  rewrite length_app. simpl length.
  rewrite Z.min_l by lia. rewrite Nat2Z.id. apply delete_middle.
Qed.

(* ================================================================== *)
(** ** The non-preemptive loop *)
(* ================================================================== *)


(** The idle turn. *)
Lemma np_body_idle cmp g R t :
  arrived t R = [] ->
  np_body cmp (mkNp g R t) =
    mkNp (g ++ [mkSegment None t (math_min (List.map arrivalTime R))])
         R (math_min (List.map arrivalTime R)).
Proof.
  unfold arrived. intros H. unfold np_body. simpl. rewrite H. reflexivity.
Qed.

(** The turn that runs a process: the process [sel] sorted first among the
    arrived ones runs, and the first process of [remaining] that bears its
    identifier leaves. *)
Lemma np_body_run cmp g R t :
  arrived t R <> [] ->
  exists sel R1 q R2,
    In sel (arrived t R) /\ head (js_sort cmp (arrived t R)) = Some sel
    /\ R = R1 ++ q :: R2 /\ pid q = pid sel
    /\ np_body cmp (mkNp g R t) =
         mkNp (g ++ [mkSegment (Some (pid sel)) t (t + burstTime sel)])
              (R1 ++ R2) (t + burstTime sel).
Proof.
  unfold arrived. intros Hne. unfold np_body. simpl.
  destruct (List.filter (fun p => arrivalTime p <=? t) R) as [|a A] eqn:Hav;
    [congruence|].
  rewrite <- Hav. replace (length (List.filter _ R) =? 0)%nat with false
    by (rewrite Hav; reflexivity).
  destruct (js_sort cmp (List.filter (fun p => arrivalTime p <=? t) R))
    as [|sel S] eqn:HS.
  { apply js_sort_nil_inv in HS. congruence. }
  assert (Hsel : In sel (List.filter (fun p => arrivalTime p <=? t) R)).
  { rewrite <- (js_sort_In cmp), HS. left. reflexivity. }
  destruct (findIndex_first
              (fun p => bool_decide (pid p = pid sel)) R)
    as (R1 & q & R2 & HR & Hq & _ & Hidx).
  { exists sel. apply filter_In in Hsel. destruct Hsel. split; [assumption|].
    apply bool_decide_eq_true_2. reflexivity. }
  assert (Hsp : splice1
                  (findIndex (fun p => bool_decide (pid p = pid sel)) R) R
                = R1 ++ R2)
    by (rewrite Hidx, HR; apply splice1_middle).
  exists sel, R1, q, R2. apply bool_decide_eq_true_1 in Hq.
  rewrite Hsp. repeat split; auto.
Qed.

Lemma arrived_In t R p : In p (arrived t R) <-> In p R /\ arrivalTime p <= t.
Proof. unfold arrived. rewrite filter_In, Z.leb_le. reflexivity. Qed.



Lemma np_cond_true st : np_cond st = true -> np_remaining st <> [].
Proof.
  unfold np_cond. destruct (np_remaining st); [discriminate|congruence].
Qed.



(** *** The loop makes progress *)




(** *** Every process gets its burst time *)


Lemma NoDup_pid_inj (R : list Process) a b :
  NoDup (List.map pid R) -> In a R -> In b R -> pid a = pid b -> a = b.
Proof.
  induction R as [|x R IH]; simpl; [tauto|].
  intros Hnd Ha Hb Hab. apply NoDup_cons in Hnd as [Hx Hnd].
  rewrite list_elem_of_In in Hx.
  destruct Ha as [->|Ha], Hb as [->|Hb]; auto.
  - exfalso. apply Hx. rewrite Hab. apply in_map. assumption.
  - exfalso. apply Hx. rewrite <- Hab. apply in_map. assumption.
Qed.

Lemma np_work_step cmp p c st :
  np_work_inv p c st -> np_cond st = true -> np_work_inv p c (np_body cmp st).
Proof.
  destruct st as [g R t]. intros [Hnd Hw] Hcond. apply np_cond_true in Hcond.
  simpl in *. destruct (arrived t R) eqn:Hav.
  - rewrite np_body_idle by assumption. split; simpl; [assumption|].
    rewrite service_time_app, service_time_idle. lia.
  - destruct (np_body_run cmp g R t)
      as (sel & R1 & q & R2 & Hsel & _ & HRq & Hpid & ->); [congruence|].
    apply arrived_In in Hsel. destruct Hsel as [Hsel _].
    assert (q = sel) as ->.
    { apply (NoDup_pid_inj R); auto. subst R. apply in_app_iff. simpl. auto. }
    subst R. split; simpl.
    + rewrite List.map_app in *. simpl in Hnd.
      apply NoDup_app in Hnd as (H1 & H12 & H2).
      apply NoDup_cons in H2 as [_ H2]. apply NoDup_app. repeat split; auto.
      intros x Hx Hx2. apply (H12 x Hx). right. assumption.
    + rewrite service_time_app, service_time_run.
      rewrite demand_app, demand_cons in Hw. rewrite demand_app.
      destruct (decide (pid sel = p)); lia.
Qed.

(* ================================================================== *)
(** ** First come first served *)
(* ================================================================== *)





(* ================================================================== *)
(** ** Round robin *)
(* ================================================================== *)

Lemma enqueue_loop_spec n allProcesses upToTime : forall q i,
  (length allProcesses - i <= n)%nat -> (i <= length allProcesses)%nat ->
  exists k,
    enqueue_loop n allProcesses upToTime q i = (q ++ seq i k, (i + k)%nat)
    /\ (i + k <= length allProcesses)%nat
    /\ (forall j p, (i <= j < i + k)%nat -> allProcesses !! j = Some p ->
                    arrivalTime (rr_proc p) <= upToTime)
    /\ (forall p, allProcesses !! (i + k)%nat = Some p ->
                  upToTime < arrivalTime (rr_proc p)).
Proof.
  induction n as [|n IH]; intros q i Hn Hi.
  - exists O. simpl. rewrite app_nil_r, Nat.add_0_r.
    repeat split; [lia|intros; lia|].
    intros p Hp. apply lookup_lt_Some in Hp. lia.
  - simpl. destruct (allProcesses !! i) as [p|] eqn:Hp.
    + destruct (Z.leb_spec (arrivalTime (rr_proc p)) upToTime) as [Hle|Hgt].
      * pose proof (lookup_lt_Some _ _ _ Hp) as Hlt.
        destruct (IH (q ++ [i]) (Datatypes.S i))
          as (k & Hrun & Hk & Hin & Hout); [lia|lia|].
        exists (Datatypes.S k). rewrite Hrun, <- app_assoc. simpl.
        replace (i + Datatypes.S k)%nat with (Datatypes.S i + k)%nat by lia.
        repeat split; [lia| |assumption].
        intros j p' Hj Hp'. destruct (decide (j = i)) as [->|Hne].
        -- congruence.
        -- apply (Hin j); [lia|assumption].
      * exists O. simpl. rewrite app_nil_r, Nat.add_0_r.
        repeat split; [lia|intros; lia|]. intros p' Hp'. congruence.
    + exists O. simpl. rewrite app_nil_r, Nat.add_0_r.
      repeat split; [lia|intros; lia|]. intros p' Hp'. congruence.
Qed.

Lemma enqueueArrivals_spec upToTime g allProcesses q t i :
  (i <= length allProcesses)%nat ->
  exists k,
    enqueueArrivals upToTime (mkRRState g allProcesses q t i)
    = mkRRState g allProcesses (q ++ seq i k) t (i + k)%nat
    /\ (i + k <= length allProcesses)%nat
    /\ (forall j p, (i <= j < i + k)%nat -> allProcesses !! j = Some p ->
                    arrivalTime (rr_proc p) <= upToTime)
    /\ (forall p, allProcesses !! (i + k)%nat = Some p ->
                  upToTime < arrivalTime (rr_proc p)).
Proof.
  intros Hi.
  destruct (enqueue_loop_spec (length allProcesses - i) allProcesses
              upToTime q i) as (k & Hrun & Hrest); [lia|lia|].
  exists k. unfold enqueueArrivals. simpl. rewrite Hrun. auto.
Qed.

(** *** Sums over references *)


Lemma rr_weight_cons f a i L :
  rr_weight f a (i :: L)
  = (match a !! i with Some p => f p | None => 0 end) + rr_weight f a L.
Proof. reflexivity. Qed.




Lemma rr_weight_le f f' a L :
  Forall (fun i => exists p, a !! i = Some p /\ f p <= f' p) L ->
  rr_weight f a L <= rr_weight f' a L.
Proof.
  induction 1 as [|i L (p & Hp & Hf) _ IH]; [unfold rr_weight; simpl; lia|].
  rewrite !rr_weight_cons, Hp. lia.
Qed.


(** *** The two kinds of turn of the main loop *)

(** With an empty queue: an idle segment up to the arrival of the next
    process, which is enqueued with all those that have arrived by then. *)
Lemma rr_body_idle quantum g a t i :
  (i < length a)%nat ->
  exists next k,
    a !! i = Some next /\ (1 <= k)%nat /\ (i + k <= length a)%nat
    /\ rr_currentTime (rr_body quantum (mkRRState g a [] t i))
       = arrivalTime (rr_proc next)
    /\ rr_body quantum (mkRRState g a [] t i)
       = mkRRState (g ++ [mkSegment None t (arrivalTime (rr_proc next))])
                   a (seq i k) (arrivalTime (rr_proc next)) (i + k)%nat
    /\ (forall j p, (i <= j < i + k)%nat -> a !! j = Some p ->
                    arrivalTime (rr_proc p) <= arrivalTime (rr_proc next))
    /\ (forall p, a !! (i + k)%nat = Some p ->
                  arrivalTime (rr_proc next) < arrivalTime (rr_proc p)).
Proof.
  intros Hi. destruct (lookup_lt_is_Some_2 a i Hi) as [next Hnext].
  destruct (enqueueArrivals_spec (arrivalTime (rr_proc next))
              (g ++ [mkSegment None t (arrivalTime (rr_proc next))])
              a [] (arrivalTime (rr_proc next)) i)
    as (k & Hrun & Hk & Hin & Hout); [lia|].
  exists next, k. unfold rr_body. simpl. rewrite Hnext, Hrun. simpl.
  repeat split; auto.
  destruct k; [|lia]. rewrite Nat.add_0_r in Hout.
  specialize (Hout next Hnext). lia.
Qed.

(** With [current] at the head of the queue: a slice for it, then the
    arrivals up to the end of the slice join the queue, then [current]
    if it has burst time left. *)
Lemma rr_body_run quantum g a current rest t i cur :
  a !! current = Some cur -> (i <= length a)%nat ->
  let execTime := Z.min quantum (remainingBurst cur) in
  let a' :=
    <[current := mkRR (rr_proc cur) (remainingBurst cur - execTime)]> a in
  exists k,
    (i + k <= length a)%nat
    /\ rr_body quantum (mkRRState g a (current :: rest) t i)
       = mkRRState
           (g ++ [mkSegment (Some (pid (rr_proc cur))) t (t + execTime)])
           a'
           (rest ++ seq i k ++
              (if 0 <? remainingBurst cur - execTime then [current] else []))
           (t + execTime) (i + k)%nat
    /\ (forall j p, (i <= j < i + k)%nat -> a' !! j = Some p ->
                    arrivalTime (rr_proc p) <= t + execTime)
    /\ (forall p, a' !! (i + k)%nat = Some p ->
                  t + execTime < arrivalTime (rr_proc p)).
Proof.
  intros Hcur Hi execTime a'.
  destruct (enqueueArrivals_spec (t + execTime)
              (g ++ [mkSegment (Some (pid (rr_proc cur))) t (t + execTime)])
              a' rest (t + execTime) i)
    as (k & Hrun & Hk & Hin & Hout).
  { unfold a'. rewrite length_insert. assumption. }
  exists k. unfold a' in Hk. rewrite length_insert in Hk.
  split; [assumption|]. split; [|auto].
  unfold rr_body. simpl. rewrite Hcur. simpl.
  fold execTime. fold a'. rewrite Hrun. simpl.
  destruct (0 <? remainingBurst cur - execTime).
  - rewrite <- app_assoc. reflexivity.
  - rewrite app_nil_r. reflexivity.
Qed.

Lemma rr_cond_true st :
  rr_cond st = true ->
  rr_readyQueue st <> []
  \/ (rr_processIndex st < length (rr_allProcesses st))%nat.
Proof.
  unfold rr_cond. intros H. apply orb_true_iff in H. destruct H as [H|H].
  - left. destruct (rr_readyQueue st); [discriminate|congruence].
  - right. apply Nat.ltb_lt. assumption.
Qed.

Lemma rr_cond_false st :
  rr_cond st = false ->
  rr_readyQueue st = []
  /\ (length (rr_allProcesses st) <= rr_processIndex st)%nat.
Proof.
  unfold rr_cond. intros H. apply orb_false_iff in H. destruct H as [H1 H2].
  split.
  - destruct (rr_readyQueue st); [reflexivity|discriminate].
  - apply Nat.ltb_ge. assumption.
Qed.

Lemma seq_split0 k n : (k <= n)%nat -> seq 0 k ++ seq k (n - k) = seq 0 n.
Proof. intros H. rewrite <- seq_app. f_equal. lia. Qed.

Lemma seq_split i k n :
  (i + k <= n)%nat -> seq i (n - i) = seq i k ++ seq (i + k) (n - (i + k)).
Proof.
  intros H. rewrite <- seq_app. f_equal. lia.
Qed.

(** *** The invariant of the main loop *)

Lemma rr_queue_NoDup rest i k c (pushed : bool) :
  NoDup (c :: rest) -> Forall (fun j => (j < i)%nat) (c :: rest) ->
  NoDup (rest ++ seq i k ++ (if pushed then [c] else [])).
Proof.
  intros Hnd Hlt. apply NoDup_cons in Hnd as [Hc Hnd].
  apply Forall_cons in Hlt as [Hci Hlt]. rewrite Forall_forall in Hlt.
  apply NoDup_app. split; [assumption|]. split.
  - intros x Hx Hx'. specialize (Hlt x Hx).
    apply elem_of_app in Hx' as [Hx'|Hx'].
    + apply elem_of_seq in Hx'. lia.
    + destruct pushed; [|inversion Hx'].
      apply list_elem_of_singleton in Hx'. subst. contradiction.
  - apply NoDup_app. split; [apply NoDup_seq|]. split.
    + intros x Hx Hx'. apply elem_of_seq in Hx.
      destruct pushed; [|inversion Hx'].
      apply list_elem_of_singleton in Hx'. subst. lia.
    + destruct pushed; [apply NoDup_singleton|apply NoDup_nil_2].
Qed.

Lemma rr_inv_step quantum st :
  1 <= quantum -> rr_inv st -> rr_cond st = true ->
  rr_inv (rr_body quantum st).
Proof.
  destruct st as [g a qu t i].
  intros Hq (Hnd & Hlt & Hi & Hpos & Hch & Hnext) Hcond.
  unfold rr_pending in Hpos. simpl in *.
  destruct qu as [|c rest].
  - (* idle turn *)
    apply rr_cond_true in Hcond. simpl in Hcond.
    destruct Hcond as [Hcond|Hcond]; [congruence|].
    destruct (rr_body_idle quantum g a t i Hcond)
      as (next & k & Hn & Hk1 & Hk & _ & -> & Hin & Hout).
    unfold rr_inv, rr_pending. simpl. repeat split.
    + apply NoDup_seq.
    + apply Forall_forall. intros x Hx. apply elem_of_seq in Hx. lia.
    + assumption.
    + rewrite <- seq_split by assumption. assumption.
    + apply chain_snoc; auto.
    + assumption.
  - (* a slice for [c] *)
    pose proof Hpos as Hpos'.
    apply Forall_cons in Hpos' as [(cur & Hcur & Hrem) _].
    destruct (rr_body_run quantum g a c rest t i cur Hcur Hi)
      as (k & Hk & -> & Hin & Hout).
    pose proof Hlt as Hlt'. apply Forall_cons in Hlt' as [Hci Hrest].
    pose proof Hnd as Hnd'. apply NoDup_cons in Hnd' as [Hc _].
    rewrite Forall_forall in Hrest.
    set (execTime := Z.min quantum (remainingBurst cur)) in *.
    unfold rr_inv, rr_pending. simpl. rewrite length_insert. repeat split.
    + apply rr_queue_NoDup; assumption.
    + apply Forall_forall. intros x Hx.
      apply elem_of_app in Hx as [Hx|Hx]; [specialize (Hrest x Hx); lia|].
      apply elem_of_app in Hx as [Hx|Hx]; [apply elem_of_seq in Hx; lia|].
      destruct (0 <? remainingBurst cur - execTime); [|inversion Hx].
      apply list_elem_of_singleton in Hx. subst. lia.
    + assumption.
    + rewrite Forall_forall in Hpos. apply Forall_forall. intros x Hx.
      destruct (decide (x = c)) as [->|Hne].
      * rewrite list_lookup_insert_eq by (eapply lookup_lt_Some; eauto).
        eexists. split; [reflexivity|]. simpl.
        rewrite !elem_of_app in Hx. destruct Hx as [[Hx|[Hx|Hx]]|Hx].
        -- contradiction.
        -- apply elem_of_seq in Hx. lia.
        -- destruct (Z.ltb_spec 0 (remainingBurst cur - execTime));
             [assumption|inversion Hx].
        -- apply elem_of_seq in Hx. lia.
      * rewrite list_lookup_insert_ne by congruence. apply Hpos.
        rewrite !elem_of_app in Hx. rewrite elem_of_app.
        destruct Hx as [[Hx|[Hx|Hx]]|Hx].
        -- left. right. assumption.
        -- right. apply elem_of_seq in Hx. apply elem_of_seq. lia.
        -- destruct (0 <? remainingBurst cur - execTime); [|inversion Hx].
           apply list_elem_of_singleton in Hx. contradiction.
        -- right. apply elem_of_seq in Hx. apply elem_of_seq. lia.
    + apply chain_snoc; [assumption|]. unfold execTime. lia.
    + assumption.
Qed.






(** *** The state in which the main loop is entered *)




Lemma rr_objects_perm processes :
  Permutation (rr_objects processes)
              (List.map (fun p => mkRR p (burstTime p)) processes).
Proof. apply js_sort_perm. Qed.

Lemma rr_init_shape processes :
  exists k,
    (k <= length (rr_objects processes))%nat
    /\ rr_init processes = mkRRState [] (rr_objects processes) (seq 0 k) 0 k
    /\ (forall p, rr_objects processes !! k = Some p ->
                  0 < arrivalTime (rr_proc p)).
Proof.
  destruct (enqueueArrivals_spec 0 [] (rr_objects processes) [] 0 0)
    as (k & Hrun & Hk & _ & Hout); [lia|].
  exists k. unfold rr_init. fold (rr_objects processes).
  rewrite Hrun. simpl. auto.
Qed.

Lemma rr_init_inv processes :
  Forall (fun p => 0 < burstTime p) processes -> rr_inv (rr_init processes).
Proof.
  intros Hb. destruct (rr_init_shape processes) as (k & Hk & -> & Hout).
  unfold rr_inv, rr_pending. simpl. repeat split.
  - apply NoDup_seq.
  - apply Forall_forall. intros j Hj. apply elem_of_seq in Hj. lia.
  - assumption.
  - rewrite seq_split0 by assumption.
    assert (Hall : Forall (fun p => 0 < remainingBurst p)
                          (rr_objects processes)).
    { eapply Permutation_Forall; [symmetry; apply rr_objects_perm|].
      apply List.Forall_forall. intros p Hp. apply in_map_iff in Hp.
      destruct Hp as (q & <- & Hq). simpl.
      rewrite List.Forall_forall in Hb. auto. }
    apply Forall_forall. intros j Hj. apply elem_of_seq in Hj.
    destruct (lookup_lt_is_Some_2 (rr_objects processes) j) as [p Hp]; [lia|].
    exists p. split; [assumption|].
    rewrite Forall_forall in Hall. apply Hall.
    eapply list_elem_of_lookup_2; eauto.
  - now apply Hout.
Qed.



(* ================================================================== *)
(** ** What each algorithm returns *)
(* ================================================================== *)




(** *** The switch on the policy token *)

Lemma str_FCFS_SJF : str "FCFS" <> str "SJF". Proof. discriminate. Qed.

Lemma dispatch_FCFS fuel procs quantum :
  dispatch fuel procs (str "FCFS") quantum
  = Returned (length procs, scheduleFCFS procs).
Proof. reflexivity. Qed.

Lemma dispatch_SJF fuel procs quantum :
  dispatch fuel procs (str "SJF") quantum
  = match scheduleSJF fuel procs with
    | Some kg => Returned kg
    | None => OutOfFuel
    end.
Proof. reflexivity. Qed.

Lemma dispatch_Priority fuel procs quantum :
  dispatch fuel procs (str "Priority") quantum
  = match schedulePriority fuel procs with
    | Some kg => Returned kg
    | None => OutOfFuel
    end.
Proof. reflexivity. Qed.

Lemma dispatch_RoundRobin fuel procs quantum :
  dispatch fuel procs (str "RoundRobin") quantum
  = match scheduleRoundRobin fuel procs quantum with
    | Some kg => Returned kg
    | None => OutOfFuel
    end.
Proof. reflexivity. Qed.

Lemma dispatch_unknown fuel procs algorithm quantum :
  ~ recognized algorithm ->
  dispatch fuel procs algorithm quantum
  = Threw (str "Unknown algorithm: " ++ algorithm).
Proof.
  intros H. unfold recognized in H. unfold dispatch.
  repeat (destruct (decide _) as [Heq|Hne]; [subst; tauto|clear Hne]).
  reflexivity.
Qed.



(* ================================================================== *)
(** ** What a chain of segments is *)
(* ================================================================== *)


Lemma chain_bounds t g t' s :
  chain t g t' -> In s g -> t <= seg_start s /\ seg_end s <= t'.
Proof.
  revert t. induction g as [|x g IH]; simpl; intros t Hc Hs; [tauto|].
  destruct Hc as (Hst & Hlt & Hc). pose proof (chain_le _ _ _ Hc).
  destruct Hs as [->|Hs]; [lia|].
  destruct (IH _ Hc Hs). lia.
Qed.

Lemma chain_adjacent t g t' i s s' :
  chain t g t' -> g !! i = Some s -> g !! Datatypes.S i = Some s' ->
  seg_end s = seg_start s'.
Proof.
  revert t i. induction g as [|x g IH]; intros t i Hc Hs Hs';
    [discriminate|].
  destruct Hc as (_ & _ & Hc). destruct i as [|i].
  - simpl in Hs. inversion Hs; subst. destruct g as [|y g]; [discriminate|].
    simpl in Hs'. inversion Hs'; subst. destruct Hc as (Hy & _). auto.
  - simpl in Hs, Hs'. eapply IH; eauto.
Qed.


Lemma chain_total_time t g t' : chain t g t' -> g <> [] -> total_time g = t'.
Proof.
  revert t. induction g as [|x g IH]; intros t Hc Hne; [congruence|].
  destruct Hc as (_ & _ & Hc). destruct g as [|y g].
  - simpl in Hc. unfold total_time. simpl. assumption.
  - unfold total_time in *. simpl last in *.
    eapply IH; [eassumption|discriminate].
Qed.



(* ================================================================== *)
(** ** The result of a simulation *)
(* ================================================================== *)

Lemma computeMetrics_ganttChart localeCompare processes g :
  ganttChart (computeMetrics localeCompare processes g) = g.
Proof.
  unfold computeMetrics. destruct (fold_left record_segment g (∅, ∅)).
  reflexivity.
Qed.



Lemma simulateSchedule_empty localeCompare fuel algorithm quantum :
  simulateSchedule localeCompare fuel [] algorithm quantum
  = Returned (mkResult [] [] (Some (Z2Qc 0)) (Some (Z2Qc 0))
                       (Some (Z2Qc 0)) (Z2Qc 0) 0).
Proof. reflexivity. Qed.

Lemma simulateSchedule_nonempty localeCompare fuel processes algorithm
    quantum :
  processes <> [] ->
  simulateSchedule localeCompare fuel processes algorithm quantum
  = match dispatch fuel processes algorithm (default 2 quantum) with
    | Returned (_, g) => Returned (computeMetrics localeCompare processes g)
    | Threw message => Threw message
    | OutOfFuel => OutOfFuel
    end.
Proof.
  intros Hne. unfold simulateSchedule. rewrite List.map_id.
  destruct processes; [congruence|]. reflexivity.
Qed.


(* ================================================================== *)
(** ** The loop of the source under the first-come-first-served order *)
(* ================================================================== *)

Lemma remove_first_middle R1 x R2 :
  ~ In x R1 -> remove_first x (R1 ++ x :: R2) = R1 ++ R2.
Proof.
  induction R1 as [|y R1 IH]; simpl; intros H.
  - destruct (decide (x = x)); [reflexivity|congruence].
  - destruct (decide (x = y)) as [->|Hne]; [tauto|].
    rewrite IH by tauto. reflexivity.
Qed.

(** With distinct identifiers, looking the selected process up by its
    identifier finds that very process: the body of the loop of the source
    is the step of the specification. *)
Lemma np_body_spec_step cmp st :
  NoDup (List.map pid (np_remaining st)) -> np_body cmp st = spec_step cmp st.
Proof.
  destruct st as [g R t]. simpl. intros Hnd.
  destruct (arrived t R) eqn:Hav.
  - rewrite np_body_idle by assumption. unfold spec_step. simpl.
    unfold arrived in Hav. rewrite Hav. reflexivity.
  - destruct (np_body_run cmp g R t)
      as (sel & R1 & q & R2 & Hsel & Hhead & HRq & Hpid & ->); [congruence|].
    apply arrived_In in Hsel. destruct Hsel as [Hsel _].
    assert (q = sel) as ->.
    { apply (NoDup_pid_inj R); auto. subst R. apply in_app_iff. simpl. auto. }
    unfold spec_step. simpl. unfold arrived in Hhead.
    destruct (js_sort cmp (List.filter (fun p => arrivalTime p <=? t) R))
      as [|sel' S]; [discriminate|].
    injection Hhead as ->. subst R. rewrite remove_first_middle; [reflexivity|].
    intros Hin. rewrite List.map_app in Hnd. simpl in Hnd.
    apply NoDup_app in Hnd as (_ & Hnd & _).
    apply (Hnd (pid sel)).
    + apply list_elem_of_In, in_map. assumption.
    + left.
Qed.

Lemma while_ext_inv {S : Type} (I : S -> Prop) cond (body body' : S -> S) :
  (forall s, I s -> cond s = true -> I (body s)) ->
  (forall s, I s -> body s = body' s) ->
  forall fuel s, I s -> while cond body fuel s = while cond body' fuel s.
Proof.
  intros Hinv Hext fuel. induction fuel as [|fuel IH]; intros s Hs; simpl.
  - reflexivity.
  - destruct (cond s) eqn:Hc; [|reflexivity].
    rewrite <- (Hext s Hs), (IH (body s)) by auto. reflexivity.
Qed.

(** The loop that shortest job first and priority scheduling share, run
    with the first-come-first-served order on descriptors with distinct
    identifiers, also returns the timeline of [scheduleFCFS]. *)
Lemma source_loop_fcfs processes fuel :
  NoDup (List.map pid processes) ->
  (2 * length processes <= fuel)%nat ->
  exists k, np_schedule fcfs_compare fuel processes
            = Some (k, scheduleFCFS processes).
Proof.
  intros Hnd Hfuel.
  destruct (spec_machine_fcfs_loop (length processes) processes [] 0 fuel
              eq_refl Hfuel) as (k & st' & Hrun & Hg).
  exists k. unfold np_schedule, scheduleFCFS.
  rewrite (while_ext_inv (fun st => NoDup (List.map pid (np_remaining st)))
             np_cond (np_body fcfs_compare) (spec_step fcfs_compare)).
  - rewrite Hrun, Hg. reflexivity.
  - intros s Hs Hc.
    apply (np_work_step fcfs_compare [] (service_time [] (np_gantt s)
                                         + demand [] (np_remaining s)) s);
      [split; [assumption|reflexivity]|assumption].
  - intros s Hs. apply np_body_spec_step. assumption.
  - assumption.
Qed.

(** With a repeated identifier the loop of the source removes the first
    descriptor that bears the identifier of the selected one, and its
    timeline is no longer that of [scheduleFCFS]. *)
Example source_loop_same_identifier :
  np_schedule fcfs_compare 4 same_identifier
  = Some (2%nat, [ mkSegment (Some (str "A")) 0 3;
                   mkSegment (Some (str "A")) 3 6 ])
  /\ scheduleFCFS same_identifier
     = [ mkSegment (Some (str "A")) 0 3; mkSegment (Some (str "A")) 3 8 ]
  /\ spec_machine fcfs_compare 4 same_identifier
     = Some (2%nat, scheduleFCFS same_identifier).
Proof. repeat split. Qed.

(* ================================================================== *)
(** ** Idle segments stop at an arrival *)
(* ================================================================== *)








(* ================================================================== *)
(** ** The properties of the engine *)
(* ================================================================== *)










(** C4 as stated fails on the empty list: the test for an empty input comes
    before the switch on the policy, so an unknown token then yields the
    empty result and no error. *)
Lemma unknown_policy_empty_input_returns :
  ~ (forall (localeCompare : jsstring -> jsstring -> Z) fuel processes
            algorithm quantum,
        ~ recognized algorithm ->
        exists message,
          simulateSchedule localeCompare fuel processes algorithm quantum
          = Threw message).
Proof.
  intros H.
  destruct (H ordinal_compare O [] (str "LIFO") None) as [message Hm].
  - unfold recognized. intros [E | [E | [E | E]]]; discriminate E.
  - discriminate Hm.
Qed.

(** C4, amended.  For every non-empty list of processes, whatever the
    quantum and however long the loops are allowed to run, a policy token
    that is not one of the four recognized values makes [simulateSchedule]
    throw, naming the token: no timeline and no result is produced.  For
    the empty list the empty result is returned whatever the token. *)
Theorem unknown_policy_throws (localeCompare : jsstring -> jsstring -> Z)
    (fuel : nat) (processes : list Process) (algorithm : jsstring)
    (quantum : option Z) :
  ~ recognized algorithm ->
  (processes <> [] ->
   simulateSchedule localeCompare fuel processes algorithm quantum
   = Threw (str "Unknown algorithm: " ++ algorithm))
  /\ (processes = [] ->
      simulateSchedule localeCompare fuel processes algorithm quantum
      = Returned empty_result).
Proof.
  intros Halg. split.
  - intros Hne. rewrite simulateSchedule_nonempty by assumption.
    rewrite dispatch_unknown by assumption. reflexivity.
  - intros ->. reflexivity.
Qed.

Lemma unknown_policy_throws_witness :
  (two_processes <> [] ->
   simulateSchedule ordinal_compare 0 two_processes (str "LIFO") None
   = Threw (str "Unknown algorithm: " ++ str "LIFO"))
  /\ (two_processes = [] ->
      simulateSchedule ordinal_compare 0 two_processes (str "LIFO") None
      = Returned empty_result).
Proof.
  apply (unknown_policy_throws ordinal_compare 0 two_processes (str "LIFO")
           None).
  unfold recognized. intros [E | [E | [E | E]]]; discriminate E.
Defined.

(* ================================================================== *)
(** ** Processor utilization *)
(* ================================================================== *)





(* ================================================================== *)
(** ** Validation *)
(* ================================================================== *)

Lemma num_lt_spec x y : num_lt x y = true <-> (x < y)%Qc.
Proof.
  unfold num_lt, Qclt, Qccompare. rewrite Qlt_alt.
  destruct (this x ?= this y)%Q; split; congruence.
Qed.

Lemma num_le_spec x y : num_le x y = true <-> (x <= y)%Qc.
Proof.
  unfold num_le, Qcle, Qccompare. rewrite Qle_alt.
  destruct (this x ?= this y)%Q; split; congruence.
Qed.

Lemma trim_nil : trim [] = [].
Proof. reflexivity. Qed.






(** C10.  [validateProcess] does not ask the numbers to be integers: the
    descriptor with identifier P1, arrival time 1.5, burst time 0.5 and
    priority 2.5 is valid and gets no error, although none of the three
    numbers is an integer. *)
Theorem fractional_numbers_are_accepted :
  validateProcess fractional = mkValidation true []
  /\ (forall z, pp_arrivalTime fractional <> Some (Z2Qc z))
  /\ (forall z, pp_burstTime fractional <> Some (Z2Qc z))
  /\ (forall z, pp_priority fractional <> Some (Z2Qc z))
  /\ exists s, pp_pid fractional = Some s /\ trim s <> [].
Proof.
  assert (Hfrac : forall n z, Q2Qc (n # 2) = Z2Qc z -> (n = 2 * z)%Z).
  { intros n z H. apply (f_equal this) in H. unfold Z2Qc in H. simpl in H.
    assert (Heq : (n # 2 == inject_Z z)%Q).
    { rewrite <- (Qred_correct (n # 2)), H. apply Qred_correct. }
    unfold Qeq, inject_Z in Heq. simpl in Heq. lia. }
  split; [vm_compute; reflexivity|].
  split; [|split; [|split]].
  - intros z H. apply (inj Some), Hfrac in H. lia.
  - intros z H. apply (inj Some), Hfrac in H. lia.
  - intros z H. apply (inj Some), Hfrac in H. lia.
  - eexists. split; [reflexivity|]. vm_compute. discriminate.
Qed.

(* ================================================================== *)
(** ** Order of the round robin queue *)
(* ================================================================== *)

Lemma fcfs_compare_antisym a b : fcfs_compare b a = - fcfs_compare a b.
Proof.
  unfold fcfs_compare.
  destruct (Z.eqb_spec (arrivalTime a) (arrivalTime b)) as [E|E];
    destruct (Z.eqb_spec (arrivalTime b) (arrivalTime a)); simpl;
    try lia; congruence.
Qed.

Lemma fcfs_compare_trans a b c :
  fcfs_compare a b <= 0 -> fcfs_compare b c <= 0 -> fcfs_compare a c <= 0.
Proof.
  unfold fcfs_compare.
  destruct (Z.eqb_spec (arrivalTime a) (arrivalTime b));
    destruct (Z.eqb_spec (arrivalTime b) (arrivalTime c));
    destruct (Z.eqb_spec (arrivalTime a) (arrivalTime c)); simpl; lia.
Qed.

(** A sort by a total and transitive comparison is ascending. *)
Lemma sort_insert_sorted {A : Type} (cmp : A -> A -> Z) x l :
  (forall a b, 0 < cmp a b -> cmp b a <= 0) ->
  (forall a b c, cmp a b <= 0 -> cmp b c <= 0 -> cmp a c <= 0) ->
  Sorted.StronglySorted (fun a b => cmp a b <= 0) l ->
  Sorted.StronglySorted (fun a b => cmp a b <= 0) (sort_insert cmp x l).
Proof.
  intros Htot Htrans. induction 1 as [|y l Hl IH Hy]; simpl.
  - constructor; constructor.
  - destruct (Z.leb_spec (cmp x y) 0) as [Hle|Hgt].
    + constructor; [constructor; assumption|].
      constructor; [assumption|].
      eapply List.Forall_impl; [|exact Hy]. intros z Hz. eauto.
    + constructor; [assumption|].
      eapply Permutation_Forall; [symmetry; apply sort_insert_perm|].
      constructor; [auto|assumption].
Qed.

Lemma js_sort_sorted {A : Type} (cmp : A -> A -> Z) l :
  (forall a b, 0 < cmp a b -> cmp b a <= 0) ->
  (forall a b c, cmp a b <= 0 -> cmp b c <= 0 -> cmp a c <= 0) ->
  Sorted.StronglySorted (fun a b => cmp a b <= 0) (js_sort cmp l).
Proof.
  intros Htot Htrans. induction l as [|x l IH]; simpl.
  - constructor.
  - apply sort_insert_sorted; assumption.
Qed.

Lemma StronglySorted_lookup {A : Type} (R : A -> A -> Prop) l :
  Sorted.StronglySorted R l ->
  forall i j x y, (i < j)%nat -> l !! i = Some x -> l !! j = Some y -> R x y.
Proof.
  induction 1 as [|a l Hl IH Ha]; intros i j x y Hij Hi Hj; [discriminate|].
  destruct j as [|j]; [lia|]. simpl in Hj. destruct i as [|i].
  - simpl in Hi. injection Hi as <-. rewrite List.Forall_forall in Ha.
    apply Ha. apply list_elem_of_In. eapply list_elem_of_lookup_2; eauto.
  - simpl in Hi. apply (IH i j); [lia|assumption|assumption].
Qed.

(** The sorted copy is in arrival order, then insertion order. *)
Lemma rr_objects_sorted processes i j o o' :
  (i <= j)%nat ->
  (rr_proc <$> rr_objects processes) !! i = Some o ->
  (rr_proc <$> rr_objects processes) !! j = Some o' ->
  fcfs_compare o o' <= 0.
Proof.
  intros Hij Hi Hj.
  destruct (decide (i = j)) as [->|Hne].
  { rewrite Hi in Hj. injection Hj as <-. rewrite fcfs_compare_refl. lia. }
  rewrite list_lookup_fmap in Hi, Hj.
  destruct (rr_objects processes !! i) as [p|] eqn:Hp; [|discriminate].
  destruct (rr_objects processes !! j) as [p'|] eqn:Hp'; [|discriminate].
  injection Hi as <-. injection Hj as <-.
  apply (StronglySorted_lookup
           (fun a b => fcfs_compare (rr_proc a) (rr_proc b) <= 0)
           (rr_objects processes)) with (i := i) (j := j);
    [|lia|assumption|assumption].
  apply (js_sort_sorted (fun a b => fcfs_compare (rr_proc a) (rr_proc b))).
  - intros a b H. rewrite fcfs_compare_antisym. lia.
  - intros a b c. apply fcfs_compare_trans.
Qed.

Lemma rr_store_init processes : rr_store_inv processes (rr_init processes).
Proof.
  destruct (rr_init_shape processes) as (k & Hk & -> & _).
  unfold rr_store_inv. simpl. split; [assumption|]. split; [|reflexivity].
  apply Forall_forall. intros j Hj. apply elem_of_seq in Hj. lia.
Qed.

Lemma rr_store_step processes quantum st :
  rr_store_inv processes st -> rr_store_inv processes (rr_body quantum st).
Proof.
  destruct st as [g a qu t i]. intros (Hi & Hqu & Ha). simpl in *.
  destruct qu as [|c rest].
  - destruct (decide (i < length a)%nat) as [Hlt|Hge].
    + destruct (rr_body_idle quantum g a t i Hlt)
        as (next & k & Hn & Hk1 & Hk & _ & -> & _ & _).
      unfold rr_store_inv. simpl. split; [assumption|]. split; [|assumption].
      apply Forall_forall. intros j Hj. apply elem_of_seq in Hj. lia.
    + unfold rr_body. simpl. rewrite lookup_ge_None_2 by lia.
      unfold rr_store_inv. simpl. auto.
  - apply Forall_cons in Hqu as [Hc Hrest].
    destruct (lookup_lt_is_Some_2 a c) as [cur Hcur]; [lia|].
    destruct (rr_body_run quantum g a c rest t i cur Hcur Hi)
      as (k & Hk & -> & _ & _).
    unfold rr_store_inv. simpl. rewrite length_insert.
    split; [assumption|]. split.
    + rewrite !Forall_app. split; [|split].
      * eapply Forall_impl; [exact Hrest|]. simpl. intros; lia.
      * apply Forall_forall. intros j Hj. apply elem_of_seq in Hj. lia.
      * destruct (0 <? _); [|constructor]. repeat constructor. lia.
    + rewrite list_fmap_insert. simpl. rewrite <- Ha.
      apply list_insert_id. rewrite list_lookup_fmap, Hcur. reflexivity.
Qed.

Lemma rr_store_reachable processes quantum n :
  rr_store_inv processes (Nat.iter n (rr_body quantum) (rr_init processes)).
Proof.
  induction n as [|n IH]; simpl.
  - apply rr_store_init.
  - apply rr_store_step. assumption.
Qed.

(** C3.  In round robin, in any state that the main loop reaches with a
    process [c] at the head of the queue, the turn of the loop runs a slice
    for [c] and then appends to the rest of the queue, in the order of the
    array sorted on arrival time then insertion order, the references to
    exactly those not yet enqueued processes whose arrival time is at most
    the end of the slice, and only after them the reference to [c], if [c]
    has burst time left.  Hence a process that arrives at the very instant
    at which [c] is preempted stands ahead of [c] in the queue. *)
Theorem arrivals_join_before_preempted (processes : list Process)
    (quantum : Z) (n : nat) (c : nat) (rest : list nat) :
  let st := Nat.iter n (rr_body quantum) (rr_init processes) in
  rr_readyQueue st = c :: rest ->
  exists cur k,
    rr_allProcesses st !! c = Some cur
    /\ let execTime := Z.min quantum (remainingBurst cur) in
       let sliceEnd := rr_currentTime st + execTime in
       let st' := rr_body quantum st in
       last (rr_gantt st')
       = Some (mkSegment (Some (pid (rr_proc cur))) (rr_currentTime st)
                         sliceEnd)
       /\ rr_currentTime st' = sliceEnd
       /\ rr_processIndex st' = (rr_processIndex st + k)%nat
       /\ rr_readyQueue st'
          = rest ++ seq (rr_processIndex st) k
                 ++ (if 0 <? remainingBurst cur - execTime then [c] else [])
       /\ (forall j p,
             (rr_processIndex st <= j)%nat ->
             rr_allProcesses st !! j = Some p ->
             ((j < rr_processIndex st + k)%nat
              <-> arrivalTime (rr_proc p) <= sliceEnd))
       /\ (forall i j p p',
             (i <= j)%nat ->
             rr_allProcesses st !! i = Some p ->
             rr_allProcesses st !! j = Some p' ->
             fcfs_compare (rr_proc p) (rr_proc p') <= 0)
       /\ (forall j p,
             (rr_processIndex st <= j)%nat ->
             rr_allProcesses st !! j = Some p ->
             arrivalTime (rr_proc p) = sliceEnd ->
             0 < remainingBurst cur - execTime ->
             exists q1 q2, rr_readyQueue st' = q1 ++ j :: q2 ++ [c]).
Proof.
  intros st Hqueue.
  pose proof (rr_store_reachable processes quantum n) as Hinv.
  fold st in Hinv. destruct Hinv as (Hi & Hqu & Hobj).
  assert (Hsorted : forall i j p p',
             (i <= j)%nat ->
             rr_allProcesses st !! i = Some p ->
             rr_allProcesses st !! j = Some p' ->
             fcfs_compare (rr_proc p) (rr_proc p') <= 0).
  { intros i j p p' Hij Hp Hp'.
    apply (rr_objects_sorted processes i j); [assumption| |];
      rewrite <- Hobj, list_lookup_fmap; [rewrite Hp|rewrite Hp'];
      reflexivity. }
  clearbody st. destruct st as [g a qu t i]. simpl in *. subst qu.
  apply Forall_cons in Hqu as [Hc Hrest].
  destruct (lookup_lt_is_Some_2 a c) as [cur Hcur]; [lia|].
  destruct (rr_body_run quantum g a c rest t i cur Hcur Hi)
    as (k & Hk & Hbody & Hin & Hout).
  exists cur, k. split; [assumption|]. cbv zeta. rewrite Hbody. simpl.
  set (execTime := Z.min quantum (remainingBurst cur)) in *.
  assert (Hexact : forall j p,
             (i <= j)%nat -> a !! j = Some p ->
             ((j < i + k)%nat <-> arrivalTime (rr_proc p) <= t + execTime)).
  { intros j p Hj Hp. split.
    - intros Hlt. apply (Hin j); [lia|].
      rewrite list_lookup_insert_ne by lia. assumption.
    - intros Harr. destruct (decide (j < i + k)%nat) as [|Hge]; [assumption|].
      exfalso.
      destruct (lookup_lt_is_Some_2 a (i + k)) as [p' Hp'].
      { apply lookup_lt_Some in Hp. lia. }
      assert (t + execTime < arrivalTime (rr_proc p')).
      { apply Hout. rewrite list_lookup_insert_ne by lia. assumption. }
      assert (fcfs_compare (rr_proc p') (rr_proc p) <= 0)
        by (apply (Hsorted (i + k)%nat j); [lia|assumption|assumption]).
      apply fcfs_compare_le in H0. lia. }
  split; [apply last_snoc|]. split; [reflexivity|]. split; [reflexivity|].
  split; [reflexivity|]. split; [exact Hexact|]. split; [exact Hsorted|].
  intros j p Hj Hp Harr Hleft.
  assert (Hjk : (j < i + k)%nat) by (apply (Hexact j p); [assumption..|lia]).
  destruct (Z.ltb_spec 0 (remainingBurst cur - execTime)); [|lia].
  exists (rest ++ seq i (j - i)), (seq (Datatypes.S j) (i + k - Datatypes.S j)).
  rewrite <- !app_assoc. f_equal.
  replace k with ((j - i) + Datatypes.S (i + k - Datatypes.S j))%nat at 1
    by lia.
  rewrite seq_app, <- app_assoc. simpl.
  replace (i + (j - i))%nat with j by lia. reflexivity.
Qed.

Lemma arrivals_join_before_preempted_witness :
  let st := Nat.iter 0 (rr_body 2) (rr_init arrival_at_preemption) in
  exists cur k,
    rr_allProcesses st !! O = Some cur
    /\ let execTime := Z.min 2 (remainingBurst cur) in
       let sliceEnd := rr_currentTime st + execTime in
       let st' := rr_body 2 st in
       last (rr_gantt st')
       = Some (mkSegment (Some (pid (rr_proc cur))) (rr_currentTime st)
                         sliceEnd)
       /\ rr_currentTime st' = sliceEnd
       /\ rr_processIndex st' = (rr_processIndex st + k)%nat
       /\ rr_readyQueue st'
          = [] ++ seq (rr_processIndex st) k
               ++ (if 0 <? remainingBurst cur - execTime then [O] else [])
       /\ (forall j p,
             (rr_processIndex st <= j)%nat ->
             rr_allProcesses st !! j = Some p ->
             ((j < rr_processIndex st + k)%nat
              <-> arrivalTime (rr_proc p) <= sliceEnd))
       /\ (forall i j p p',
             (i <= j)%nat ->
             rr_allProcesses st !! i = Some p ->
             rr_allProcesses st !! j = Some p' ->
             fcfs_compare (rr_proc p) (rr_proc p') <= 0)
       /\ (forall j p,
             (rr_processIndex st <= j)%nat ->
             rr_allProcesses st !! j = Some p ->
             arrivalTime (rr_proc p) = sliceEnd ->
             0 < remainingBurst cur - execTime ->
             exists q1 q2, rr_readyQueue st' = q1 ++ j :: q2 ++ [O]).
Proof.
  apply (arrivals_join_before_preempted arrival_at_preemption 2 0 0 []).
  reflexivity.
Defined.

(** The process that arrives at the preemption of the first one runs
    before the first one resumes. *)
Example arrival_at_preemption_schedule :
  rr_readyQueue (rr_body 2 (rr_init arrival_at_preemption)) = [1%nat; O]
  /\ scheduleRoundRobin 3 arrival_at_preemption 2
     = Some (3%nat, [ mkSegment (Some (str "P1")) 0 2;
                      mkSegment (Some (str "P2")) 2 4;
                      mkSegment (Some (str "P1")) 4 6 ]).
Proof. split; reflexivity. Qed.

(* ================================================================== *)
(** ** The engine leaves the store of its caller alone *)
(* ================================================================== *)

Lemma store_frame_refl h0 : Store.frame h0 h0.
Proof.
  split; [reflexivity|]. intros a Ha. unfold Store.elements.
  rewrite lookup_ge_None_2 by lia. constructor.
Qed.

Lemma store_frame_length h0 h : Store.frame h0 h -> (length h0 <= length h)%nat.
Proof. intros [H _]. apply prefix_length. assumption. Qed.

Lemma store_frame_elements h0 h a :
  Store.frame h0 h -> (length h0 <= a)%nat ->
  Forall (fun o => (length h0 <= o)%nat) (Store.elements h a).
Proof. intros [_ H]. apply H. Qed.

(** A new cell keeps the frame if, being an array, it holds references to
    objects made since [h0]. *)
Lemma store_frame_alloc h0 h c :
  Store.frame h0 h ->
  match c with
  | Store.Array l => Forall (fun o => (length h0 <= o)%nat) l
  | Store.Object _ _ => True
  end ->
  Store.frame h0 (h ++ [c]).
Proof.
  intros [Hp Ha] Hc. split; [apply prefix_app_r; assumption|].
  intros a Hna. specialize (Ha a Hna). unfold Store.elements in *.
  destruct (decide (a < length h)%nat) as [Hlt|Hge].
  - rewrite lookup_app_l by assumption. assumption.
  - rewrite lookup_app_r by lia.
    destruct (a - length h)%nat as [|n]; simpl.
    + destruct c; [constructor|assumption].
    + constructor.
Qed.

(** So does an assignment to a cell made since [h0]. *)
Lemma store_frame_insert h0 h x c :
  Store.frame h0 h -> (length h0 <= x)%nat ->
  match c with
  | Store.Array l => Forall (fun o => (length h0 <= o)%nat) l
  | Store.Object _ _ => True
  end ->
  Store.frame h0 (<[x := c]> h).
Proof.
  intros [[k ->] Ha] Hx Hc. split.
  - exists (<[(x - length h0)%nat := c]> k). apply insert_app_r_alt. lia.
  - intros a Hna. specialize (Ha a Hna). unfold Store.elements in *.
    destruct (decide (x = a)) as [->|Hne].
    + destruct (decide (a < length (h0 ++ k))%nat) as [Hlt|Hge].
      * rewrite list_lookup_insert_eq by assumption.
        destruct c; [constructor|assumption].
      * rewrite list_insert_ge by lia. assumption.
    + rewrite list_lookup_insert_ne by assumption. assumption.
Qed.

Lemma store_alloc_all_frame h0 cs : forall h,
  Store.frame h0 h ->
  Forall (fun c => match c with
                   | Store.Array l => Forall (fun o => (length h0 <= o)%nat) l
                   | Store.Object _ _ => True
                   end) cs ->
  Store.frame h0 (snd (Store.alloc_all cs h))
  /\ Forall (fun o => (length h0 <= o)%nat) (fst (Store.alloc_all cs h)).
Proof.
  induction cs as [|c cs IH]; intros h Hf Hcs; simpl.
  - split; [assumption|constructor].
  - apply Forall_cons in Hcs as [Hc Hcs].
    pose proof (store_frame_alloc h0 h c Hf Hc) as Hf'.
    destruct (IH (h ++ [c]) Hf' Hcs) as [Hs Hos].
    destruct (Store.alloc_all cs (h ++ [c])) as [os h']. simpl in *.
    split; [assumption|]. constructor; [|assumption].
    apply store_frame_length. assumption.
Qed.

(** [a.map(f)] when [f] builds process objects. *)
Lemma store_array_map_frame h0 f a h :
  (forall h o, exists p r, f h o = Store.Object p r) ->
  Store.frame h0 h ->
  Store.frame h0 (snd (Store.array_map f a h))
  /\ (length h0 <= fst (Store.array_map f a h))%nat.
Proof.
  intros Hf Hh. unfold Store.array_map.
  destruct (store_alloc_all_frame h0
              (List.map (f h) (Store.elements h a)) h Hh) as [Hs Hos].
  { apply List.Forall_forall. intros c Hc. apply in_map_iff in Hc.
    destruct Hc as (o & <- & _). destruct (Hf h o) as (p & r & ->). exact I. }
  destruct (Store.alloc_all _ h) as [os h']. simpl in *. split.
  - apply store_frame_alloc; assumption.
  - apply store_frame_length. assumption.
Qed.

Lemma store_array_copy_frame h0 a h :
  Store.frame h0 h -> (length h0 <= a)%nat ->
  Store.frame h0 (snd (Store.array_copy a h))
  /\ (length h0 <= fst (Store.array_copy a h))%nat.
Proof.
  intros Hh Ha. unfold Store.array_copy, Store.alloc. simpl. split.
  - apply store_frame_alloc; [assumption|].
    apply store_frame_elements; assumption.
  - apply store_frame_length. assumption.
Qed.

Lemma store_array_filter_frame h0 f a h :
  Store.frame h0 h -> (length h0 <= a)%nat ->
  Store.frame h0 (snd (Store.array_filter f a h))
  /\ (length h0 <= fst (Store.array_filter f a h))%nat.
Proof.
  intros Hh Ha. unfold Store.array_filter, Store.alloc. simpl. split.
  - apply store_frame_alloc; [assumption|].
    pose proof (store_frame_elements h0 h a Hh Ha) as He.
    rewrite List.Forall_forall in He. apply List.Forall_forall.
    intros o Ho. apply filter_In in Ho. apply He. tauto.
  - apply store_frame_length. assumption.
Qed.

Lemma store_array_sort_frame h0 cmp a h :
  Store.frame h0 h -> (length h0 <= a)%nat ->
  Store.frame h0 (Store.array_sort cmp a h).
Proof.
  intros Hh Ha. unfold Store.array_sort.
  apply store_frame_insert; [assumption|assumption|].
  eapply Permutation_Forall; [symmetry; apply js_sort_perm|].
  apply store_frame_elements; assumption.
Qed.

Lemma store_loop_invariant {S : Type} (I : S -> Prop) cond (body : S -> S) :
  (forall s, I s -> cond s = true -> I (body s)) ->
  forall fuel s, I s -> I (snd (Store.loop cond body fuel s)).
Proof.
  intros Hbody fuel. induction fuel as [|fuel IH]; intros s Hs; simpl.
  - destruct (cond s); assumption.
  - destruct (cond s) eqn:Hc; [|assumption].
    specialize (IH (body s) (Hbody s Hs Hc)).
    destruct (Store.loop cond body fuel (body s)). assumption.
Qed.

Lemma store_scheduleFCFS_frame h0 a h :
  Store.frame h0 h -> (length h0 <= a)%nat ->
  Store.frame h0 (snd (Store.scheduleFCFS a h)).
Proof.
  intros Hh Ha. unfold Store.scheduleFCFS.
  destruct (store_array_copy_frame h0 a h Hh Ha) as [Hc Hs].
  destruct (Store.array_copy a h) as [sorted h1]. simpl in *.
  apply store_array_sort_frame; assumption.
Qed.

Lemma store_np_body_frame h0 cmp remaining st :
  (length h0 <= remaining)%nat ->
  Store.frame h0 (Store.np_store st) ->
  Store.frame h0 (Store.np_store (Store.np_body cmp remaining st)).
Proof.
  intros Hr Hh. unfold Store.np_body.
  destruct (store_array_filter_frame h0
              (fun p => arrivalTime p <=? Store.np_currentTime st)
              remaining (Store.np_store st) Hh Hr) as [Hf Ha].
  destruct (Store.array_filter _ remaining (Store.np_store st))
    as [available h1]. simpl in Hf, Ha.
  destruct (length (Store.elements h1 available) =? 0)%nat; [assumption|].
  pose proof (store_array_sort_frame h0 cmp available h1 Hf Ha) as Hs.
  destruct (Store.elements (Store.array_sort cmp available h1) available)
    as [|selected l] eqn:He; simpl; [assumption|].
  apply store_frame_insert; [assumption|assumption|].
  pose proof (store_frame_elements h0 _ remaining Hs Hr) as Hel.
  unfold splice1. apply Forall_delete. assumption.
Qed.

Lemma store_np_schedule_frame h0 cmp fuel a h :
  Store.frame h0 h -> (length h0 <= a)%nat ->
  Store.frame h0 (snd (Store.np_schedule cmp fuel a h)).
Proof.
  intros Hh Ha. unfold Store.np_schedule.
  destruct (store_array_copy_frame h0 a h Hh Ha) as [Hc Hr].
  destruct (Store.array_copy a h) as [remaining h1]. simpl in Hc, Hr.
  pose proof (store_loop_invariant
                (fun st => Store.frame h0 (Store.np_store st))
                (Store.np_cond remaining) (Store.np_body cmp remaining)
                (fun s Hs _ => store_np_body_frame h0 cmp remaining s Hr Hs)
                fuel (Store.mkNp [] 0 h1) Hc) as Hl.
  destruct (Store.loop _ _ fuel _) as [k st]. simpl in *. assumption.
Qed.

Lemma store_enqueue_loop_frame h0 allProcesses readyQueue n upToTime :
  (length h0 <= allProcesses)%nat -> (length h0 <= readyQueue)%nat ->
  forall processIndex h,
    Store.frame h0 h ->
    Store.frame h0
      (snd (Store.enqueue_loop allProcesses readyQueue n upToTime
              processIndex h)).
Proof.
  intros Ha Hq. induction n as [|n IH]; intros i h Hh; simpl; [assumption|].
  destruct (Store.elements h allProcesses !! i) as [p|] eqn:Hp;
    [|assumption].
  destruct (arrivalTime (Store.fields h p) <=? upToTime); [|assumption].
  apply IH. apply store_frame_insert; [assumption|assumption|].
  apply Forall_app. split; [apply store_frame_elements; assumption|].
  constructor; [|constructor].
  pose proof (store_frame_elements h0 h allProcesses Hh Ha) as Hel.
  rewrite Forall_forall in Hel. apply Hel.
  eapply list_elem_of_lookup_2; eauto.
Qed.

Lemma store_enqueueArrivals_frame h0 allProcesses readyQueue upToTime st :
  (length h0 <= allProcesses)%nat -> (length h0 <= readyQueue)%nat ->
  Store.frame h0 (Store.rr_store st) ->
  Store.frame h0
    (Store.rr_store
       (Store.enqueueArrivals allProcesses readyQueue upToTime st)).
Proof.
  intros Ha Hq Hh. unfold Store.enqueueArrivals.
  pose proof (store_enqueue_loop_frame h0 allProcesses readyQueue
                (length (Store.elements (Store.rr_store st) allProcesses)
                 - Store.rr_processIndex st)
                upToTime Ha Hq (Store.rr_processIndex st) (Store.rr_store st)
                Hh) as Hl.
  destruct (Store.enqueue_loop _ _ _ _ _ _) as [i h]. assumption.
Qed.

Lemma store_rr_body_frame h0 allProcesses readyQueue quantum st :
  (length h0 <= allProcesses)%nat -> (length h0 <= readyQueue)%nat ->
  Store.frame h0 (Store.rr_store st) ->
  Store.frame h0
    (Store.rr_store (Store.rr_body allProcesses readyQueue quantum st)).
Proof.
  intros Ha Hq Hh. unfold Store.rr_body.
  pose proof (store_frame_elements h0 _ readyQueue Hh Hq) as Hel.
  destruct (Store.elements (Store.rr_store st) readyQueue)
    as [|current rest].
  - destruct (Store.elements (Store.rr_store st) allProcesses
                !! Store.rr_processIndex st); [|assumption].
    apply store_enqueueArrivals_frame; assumption.
  - apply Forall_cons in Hel as [Hcur Hrest].
    match goal with
    | |- context [Store.enqueueArrivals _ _ ?t ?s] =>
        pose proof (store_enqueueArrivals_frame h0 allProcesses readyQueue
                      t s Ha Hq) as He
    end.
    simpl in He.
    match type of He with
    | ?P -> _ => assert (Hpre : P)
    end.
    { apply store_frame_insert; [|assumption|exact I].
      apply store_frame_insert; assumption. }
    specialize (He Hpre).
    destruct (0 <? _); [|assumption]. simpl.
    apply store_frame_insert; [assumption|assumption|].
    apply Forall_app. split; [apply store_frame_elements; assumption|].
    constructor; [assumption|constructor].
Qed.

Lemma store_scheduleRoundRobin_frame h0 fuel a quantum h :
  Store.frame h0 h ->
  Store.frame h0 (snd (Store.scheduleRoundRobin fuel a quantum h)).
Proof.
  intros Hh. unfold Store.scheduleRoundRobin.
  destruct (store_array_map_frame h0
              (fun h p => Store.Object (Store.fields h p)
                            (Some (burstTime (Store.fields h p))))
              a h) as [Hm Ha]; [eauto|assumption|].
  destruct (Store.array_map _ a h) as [allProcesses h1]. simpl in Hm, Ha.
  pose proof (store_array_sort_frame h0 fcfs_compare allProcesses h1 Hm Ha)
    as Hs.
  unfold Store.alloc.
  assert (Hq : (length h0
                <= length (Store.array_sort fcfs_compare allProcesses h1))%nat)
    by (apply store_frame_length; assumption).
  pose proof (store_frame_alloc h0 _ (Store.Array []) Hs
                (List.Forall_nil _)) as Hal.
  pose proof (store_enqueueArrivals_frame h0 allProcesses _ 0
                (Store.mkRRState [] 0 0 _) Ha Hq Hal) as He.
  set (readyQueue := length (Store.array_sort fcfs_compare allProcesses h1))
    in *.
  pose proof (store_loop_invariant
                (fun st => Store.frame h0 (Store.rr_store st))
                (Store.rr_cond allProcesses readyQueue)
                (Store.rr_body allProcesses readyQueue quantum)
                (fun s Hs' _ =>
                   store_rr_body_frame h0 allProcesses readyQueue quantum s
                     Ha Hq Hs')
                fuel _ He) as Hl.
  destruct (Store.loop _ _ fuel _) as [k st]. simpl in *. assumption.
Qed.

Lemma store_dispatch_frame h0 fuel procs algorithm quantum h :
  Store.frame h0 h -> (length h0 <= procs)%nat ->
  Store.frame h0 (snd (Store.dispatch fuel procs algorithm quantum h)).
Proof.
  intros Hh Hp. unfold Store.dispatch.
  destruct (decide (algorithm = str "FCFS")).
  { pose proof (store_scheduleFCFS_frame h0 procs h Hh Hp) as H.
    destruct (Store.scheduleFCFS procs h). assumption. }
  destruct (decide (algorithm = str "SJF")).
  { pose proof (store_np_schedule_frame h0 sjf_compare fuel procs h Hh Hp)
      as H. unfold Store.scheduleSJF.
    destruct (Store.np_schedule sjf_compare fuel procs h) as [[kg|] h'];
      assumption. }
  destruct (decide (algorithm = str "Priority")).
  { pose proof (store_np_schedule_frame h0 priority_compare fuel procs h
                  Hh Hp) as H. unfold Store.schedulePriority.
    destruct (Store.np_schedule priority_compare fuel procs h)
      as [[kg|] h']; assumption. }
  destruct (decide (algorithm = str "RoundRobin")); [|assumption].
  pose proof (store_scheduleRoundRobin_frame h0 fuel procs quantum h Hh)
    as H.
  destruct (Store.scheduleRoundRobin fuel procs quantum h) as [[kg|] h'];
    assumption.
Qed.

Lemma store_simulateSchedule_frame localeCompare fuel processes algorithm
    quantum h :
  Store.frame h
    (snd (Store.simulateSchedule localeCompare fuel processes algorithm
            quantum h)).
Proof.
  unfold Store.simulateSchedule.
  destruct (length (Store.elements h processes) =? 0)%nat;
    [apply store_frame_refl|].
  destruct (store_array_map_frame h
              (fun h p => Store.Object (Store.fields h p)
                            (Store.remaining_burst h p))
              processes h) as [Hm Hp]; [eauto|apply store_frame_refl|].
  destruct (Store.array_map _ processes h) as [procs h1]. simpl in Hm, Hp.
  pose proof (store_dispatch_frame h fuel procs algorithm (default 2 quantum)
                h1 Hm Hp) as Hd.
  destruct (Store.dispatch fuel procs algorithm (default 2 quantum) h1)
    as [[[k g]|m|] h2]; assumption.
Qed.

Lemma map_fmap {A B : Type} (f : A -> B) (l : list A) :
  List.map f l = f <$> l.
Proof. reflexivity. Qed.

Lemma store_frame_lookup h0 h l c :
  Store.frame h0 h -> h0 !! l = Some c -> h !! l = Some c.
Proof.
  intros [[k ->] _] H. rewrite lookup_app_l by (eapply lookup_lt_Some; eauto).
  assumption.
Qed.

Lemma store_caller_elements descriptors :
  Store.elements (snd (Store.caller_store descriptors))
                 (fst (Store.caller_store descriptors))
  = seq 0 (length descriptors).
Proof.
  unfold Store.caller_store, Store.elements. simpl.
  rewrite lookup_app_r by (rewrite length_map; lia).
  rewrite length_map, Nat.sub_diag. reflexivity.
Qed.

Lemma store_caller_fields descriptors :
  List.map (Store.fields (snd (Store.caller_store descriptors)))
           (seq 0 (length descriptors))
  = descriptors.
Proof.
  unfold Store.caller_store. simpl.
  apply list_eq. intros i. rewrite !map_fmap, list_lookup_fmap.
  destruct (descriptors !! i) as [p|] eqn:Hp.
  - pose proof (lookup_lt_Some _ _ _ Hp) as Hlt.
    rewrite lookup_seq_lt by assumption. simpl. unfold Store.fields.
    rewrite lookup_app_l by (rewrite length_map; assumption).
    rewrite map_fmap, list_lookup_fmap, Hp. reflexivity.
  - apply lookup_ge_None_1 in Hp. rewrite lookup_seq_ge by assumption.
    reflexivity.
Qed.

(* ================================================================== *)
(** ** The engine on values and the engine on the store agree *)
(* ================================================================== *)

(** *** Array methods and [map] *)

Lemma sort_insert_map {A B : Type} (f : A -> B) (cmp : B -> B -> Z) x l :
  List.map f (sort_insert (fun a b => cmp (f a) (f b)) x l)
  = sort_insert cmp (f x) (List.map f l).
Proof.
  induction l as [|y l IH]; simpl; [reflexivity|].
  destruct (cmp (f x) (f y) <=? 0); simpl; [reflexivity|].
  rewrite IH. reflexivity.
Qed.

Lemma js_sort_map {A B : Type} (f : A -> B) (cmp : B -> B -> Z) l :
  List.map f (js_sort (fun a b => cmp (f a) (f b)) l)
  = js_sort cmp (List.map f l).
Proof.
  induction l as [|x l IH]; simpl; [reflexivity|].
  rewrite sort_insert_map, IH. reflexivity.
Qed.

Lemma sort_insert_ext {A : Type} (cmp cmp' : A -> A -> Z) x l :
  (forall b, In b l -> cmp x b = cmp' x b) ->
  sort_insert cmp x l = sort_insert cmp' x l.
Proof.
  induction l as [|y l IH]; intros H; simpl; [reflexivity|].
  rewrite (H y) by (left; reflexivity).
  rewrite IH by (intros b Hb; apply H; right; assumption). reflexivity.
Qed.

(** A sort only applies the comparison to elements of the array. *)
Lemma js_sort_ext {A : Type} (cmp cmp' : A -> A -> Z) l :
  (forall a b, In a l -> In b l -> cmp a b = cmp' a b) ->
  js_sort cmp l = js_sort cmp' l.
Proof.
  induction l as [|x l IH]; intros H; simpl; [reflexivity|].
  rewrite IH by (intros a b Ha Hb; apply H; right; assumption).
  apply sort_insert_ext. intros b Hb. apply H; [left; reflexivity|].
  right. apply (js_sort_In cmp' l b). assumption.
Qed.

Lemma filter_map_comm {A B : Type} (f : A -> B) (g : B -> bool) l :
  List.map f (List.filter (fun x => g (f x)) l) = List.filter g (List.map f l).
Proof.
  induction l as [|x l IH]; simpl; [reflexivity|].
  destruct (g (f x)); simpl; rewrite IH; reflexivity.
Qed.

Lemma findIndex_map {A B : Type} (f : A -> B) (g : B -> bool) l :
  findIndex (fun x => g (f x)) l = findIndex g (List.map f l).
Proof.
  induction l as [|x l IH]; simpl; [reflexivity|]. rewrite IH. reflexivity.
Qed.

Lemma findIndex_ext {A : Type} (f g : A -> bool) l :
  (forall x, In x l -> f x = g x) -> findIndex f l = findIndex g l.
Proof.
  induction l as [|x l IH]; intros H; simpl; [reflexivity|].
  rewrite (H x) by (left; reflexivity).
  rewrite IH by (intros y Hy; apply H; right; assumption). reflexivity.
Qed.

Lemma splice1_map {A B : Type} (f : A -> B) i l :
  List.map f (splice1 i l) = splice1 i (List.map f l).
Proof.
  unfold splice1. rewrite length_map, !map_fmap. apply list_fmap_delete.
Qed.

Lemma fold_left_map {A B C : Type} (f : A -> B) (step : C -> B -> C) l :
  forall c, fold_left (fun c x => step c (f x)) l c
            = fold_left step (List.map f l) c.
Proof. induction l as [|x l IH]; intros c; simpl; auto. Qed.

(** *** Reading the store after it has grown or been assigned to *)

Lemma store_fields_app h k o :
  (o < length h)%nat -> Store.fields (h ++ k) o = Store.fields h o.
Proof.
  intros H. unfold Store.fields. rewrite lookup_app_l by assumption.
  reflexivity.
Qed.

Lemma store_remaining_burst_app h k o :
  (o < length h)%nat ->
  Store.remaining_burst (h ++ k) o = Store.remaining_burst h o.
Proof.
  intros H. unfold Store.remaining_burst.
  rewrite lookup_app_l by assumption. reflexivity.
Qed.

Lemma store_elements_app h k a :
  (a < length h)%nat -> Store.elements (h ++ k) a = Store.elements h a.
Proof.
  intros H. unfold Store.elements. rewrite lookup_app_l by assumption.
  reflexivity.
Qed.

Lemma store_elements_new h l :
  Store.elements (h ++ [Store.Array l]) (length h) = l.
Proof.
  unfold Store.elements. rewrite lookup_app_r by lia.
  rewrite Nat.sub_diag. reflexivity.
Qed.

Lemma store_fields_insert_ne h x c o :
  x <> o -> Store.fields (<[x := c]> h) o = Store.fields h o.
Proof.
  intros H. unfold Store.fields. rewrite list_lookup_insert_ne by assumption.
  reflexivity.
Qed.

Lemma store_remaining_burst_insert_ne h x c o :
  x <> o ->
  Store.remaining_burst (<[x := c]> h) o = Store.remaining_burst h o.
Proof.
  intros H. unfold Store.remaining_burst.
  rewrite list_lookup_insert_ne by assumption. reflexivity.
Qed.

Lemma store_elements_insert_ne h x c a :
  x <> a -> Store.elements (<[x := c]> h) a = Store.elements h a.
Proof.
  intros H. unfold Store.elements.
  rewrite list_lookup_insert_ne by assumption. reflexivity.
Qed.

Lemma store_elements_insert_eq h x l :
  (x < length h)%nat -> Store.elements (<[x := Store.Array l]> h) x = l.
Proof.
  intros H. unfold Store.elements.
  rewrite list_lookup_insert_eq by assumption. reflexivity.
Qed.

Lemma store_prefix_insert (h0 h : Store.store) x c :
  h0 `prefix_of` h -> (length h0 <= x)%nat -> h0 `prefix_of` <[x := c]> h.
Proof.
  intros [k ->] Hx. exists (<[(x - length h0)%nat := c]> k).
  apply insert_app_r_alt. lia.
Qed.

(** *** Loops *)

Lemma store_loop_simulates {S T : Type} (R : S -> T -> Prop)
    cond (body : S -> S) cond' (body' : T -> T) :
  (forall s t, R s t -> cond s = cond' t) ->
  (forall s t, R s t -> cond s = true -> R (body s) (body' t)) ->
  forall fuel s t,
    R s t ->
    match while cond body fuel s, Store.loop cond' body' fuel t with
    | Some (k, s'), (Some k', t') => k = k' /\ R s' t'
    | None, (None, t') => exists s', R s' t'
    | _, _ => False
    end.
Proof.
  intros Hcond Hbody fuel.
  induction fuel as [|fuel IH]; intros s t Hst; simpl;
    rewrite <- (Hcond s t Hst); destruct (cond s) eqn:Hc; eauto.
  specialize (IH (body s) (body' t) (Hbody s t Hst Hc)).
  destruct (while cond body fuel (body s)) as [[k s']|];
    destruct (Store.loop cond' body' fuel (body' t)) as [[k'|] t'];
    simpl; try contradiction; auto.
  destruct IH as [-> IH]. auto.
Qed.

(** *** First come first served *)

Lemma store_fold_ext {C : Type} (f g : nat -> Process)
    (step : C -> Process -> C) l :
  (forall o, In o l -> f o = g o) ->
  forall c, fold_left (fun c o => step c (f o)) l c
            = fold_left (fun c o => step c (g o)) l c.
Proof.
  induction l as [|o l IH]; intros H c; simpl; [reflexivity|].
  rewrite (H o) by (left; reflexivity).
  apply IH. intros o' Ho'. apply H. right. assumption.
Qed.

Lemma store_scheduleFCFS_agrees h procs :
  Forall (fun o => (o < length h)%nat) (Store.elements h procs) ->
  fst (Store.scheduleFCFS procs h)
  = scheduleFCFS (List.map (Store.fields h) (Store.elements h procs))
  /\ h `prefix_of` snd (Store.scheduleFCFS procs h).
Proof.
  intros Hin. unfold Store.scheduleFCFS, Store.array_copy, Store.alloc,
    Store.array_sort. simpl. rewrite store_elements_new.
  rewrite store_elements_insert_eq by (rewrite length_app; simpl; lia).
  set (os := Store.elements h procs) in *.
  set (h1 := h ++ [Store.Array os]).
  rewrite List.Forall_forall in Hin.
  split.
  - unfold scheduleFCFS.
    assert (Hf1 : forall o, In o os -> Store.fields h1 o = Store.fields h o)
      by (intros o Ho; apply store_fields_app; auto).
    assert (Esort :
              js_sort (fun x y => fcfs_compare (Store.fields h1 x)
                                               (Store.fields h1 y)) os
              = js_sort (fun x y => fcfs_compare (Store.fields h x)
                                                 (Store.fields h y)) os).
    { apply js_sort_ext. intros a b Ha Hb. rewrite !Hf1 by assumption.
      reflexivity. }
    rewrite Esort.
    rewrite (store_fold_ext _ (Store.fields h)).
    + rewrite fold_left_map, js_sort_map. reflexivity.
    + intros o Ho. apply js_sort_In in Ho.
      rewrite store_fields_insert_ne by (specialize (Hin o Ho); lia).
      apply Hf1. assumption.
  - apply store_prefix_insert; [apply prefix_app_r; reflexivity|lia].
Qed.

(** *** The non-preemptive loop *)

Lemma np_related_cond entry remaining s t :
  np_related entry remaining s t -> np_cond s = Store.np_cond remaining t.
Proof.
  intros (_ & _ & _ & _ & _ & H). unfold np_cond, Store.np_cond.
  rewrite <- H, length_map. reflexivity.
Qed.

Lemma np_related_body cmp entry remaining s t :
  np_related entry remaining s t ->
  np_related entry remaining (np_body cmp s) (Store.np_body cmp remaining t).
Proof.
  destruct s as [g R now], t as [g' now' h].
  intros (Hg & Hnow & Hpre & Hrem & Hin & HR). simpl in *. subst g' now'.
  set (os := Store.elements h remaining) in *.
  rewrite List.Forall_forall in Hin.
  assert (Hlen : (length entry <= length h)%nat) by lia.
  assert (Hf : forall k o, In o os ->
                           Store.fields (h ++ k) o = Store.fields entry o).
  { intros k o Ho. destruct Hpre as [k' ->]. rewrite <- app_assoc.
    apply store_fields_app. auto. }
  assert (Hf0 : forall o, In o os -> Store.fields h o = Store.fields entry o).
  { intros o Ho. rewrite <- (Hf [] o Ho), app_nil_r. reflexivity. }
  unfold Store.np_body, Store.array_filter, Store.alloc, Store.array_sort.
  cbn [Store.np_store Store.np_gantt Store.np_currentTime].
  fold os. rewrite store_elements_new.
  set (av := List.filter (fun o => arrivalTime (Store.fields h o) <=? now) os).
  assert (Hav : forall o, In o av -> In o os)
    by (intros o Ho; apply filter_In in Ho; tauto).
  assert (Eav : List.map (Store.fields entry) av
                = List.filter (fun p => arrivalTime p <=? now) R).
  { rewrite <- HR, <- filter_map_comm. f_equal. apply filter_ext_in.
    intros o Ho. rewrite Hf0 by assumption. reflexivity. }
  unfold np_body. cbn [np_gantt np_remaining np_currentTime].
  rewrite <- Eav, length_map.
  set (h1 := h ++ [Store.Array av]).
  assert (Hos1 : Store.elements h1 remaining = os)
    by (apply store_elements_app; lia).
  destruct (length av =? 0)%nat.
  - (* idle *)
    rewrite Hos1.
    assert (Emin : List.map (fun p => arrivalTime (Store.fields h1 p)) os
                   = List.map arrivalTime R).
    { rewrite <- HR, List.map_map. apply map_ext_in. intros o Ho.
      unfold h1. rewrite Hf by assumption. reflexivity. }
    rewrite Emin. unfold np_related. simpl. rewrite Hos1.
    repeat split; auto.
    + apply prefix_app_r. assumption.
    + lia.
    + unfold h1. rewrite length_app. simpl. lia.
    + apply List.Forall_forall. assumption.
  - (* a process runs *)
    rewrite store_elements_insert_eq
      by (unfold h1; rewrite length_app; simpl; lia).
    assert (Esort :
              js_sort (fun x y => cmp (Store.fields h1 x) (Store.fields h1 y))
                      av
              = js_sort (fun x y => cmp (Store.fields entry x)
                                        (Store.fields entry y)) av).
    { apply js_sort_ext. intros a b Ha Hb. unfold h1.
      rewrite !Hf by auto. reflexivity. }
    rewrite Esort, <- js_sort_map.
    set (sorted := js_sort (fun x y => cmp (Store.fields entry x)
                                           (Store.fields entry y)) av).
    assert (Hsorted : forall o, In o sorted -> In o os)
      by (intros o Ho; apply Hav; apply js_sort_In in Ho; assumption).
    set (h2 := <[length h := Store.Array sorted]> h1).
    assert (Hos2 : Store.elements h2 remaining = os).
    { unfold h2. rewrite store_elements_insert_ne by lia. assumption. }
    assert (Hlen2 : length h2 = Datatypes.S (length h)).
    { unfold h2, h1. rewrite length_insert, length_app. simpl. lia. }
    assert (Hpre2 : entry `prefix_of` h2).
    { unfold h2, h1. apply store_prefix_insert; [|lia].
      apply prefix_app_r. assumption. }
    assert (Hf2 : forall o, In o os ->
                            Store.fields h2 o = Store.fields entry o).
    { intros o Ho. unfold h2, h1.
      rewrite store_fields_insert_ne by (specialize (Hin o Ho); lia).
      apply Hf. assumption. }
    destruct sorted as [|selected rest] eqn:Hsel; simpl List.map.
    + unfold np_related. simpl. rewrite Hos2. repeat split; auto; try lia.
      apply List.Forall_forall. assumption.
    + assert (Hselected : In selected os)
        by (apply Hsorted; left; reflexivity).
      rewrite Hos2.
      set (index := findIndex
                      (fun p => bool_decide (pid (Store.fields h2 p)
                                             = pid (Store.fields h2 selected)))
                      os).
      assert (Eindex : index
                       = findIndex
                           (fun p => bool_decide
                                       (pid p
                                        = pid (Store.fields entry selected)))
                           R).
      { unfold index. rewrite <- HR, <- findIndex_map. apply findIndex_ext.
        intros o Ho. rewrite !Hf2 by assumption. reflexivity. }
      rewrite <- Eindex.
      rewrite store_fields_insert_ne by (specialize (Hin _ Hselected); lia).
      rewrite Hf2 by assumption.
      unfold np_related. simpl.
      rewrite store_elements_insert_eq by lia.
      rewrite length_insert, splice1_map, HR.
      repeat split; auto; try lia.
      * apply store_prefix_insert; [assumption|lia].
      * unfold splice1. apply Forall_delete. apply List.Forall_forall.
        assumption.
Qed.

Lemma store_np_schedule_agrees cmp fuel procs h :
  Forall (fun o => (o < length h)%nat) (Store.elements h procs) ->
  fst (Store.np_schedule cmp fuel procs h)
  = np_schedule cmp fuel (List.map (Store.fields h) (Store.elements h procs))
  /\ h `prefix_of` snd (Store.np_schedule cmp fuel procs h).
Proof.
  intros Hin. unfold Store.np_schedule, Store.array_copy, Store.alloc,
    np_schedule.
  set (os := Store.elements h procs) in *.
  pose proof (store_loop_simulates (np_related h (length h))
                np_cond (np_body cmp) (Store.np_cond (length h))
                (Store.np_body cmp (length h))
                (np_related_cond h (length h))
                (fun s t Hst _ => np_related_body cmp h (length h) s t Hst)
                fuel (mkNp [] (List.map (Store.fields h) os) 0)
                (Store.mkNp [] 0 (h ++ [Store.Array os]))) as Hsim.
  destruct (while np_cond (np_body cmp) fuel _) as [[k s']|];
    destruct (Store.loop _ _ fuel _) as [[k'|] t']; simpl.
  - destruct Hsim as [-> (Hg & _ & Hpre & _)].
    + unfold np_related. simpl. rewrite store_elements_new, length_app.
      simpl. repeat split; auto; try lia. apply prefix_app_r. reflexivity.
    + rewrite Hg. auto.
  - exfalso. apply Hsim. unfold np_related. simpl.
    rewrite store_elements_new, length_app.
    simpl. repeat split; auto; try lia. apply prefix_app_r. reflexivity.
  - exfalso. apply Hsim. unfold np_related. simpl.
    rewrite store_elements_new, length_app.
    simpl. repeat split; auto; try lia. apply prefix_app_r. reflexivity.
  - destruct Hsim as [s' (_ & _ & Hpre & _)]; [|auto].
    unfold np_related. simpl. rewrite store_elements_new, length_app.
    simpl. repeat split; auto; try lia. apply prefix_app_r. reflexivity.
Qed.

(** *** Round robin *)

Lemma rr_object_insert_ne h x c o :
  x <> o -> rr_object (<[x := c]> h) o = rr_object h o.
Proof.
  intros H. unfold rr_object.
  rewrite store_fields_insert_ne, store_remaining_burst_insert_ne
    by assumption.
  reflexivity.
Qed.

Lemma rr_store_related_lookup os aP rQ objects queue h i :
  rr_store_related os aP rQ objects queue h ->
  objects !! i = rr_object h <$> os !! i.
Proof.
  intros (_ & _ & _ & _ & <- & _). rewrite map_fmap. apply list_lookup_fmap.
Qed.

(** Assigning a new array of references to [readyQueue]. *)
Lemma rr_store_related_queue os aP rQ objects queue h qs' queue' :
  rr_store_related os aP rQ objects queue h ->
  Forall2 (fun q i => os !! i = Some q) qs' queue' ->
  rr_store_related os aP rQ objects queue' (<[rQ := Store.Array qs']> h).
Proof.
  intros (Hb & Hnd & Hos & Hel & Hobj & Hq) Hq'. unfold rr_store_related.
  rewrite length_insert, store_elements_insert_ne by lia.
  rewrite store_elements_insert_eq by lia.
  repeat split; auto; try lia.
  rewrite <- Hobj. apply map_ext_in. intros o Ho.
  apply rr_object_insert_ne. rewrite List.Forall_forall in Hos.
  specialize (Hos o Ho). lia.
Qed.

(** Assigning to the remaining burst time of the object at position [c]. *)
Lemma rr_store_related_write os aP rQ objects queue h c current r :
  rr_store_related os aP rQ objects queue h ->
  os !! c = Some current ->
  rr_store_related os aP rQ
    (<[c := mkRR (Store.fields h current) r]> objects) queue
    (<[current := Store.Object (Store.fields h current) (Some r)]> h).
Proof.
  intros (Hb & Hnd & Hos & Hel & Hobj & Hq) Hc. unfold rr_store_related.
  assert (Hcur : (current < aP)%nat).
  { rewrite Forall_forall in Hos. apply Hos.
    eapply list_elem_of_lookup_2; eauto. }
  rewrite length_insert, !store_elements_insert_ne by lia.
  repeat split; auto; try lia.
  rewrite <- Hobj, !map_fmap. apply list_eq. intros i.
  rewrite list_lookup_fmap.
  destruct (decide (i = c)) as [->|Hne].
  - rewrite list_lookup_insert_eq
      by (rewrite length_fmap; eapply lookup_lt_Some; eauto).
    rewrite Hc. simpl. unfold rr_object, Store.fields, Store.remaining_burst.
    rewrite list_lookup_insert_eq by lia. reflexivity.
  - rewrite list_lookup_insert_ne by congruence.
    rewrite list_lookup_fmap.
    destruct (os !! i) as [o|] eqn:Ho; [|reflexivity]. simpl. f_equal.
    apply rr_object_insert_ne. intros <-.
    apply Hne. eapply NoDup_lookup; eauto.
Qed.

Lemma rr_related_cond os aP rQ s t :
  rr_related os aP rQ s t -> rr_cond s = Store.rr_cond aP rQ t.
Proof.
  intros (_ & _ & Hi & _ & _ & _ & Hel & Hobj & Hq).
  unfold rr_cond, Store.rr_cond.
  rewrite (Forall2_length _ _ _ Hq), Hi, Hel, <- Hobj, length_map.
  reflexivity.
Qed.

Lemma rr_related_enqueue_loop os aP rQ upToTime n :
  forall objects queue i h,
    rr_store_related os aP rQ objects queue h ->
    rr_store_related os aP rQ objects
      (fst (enqueue_loop n objects upToTime queue i))
      (snd (Store.enqueue_loop aP rQ n upToTime i h))
    /\ snd (enqueue_loop n objects upToTime queue i)
       = fst (Store.enqueue_loop aP rQ n upToTime i h).
Proof.
  induction n as [|n IH]; intros objects queue i h Hrel; simpl; [auto|].
  rewrite (rr_store_related_lookup _ _ _ _ _ _ i Hrel).
  pose proof Hrel as (_ & _ & _ & Hel & _ & Hq). rewrite Hel.
  destruct (os !! i) as [o|] eqn:Ho; simpl; [|auto].
  destruct (arrivalTime (Store.fields h o) <=? upToTime); [|auto].
  apply IH. apply rr_store_related_queue with (queue := queue);
    [assumption|].
  apply Forall2_app; [assumption|]. constructor; [assumption|constructor].
Qed.

Lemma enqueueArrivals_objects upToTime st :
  rr_allProcesses (enqueueArrivals upToTime st) = rr_allProcesses st.
Proof.
  unfold enqueueArrivals. destruct (enqueue_loop _ _ _ _ _). reflexivity.
Qed.

Lemma rr_related_mk os aP rQ g objects queue now i h :
  rr_store_related os aP rQ objects queue h ->
  rr_related os aP rQ (mkRRState g objects queue now i)
    (Store.mkRRState g now i h).
Proof. intros H. unfold rr_related. simpl. auto. Qed.

Lemma rr_related_enqueueArrivals os aP rQ upToTime s t :
  rr_related os aP rQ s t ->
  rr_related os aP rQ (enqueueArrivals upToTime s)
    (Store.enqueueArrivals aP rQ upToTime t).
Proof.
  destruct s as [g objects queue now i], t as [g' now' i' h].
  intros (Hg & Hnow & Hi & Hrel). simpl in *. subst g' now' i'.
  unfold enqueueArrivals, Store.enqueueArrivals. simpl.
  pose proof Hrel as (_ & _ & _ & Hel & Hobj & _).
  rewrite Hel, <- Hobj, length_map, Hobj.
  destruct (rr_related_enqueue_loop os aP rQ upToTime (length os - i)
              objects queue i h Hrel) as [Hr Hi].
  destruct (enqueue_loop _ objects upToTime queue i) as [q' i1].
  destruct (Store.enqueue_loop aP rQ _ upToTime i h) as [i2 h'].
  simpl in *. subst i2. apply rr_related_mk. assumption.
Qed.

Lemma rr_related_body os aP rQ quantum s t :
  rr_related os aP rQ s t ->
  rr_related os aP rQ (rr_body quantum s) (Store.rr_body aP rQ quantum t).
Proof.
  destruct s as [g objects queue now i], t as [g' now' i' h].
  intros (Hg & Hnow & Hi & Hrel). simpl in *. subst g' now' i'.
  unfold rr_body, Store.rr_body.
  cbn [rr_readyQueue rr_allProcesses rr_processIndex rr_gantt rr_currentTime
       Store.rr_store Store.rr_gantt Store.rr_currentTime
       Store.rr_processIndex].
  pose proof Hrel as (Hb & Hnd & Hos & Hel & Hobj & Hq).
  destruct Hq as [|current c qs rest Hc Hrest] eqn:Hqeq.
  - (* the queue is empty *)
    rewrite (rr_store_related_lookup _ _ _ _ _ _ i Hrel), Hel.
    destruct (os !! i) as [next|] eqn:Hnext; simpl.
    + apply rr_related_enqueueArrivals, rr_related_mk. assumption.
    + apply rr_related_mk. assumption.
  - (* a slice for the head of the queue *)
    rewrite (rr_store_related_lookup _ _ _ _ _ _ c Hrel), Hc. simpl.
    assert (Hcur : (current < aP)%nat).
    { rewrite Forall_forall in Hos. apply Hos.
      eapply list_elem_of_lookup_2; eauto. }
    set (h1 := <[rQ := Store.Array qs]> h).
    assert (Hf1 : Store.fields h1 current = Store.fields h current)
      by (apply store_fields_insert_ne; lia).
    assert (Hr1 : Store.remaining_burst h1 current
                  = Store.remaining_burst h current)
      by (apply store_remaining_burst_insert_ne; lia).
    rewrite Hr1, Hf1.
    set (left := default 0 (Store.remaining_burst h current)).
    set (execTime := Z.min quantum left).
    assert (Hrel1 : rr_store_related os aP rQ objects rest h1)
      by (eapply rr_store_related_queue; eauto).
    pose proof (rr_store_related_write os aP rQ objects rest h1 c current
                  (left - execTime) Hrel1 Hc) as Hrel2.
    rewrite Hf1 in Hrel2.
    pose proof (rr_related_enqueueArrivals os aP rQ (now + execTime) _ _
                  (rr_related_mk os aP rQ
                     (g ++ [mkSegment (Some (pid (Store.fields h current)))
                                      now (now + execTime)])
                     _ _ (now + execTime) i _ Hrel2)) as Hrel3.
    match type of Hrel3 with
    | rr_related _ _ _ (enqueueArrivals _ ?st) _ =>
        pose proof (enqueueArrivals_objects (now + execTime) st) as Hobjs
    end.
    destruct (enqueueArrivals (now + execTime) _)
      as [g3 objects3 queue3 now3 i3].
    destruct (Store.enqueueArrivals aP rQ (now + execTime) _)
      as [g3' now3' i3' h3].
    destruct Hrel3 as (Hg3 & Hnow3 & Hi3 & Hrel3). simpl in *.
    subst g3' now3' i3' objects3.
    assert (Hleft : default 0 (Store.remaining_burst h3 current)
                    = left - execTime).
    { pose proof (rr_store_related_lookup _ _ _ _ _ _ c Hrel3) as Hl.
      rewrite Hc in Hl. simpl in Hl.
      rewrite list_lookup_insert_eq in Hl.
      - unfold rr_object in Hl. injection Hl as _ Hl. symmetry. exact Hl.
      - rewrite <- Hobj, length_map. eapply lookup_lt_Some; eauto. }
    rewrite Hleft.
    destruct (0 <? left - execTime).
    + apply rr_related_mk.
      apply rr_store_related_queue with (queue := queue3); [assumption|].
      apply Forall2_app; [apply Hrel3|].
      constructor; [assumption|constructor].
    + apply rr_related_mk. assumption.
Qed.

Lemma store_alloc_all_spec cs : forall h,
  Store.alloc_all cs h = (seq (length h) (length cs), h ++ cs).
Proof.
  induction cs as [|c cs IH]; intros h; simpl.
  - rewrite app_nil_r. reflexivity.
  - rewrite IH, length_app, <- app_assoc. simpl.
    rewrite Nat.add_1_r. reflexivity.
Qed.

(** Reading the cells that have just been made. *)
Lemma store_lookup_made {B : Type} (f : option Store.cell -> B) cs :
  forall (h k : Store.store),
    List.map (fun o => f ((h ++ cs ++ k) !! o)) (seq (length h) (length cs))
    = List.map (fun c => f (Some c)) cs.
Proof.
  induction cs as [|c cs IH]; intros h k; simpl; [reflexivity|].
  rewrite lookup_app_r, Nat.sub_diag by lia. simpl. f_equal.
  specialize (IH (h ++ [c]) k).
  rewrite length_app, Nat.add_1_r, <- !app_assoc in IH. exact IH.
Qed.

Lemma store_array_map_spec f a h :
  Store.array_map f a h
  = ((length h + length (Store.elements h a))%nat,
     h ++ List.map (f h) (Store.elements h a)
       ++ [Store.Array (seq (length h) (length (Store.elements h a)))]).
Proof.
  unfold Store.array_map, Store.alloc. rewrite store_alloc_all_spec.
  rewrite length_app, !length_map, <- app_assoc. reflexivity.
Qed.

Lemma store_prefix_fields (h h' : Store.store) o :
  h `prefix_of` h' -> (o < length h)%nat ->
  Store.fields h' o = Store.fields h o.
Proof. intros [k ->] Ho. apply store_fields_app. assumption. Qed.

Lemma store_prefix_elements (h h' : Store.store) a :
  h `prefix_of` h' -> (a < length h)%nat ->
  Store.elements h' a = Store.elements h a.
Proof. intros [k ->] Ha. apply store_elements_app. assumption. Qed.

Lemma store_scheduleRoundRobin_agrees fuel procs quantum h :
  fst (Store.scheduleRoundRobin fuel procs quantum h)
  = scheduleRoundRobin fuel
      (List.map (Store.fields h) (Store.elements h procs)) quantum
  /\ h `prefix_of` snd (Store.scheduleRoundRobin fuel procs quantum h).
Proof.
  split; [|apply store_scheduleRoundRobin_frame, store_frame_refl].
  unfold Store.scheduleRoundRobin. rewrite store_array_map_spec.
  set (refs := Store.elements h procs).
  set (n := length refs).
  set (cs := List.map (fun p => Store.Object (Store.fields h p)
                                  (Some (burstTime (Store.fields h p))))
                      refs).
  set (os0 := seq (length h) n).
  set (aP := (length h + n)%nat).
  set (h1 := h ++ cs ++ [Store.Array os0]).
  assert (Hcs : length cs = n) by (unfold cs; apply length_map).
  assert (Hlen1 : length h1 = Datatypes.S aP)
    by (unfold h1, aP; rewrite !length_app, Hcs; simpl; lia).
  assert (Hel1 : Store.elements h1 aP = os0).
  { unfold h1, aP. rewrite app_assoc, <- Hcs, <- length_app.
    apply store_elements_new. }
  unfold Store.array_sort, Store.alloc. rewrite Hel1.
  set (os := js_sort (fun x y => fcfs_compare (Store.fields h1 x)
                                              (Store.fields h1 y)) os0).
  set (h2 := <[aP := Store.Array os]> h1).
  assert (Hlen2 : length h2 = Datatypes.S aP)
    by (unfold h2; rewrite length_insert; assumption).
  set (rQ := length h2). set (h3 := h2 ++ [Store.Array []]).
  assert (Hos0 : forall o, In o os0 -> (length h <= o < aP)%nat)
    by (intros o Ho; apply in_seq in Ho; unfold aP; lia).
  assert (Hperm : Permutation os os0) by apply js_sort_perm.
  assert (Hobj3 : forall o, In o os0 -> rr_object h3 o = rr_object h1 o).
  { intros o Ho. specialize (Hos0 o Ho). unfold rr_object, h3.
    rewrite store_fields_app, store_remaining_burst_app by lia.
    unfold h2.
    rewrite store_fields_insert_ne, store_remaining_burst_insert_ne by lia.
    reflexivity. }
  assert (Hmade : List.map (rr_object h1) os0
                  = List.map (fun p => mkRR p (burstTime p))
                             (List.map (Store.fields h) refs)).
  { pose proof (store_lookup_made
                  (fun oc => mkRR match oc with
                                  | Some (Store.Object p _) => p
                                  | _ => mkProcess [] 0 0 0 0
                                  end
                                  (default 0 match oc with
                                             | Some (Store.Object _ r) => r
                                             | _ => None
                                             end))
                  cs h [Store.Array os0]) as Hm.
    rewrite Hcs in Hm. rewrite List.map_map.
    etransitivity; [exact Hm|]. unfold cs. rewrite List.map_map.
    reflexivity. }
  assert (Hrel : rr_store_related os aP rQ
                   (rr_objects (List.map (Store.fields h) refs)) [] h3).
  { unfold rr_store_related, h3, rQ.
    rewrite length_app, Hlen2. simpl.
    rewrite store_elements_app by lia. fold h3.
    split; [lia|]. split; [|split; [|split; [|split]]].
    - apply NoDup_ListNoDup. eapply Permutation_NoDup;
        [symmetry; exact Hperm|]. apply seq_NoDup.
    - apply List.Forall_forall. intros o Ho.
      apply (Permutation_in _ Hperm), Hos0 in Ho. lia.
    - unfold h2. apply store_elements_insert_eq. lia.
    - unfold rr_objects. rewrite <- Hmade.
      rewrite <- (js_sort_map (rr_object h1)
                    (fun a b => fcfs_compare (rr_proc a) (rr_proc b)) os0).
      transitivity (List.map (rr_object h1) os).
      + apply map_ext_in. intros o Ho. apply Hobj3.
        apply (Permutation_in _ Hperm). assumption.
      + reflexivity.
    - replace (Datatypes.S aP) with (length h2) by assumption.
      unfold h3. rewrite store_elements_new. constructor. }
  pose proof (rr_related_enqueueArrivals os aP rQ 0 _ _
                (rr_related_mk os aP rQ [] _ _ 0 O _ Hrel)) as Hinit.
  fold (rr_init (List.map (Store.fields h) refs)) in Hinit.
  pose proof (store_loop_simulates (rr_related os aP rQ)
                rr_cond (rr_body quantum) (Store.rr_cond aP rQ)
                (Store.rr_body aP rQ quantum)
                (rr_related_cond os aP rQ)
                (fun s t Hst _ => rr_related_body os aP rQ quantum s t Hst)
                fuel _ _ Hinit) as Hsim.
  unfold scheduleRoundRobin. fold rQ. fold h3.
  destruct (while rr_cond (rr_body quantum) fuel _) as [[k s']|];
    destruct (Store.loop _ _ fuel _) as [[k'|] t']; simpl;
    try contradiction; [|reflexivity].
  destruct Hsim as [-> (Hg & _)]. rewrite Hg. reflexivity.
Qed.

(** *** The entry point *)

Lemma store_dispatch_agrees fuel procs algorithm quantum h :
  Forall (fun o => (o < length h)%nat) (Store.elements h procs) ->
  fst (Store.dispatch fuel procs algorithm quantum h)
  = dispatch fuel (List.map (Store.fields h) (Store.elements h procs))
      algorithm quantum
  /\ h `prefix_of` snd (Store.dispatch fuel procs algorithm quantum h).
Proof.
  intros Hin. unfold Store.dispatch, dispatch.
  destruct (decide (algorithm = str "FCFS")).
  { destruct (store_scheduleFCFS_agrees h procs Hin) as [Hg Hp].
    destruct (Store.scheduleFCFS procs h) as [g h']. simpl in *.
    rewrite Hg, length_map. auto. }
  destruct (decide (algorithm = str "SJF")).
  { destruct (store_np_schedule_agrees sjf_compare fuel procs h Hin)
      as [Hg Hp]. unfold Store.scheduleSJF, scheduleSJF.
    destruct (Store.np_schedule sjf_compare fuel procs h) as [[kg|] h'];
      simpl in *; rewrite <- Hg; auto. }
  destruct (decide (algorithm = str "Priority")).
  { destruct (store_np_schedule_agrees priority_compare fuel procs h Hin)
      as [Hg Hp]. unfold Store.schedulePriority, schedulePriority.
    destruct (Store.np_schedule priority_compare fuel procs h)
      as [[kg|] h']; simpl in *; rewrite <- Hg; auto. }
  destruct (decide (algorithm = str "RoundRobin")); [|simpl; auto].
  destruct (store_scheduleRoundRobin_agrees fuel procs quantum h) as [Hg Hp].
  destruct (Store.scheduleRoundRobin fuel procs quantum h) as [[kg|] h'];
    simpl in *; rewrite <- Hg; auto.
Qed.

(** The engine on the store computes what the engine on values computes
    from the descriptors that the array of the caller reads as. *)
Theorem store_simulateSchedule_agrees
    (localeCompare : jsstring -> jsstring -> Z) (fuel : nat)
    (processes : nat) (algorithm : jsstring) (quantum : option Z)
    (h : Store.store) :
  fst (Store.simulateSchedule localeCompare fuel processes algorithm quantum
         h)
  = simulateSchedule localeCompare fuel
      (List.map (Store.fields h) (Store.elements h processes))
      algorithm quantum.
Proof.
  unfold Store.simulateSchedule, simulateSchedule.
  rewrite List.map_id, length_map.
  destruct (length (Store.elements h processes) =? 0)%nat; [reflexivity|].
  rewrite store_array_map_spec.
  set (refs := Store.elements h processes).
  set (cs := List.map (fun p => Store.Object (Store.fields h p)
                                  (Store.remaining_burst h p)) refs).
  set (os0 := seq (length h) (length refs)).
  set (procs := (length h + length refs)%nat).
  set (h1 := h ++ cs ++ [Store.Array os0]).
  assert (Hcs : length cs = length refs) by (unfold cs; apply length_map).
  assert (Hlen1 : length h1 = Datatypes.S procs)
    by (unfold h1, procs; rewrite !length_app, Hcs; simpl; lia).
  assert (Hel1 : Store.elements h1 procs = os0).
  { unfold h1, procs. rewrite app_assoc, <- Hcs, <- length_app.
    apply store_elements_new. }
  assert (Hin : Forall (fun o => (o < length h1)%nat)
                       (Store.elements h1 procs)).
  { rewrite Hel1, Hlen1. apply List.Forall_forall. intros o Ho.
    apply in_seq in Ho. unfold procs. lia. }
  assert (Hps : List.map (Store.fields h1) os0
                = List.map (Store.fields h) refs).
  { pose proof (store_lookup_made
                  (fun oc => match oc with
                             | Some (Store.Object p _) => p
                             | _ => mkProcess [] 0 0 0 0
                             end)
                  cs h [Store.Array os0]) as Hm.
    rewrite Hcs in Hm. etransitivity; [exact Hm|].
    unfold cs. rewrite List.map_map. reflexivity. }
  destruct (store_dispatch_agrees fuel procs algorithm (default 2 quantum)
              h1 Hin) as [Hd Hp].
  rewrite Hel1, Hps in Hd.
  destruct (Store.dispatch fuel procs algorithm (default 2 quantum) h1)
    as [[[k g]|m|] h2]; simpl in Hd, Hp; rewrite <- Hd; simpl;
    [|reflexivity|reflexivity].
  rewrite (store_prefix_elements h1 h2 procs Hp) by lia.
  rewrite Hel1, <- Hps. do 2 f_equal. apply map_ext_in. intros o Ho.
  apply store_prefix_fields; [assumption|].
  apply in_seq in Ho. unfold procs in Hlen1. lia.
Qed.

(* ================================================================== *)
(** ** The descriptors of the caller *)
(* ================================================================== *)

(** C8.  Whatever the list of processes, the policy, the quantum and the
    number of turns the loops are allowed, [simulateSchedule], run on the
    store of its caller, ends as the engine on values does on the
    descriptors that the array of the caller reads as, and leaves every
    cell that the store held before the call as it was: the array of the
    caller has the same elements in the same order, and every descriptor
    has the same identifier, arrival time, burst time, priority and
    insertion order, and no remaining burst time is attached to it, round
    robin included.  For the store in which a caller holds a list of
    descriptors, the array still reads as that list after the call. *)
Theorem caller_descriptors_unchanged
    (localeCompare : jsstring -> jsstring -> Z) (fuel : nat)
    (algorithm : jsstring) (quantum : option Z) :
  (forall (processes : nat) (h : Store.store),
     let h' := snd (Store.simulateSchedule localeCompare fuel processes
                      algorithm quantum h) in
     fst (Store.simulateSchedule localeCompare fuel processes algorithm
            quantum h)
     = simulateSchedule localeCompare fuel
         (List.map (Store.fields h) (Store.elements h processes))
         algorithm quantum
     /\ (forall l c, h !! l = Some c -> h' !! l = Some c)
     /\ (exists made, h' = h ++ made)
     /\ (forall l, h !! processes = Some (Store.Array l) ->
                   Store.elements h' processes = l)
     /\ (forall o p r, h !! o = Some (Store.Object p r) ->
                       Store.fields h' o = p
                       /\ Store.remaining_burst h' o = r))
  /\ (forall descriptors : list Process,
        let a := fst (Store.caller_store descriptors) in
        let h := snd (Store.caller_store descriptors) in
        let h' := snd (Store.simulateSchedule localeCompare fuel a algorithm
                         quantum h) in
        List.map (Store.fields h) (Store.elements h a) = descriptors
        /\ List.map (Store.fields h') (Store.elements h' a) = descriptors
        /\ List.map (Store.remaining_burst h') (Store.elements h' a)
           = List.map (fun _ => None) descriptors).
Proof.
  assert (Hgen : forall (processes : nat) (h : Store.store) l c,
             h !! l = Some c ->
             snd (Store.simulateSchedule localeCompare fuel processes
                    algorithm quantum h) !! l = Some c).
  { intros processes h l c. apply store_frame_lookup.
    apply store_simulateSchedule_frame. }
  split.
  - intros processes h h'.
    split; [apply store_simulateSchedule_agrees|].
    split; [apply Hgen|]. split; [|split].
    + destruct (store_simulateSchedule_frame localeCompare fuel processes
                  algorithm quantum h) as [[made Hm] _].
      exists made. exact Hm.
    + intros l Hl. unfold Store.elements, h'. rewrite (Hgen _ _ _ _ Hl).
      reflexivity.
    + intros o p r Ho. unfold Store.fields, Store.remaining_burst, h'.
      rewrite (Hgen _ _ _ _ Ho). split; reflexivity.
  - intros descriptors a h h'.
    assert (Ha : h !! a = Some (Store.Array (seq 0 (length descriptors)))).
    { unfold a, h, Store.caller_store. simpl.
      rewrite lookup_app_r by (rewrite length_map; lia).
      rewrite length_map, Nat.sub_diag. reflexivity. }
    assert (He : Store.elements h a = seq 0 (length descriptors))
      by apply store_caller_elements.
    assert (He' : Store.elements h' a = seq 0 (length descriptors)).
    { unfold Store.elements, h'. rewrite (Hgen _ _ _ _ Ha). reflexivity. }
    assert (Hobj : forall i p, descriptors !! i = Some p ->
                               h !! i = Some (Store.Object p None)).
    { intros i p Hp. unfold h, Store.caller_store. simpl.
      rewrite lookup_app_l
        by (rewrite length_map; eapply lookup_lt_Some; eauto).
      rewrite map_fmap, list_lookup_fmap, Hp. reflexivity. }
    rewrite He, He'. split; [apply store_caller_fields|]. split.
    + apply list_eq. intros i.
      rewrite map_fmap, list_lookup_fmap.
      destruct (descriptors !! i) as [p|] eqn:Hp.
      * rewrite lookup_seq_lt by (eapply lookup_lt_Some; eauto). simpl.
        unfold Store.fields, h'. rewrite (Hgen _ _ _ _ (Hobj i p Hp)).
        reflexivity.
      * apply lookup_ge_None_1 in Hp. rewrite lookup_seq_ge by assumption.
        reflexivity.
    + apply list_eq. intros i.
      rewrite !map_fmap, !list_lookup_fmap.
      destruct (descriptors !! i) as [p|] eqn:Hp.
      * rewrite lookup_seq_lt by (eapply lookup_lt_Some; eauto). simpl.
        unfold Store.remaining_burst, h'.
        rewrite (Hgen _ _ _ _ (Hobj i p Hp)). reflexivity.
      * apply lookup_ge_None_1 in Hp. rewrite lookup_seq_ge by assumption.
        reflexivity.
Qed.

(** Round robin on the store of a caller: the timeline of the test, the
    descriptors and the array of the caller as they were, and behind them
    the copies on which the remaining burst times were counted down. *)
Example caller_store_round_robin :
  let '(a, h) := Store.caller_store two_processes in
  let '(r, h') := Store.simulateSchedule ordinal_compare 10 a
                    (str "RoundRobin") (Some 2) h in
  r = simulateSchedule ordinal_compare 10 two_processes (str "RoundRobin")
        (Some 2)
  /\ take 3 h' = h
  /\ List.map (Store.remaining_burst h') [6%nat; 7%nat] = [Some 0; Some 0].
Proof. vm_compute. repeat split. Qed.


(* ================================================================== *)
(** ** What a returned call went through *)
(* ================================================================== *)

(** A timeline comes from one of the four algorithms. *)
Lemma dispatch_returned fuel procs algorithm quantum k g :
  dispatch fuel procs algorithm quantum = Returned (k, g) ->
  (algorithm = str "FCFS" /\ g = scheduleFCFS procs)
  \/ (algorithm = str "SJF"
      /\ np_schedule sjf_compare fuel procs = Some (k, g))
  \/ (algorithm = str "Priority"
      /\ np_schedule priority_compare fuel procs = Some (k, g))
  \/ (algorithm = str "RoundRobin"
      /\ scheduleRoundRobin fuel procs quantum = Some (k, g)).
Proof.
  unfold dispatch, scheduleSJF, schedulePriority.
  destruct (decide (algorithm = str "FCFS")) as [->|_].
  { intros [= _ <-]. left. split; reflexivity. }
  destruct (decide (algorithm = str "SJF")) as [->|_].
  { destruct (np_schedule sjf_compare fuel procs) as [kg|];
      [|discriminate]. intros [= ->]. right. left. split; reflexivity. }
  destruct (decide (algorithm = str "Priority")) as [->|_].
  { destruct (np_schedule priority_compare fuel procs) as [kg|];
      [|discriminate]. intros [= ->]. right. right. left.
    split; reflexivity. }
  destruct (decide (algorithm = str "RoundRobin")) as [->|_];
    [|discriminate].
  destruct (scheduleRoundRobin fuel procs quantum) as [kg|];
    [|discriminate]. intros [= ->]. right. right. right. split; reflexivity.
Qed.


(** A result comes from the guard on the empty list or from the metrics of
    a timeline. *)
Lemma simulateSchedule_returned localeCompare fuel processes algorithm
    quantum r :
  simulateSchedule localeCompare fuel processes algorithm quantum
  = Returned r ->
  (processes = [] /\ r = empty_result)
  \/ (processes <> []
      /\ exists k g,
           dispatch fuel processes algorithm (default 2 quantum)
           = Returned (k, g)
           /\ r = computeMetrics localeCompare processes g).
Proof.
  destruct processes as [|p l].
  - rewrite simulateSchedule_empty. intros [= <-]. left.
    split; reflexivity.
  - rewrite simulateSchedule_nonempty by discriminate.
    destruct (dispatch fuel (p :: l) algorithm (default 2 quantum))
      as [[k g]| |]; try discriminate.
    intros [= <-]. right. split; [discriminate|]. eauto.
Qed.

Lemma np_schedule_returned cmp fuel processes k g :
  np_schedule cmp fuel processes = Some (k, g) ->
  exists st,
    while np_cond (np_body cmp) fuel (mkNp [] processes 0) = Some (k, st)
    /\ g = np_gantt st.
Proof.
  unfold np_schedule.
  destruct (while np_cond (np_body cmp) fuel (mkNp [] processes 0))
    as [[k' st]|]; [|discriminate].
  intros [= -> <-]. eauto.
Qed.

Lemma scheduleRoundRobin_returned fuel processes quantum k g :
  scheduleRoundRobin fuel processes quantum = Some (k, g) ->
  exists st,
    while rr_cond (rr_body quantum) fuel (rr_init processes) = Some (k, st)
    /\ g = rr_gantt st.
Proof.
  unfold scheduleRoundRobin.
  destruct (while rr_cond (rr_body quantum) fuel (rr_init processes))
    as [[k' st]|]; [|discriminate].
  intros [= -> <-]. eauto.
Qed.



(* ================================================================== *)
(** ** No process runs before it arrives *)
(* ================================================================== *)

Lemma after_arrival_nil l : after_arrival l [].
Proof. intros s x []. Qed.

Lemma after_arrival_idle l g a b :
  after_arrival l g -> after_arrival l (g ++ [mkSegment None a b]).
Proof.
  intros H s x Hs Hx. apply in_app_iff in Hs.
  destruct Hs as [Hs|[<-|[]]]; [eauto|discriminate].
Qed.

Lemma after_arrival_run l g p t e :
  after_arrival l g -> In p l -> arrivalTime p <= t ->
  after_arrival l (g ++ [mkSegment (Some (pid p)) t e]).
Proof.
  intros H Hp Ht s x Hs Hx. apply in_app_iff in Hs.
  destruct Hs as [Hs|[<-|[]]]; [eauto|].
  simpl in Hx. injection Hx as <-. exists p. auto.
Qed.

Lemma fcfs_fold_after_arrival procs l : forall g t,
  (forall p, In p l -> In p procs) -> after_arrival procs g ->
  after_arrival procs (fst (fold_left fcfs_step l (g, t))).
Proof.
  induction l as [|p l IH]; intros g t Hl Hg; [assumption|].
  change (fold_left fcfs_step (p :: l) (g, t))
    with (fold_left fcfs_step l (fcfs_step (g, t) p)).
  assert (Hstep : after_arrival procs (fst (fcfs_step (g, t) p))).
  { assert (Hp : In p procs) by (apply Hl; left; reflexivity).
    unfold fcfs_step. destruct (Z.ltb_spec t (arrivalTime p)); simpl.
    - apply after_arrival_run; [apply after_arrival_idle| |lia]; assumption.
    - apply after_arrival_run; assumption. }
  destruct (fcfs_step (g, t) p) as [g' t']. apply IH; [|assumption].
  intros q Hq. apply Hl. right. assumption.
Qed.

Lemma np_after_arrival_step procs cmp st :
  (forall p, In p (np_remaining st) -> In p procs)
  /\ after_arrival procs (np_gantt st) ->
  np_cond st = true ->
  (forall p, In p (np_remaining (np_body cmp st)) -> In p procs)
  /\ after_arrival procs (np_gantt (np_body cmp st)).
Proof.
  destruct st as [g R t]. intros [HR Hg] Hcond. apply np_cond_true in Hcond.
  simpl in *. destruct (arrived t R) eqn:Hav.
  - rewrite np_body_idle by assumption. simpl. split; [assumption|].
    apply after_arrival_idle. assumption.
  - destruct (np_body_run cmp g R t)
      as (sel & R1 & q & R2 & Hsel & _ & HRq & _ & ->); [congruence|].
    apply arrived_In in Hsel. destruct Hsel as [Hsel Harr].
    simpl. split; [|apply after_arrival_run; auto].
    intros p' Hp. apply HR. subst R. apply in_app_iff in Hp.
    apply in_app_iff. simpl. tauto.
Qed.

Lemma rr_arrival_init procs :
  Forall (fun p => 0 < burstTime p) procs ->
  rr_arrival_inv procs (rr_init procs).
Proof.
  intros Hb. split; [apply rr_init_inv; assumption|].
  unfold rr_init. fold (rr_objects procs).
  destruct (enqueueArrivals_spec 0 [] (rr_objects procs) [] 0 0)
    as (k & -> & Hk & Hin & _); [lia|].
  simpl. split; [|split; [|apply after_arrival_nil]].
  - eapply Permutation_Forall; [symmetry; apply rr_objects_perm|].
    apply List.Forall_forall. intros o Ho. apply in_map_iff in Ho.
    destruct Ho as (p & <- & Hp). assumption.
  - apply Forall_forall. intros j Hj. apply elem_of_seq in Hj.
    destruct (lookup_lt_is_Some_2 (rr_objects procs) j) as [o Ho]; [lia|].
    exists o. split; [assumption|]. apply (Hin j); [lia|assumption].
Qed.

Lemma rr_arrival_step procs quantum st :
  1 <= quantum -> rr_arrival_inv procs st -> rr_cond st = true ->
  rr_arrival_inv procs (rr_body quantum st).
Proof.
  intros Hq (Hinv & Hobj & Hqueue & Hg) Hcond.
  split; [apply rr_inv_step; assumption|].
  destruct st as [g a qu t i].
  destruct Hinv as (Hnd & Hlt & Hi & Hpos & _ & _).
  unfold rr_pending in Hpos. simpl in *.
  destruct qu as [|c rest].
  - apply rr_cond_true in Hcond. simpl in Hcond.
    destruct Hcond as [Hcond|Hcond]; [congruence|].
    destruct (rr_body_idle quantum g a t i Hcond)
      as (next & k & Hn & Hk1 & Hk & _ & -> & Hin & _).
    simpl. split; [assumption|]. split; [|apply after_arrival_idle; auto].
    apply Forall_forall. intros j Hj. apply elem_of_seq in Hj.
    destruct (lookup_lt_is_Some_2 a j) as [o Ho]; [lia|].
    exists o. split; [assumption|]. apply (Hin j); [lia|assumption].
  - apply Forall_cons in Hpos as [(cur & Hcur & Hrem) _].
    apply Forall_cons in Hqueue as [(cur' & Hcur' & Harr) Hrest].
    assert (cur' = cur) as -> by congruence.
    destruct (rr_body_run quantum g a c rest t i cur Hcur Hi)
      as (k & Hk & -> & Hin & _).
    apply NoDup_cons in Hnd as [Hc _].
    pose proof (lookup_lt_Some _ _ _ Hcur) as Hclt.
    set (execTime := Z.min quantum (remainingBurst cur)) in *.
    assert (Hexec : 0 <= execTime) by (unfold execTime; lia).
    rewrite List.Forall_forall in Hobj.
    assert (Hp : In (rr_proc cur) procs).
    { apply Hobj, list_elem_of_In. eapply list_elem_of_lookup_2; eauto. }
    simpl. split; [|split; [|apply after_arrival_run; auto]].
    + apply List.Forall_forall. intros o Ho. apply list_elem_of_In in Ho.
      apply list_elem_of_lookup_1 in Ho. destruct Ho as [j Hj].
      destruct (decide (j = c)) as [->|Hne].
      * rewrite list_lookup_insert_eq in Hj by assumption.
        injection Hj as <-. assumption.
      * rewrite list_lookup_insert_ne in Hj by congruence.
        apply Hobj, list_elem_of_In. eapply list_elem_of_lookup_2; eauto.
    + rewrite Forall_forall in Hrest. apply Forall_forall. intros j Hj.
      apply elem_of_app in Hj as [Hj|Hj].
      { destruct (Hrest j Hj) as (o & Ho & Hoa). exists o.
        rewrite list_lookup_insert_ne by (intros ->; contradiction).
        split; [assumption|lia]. }
      apply elem_of_app in Hj as [Hj|Hj].
      { apply elem_of_seq in Hj.
        destruct (lookup_lt_is_Some_2
                    (<[c := mkRR (rr_proc cur)
                              (remainingBurst cur - execTime)]> a) j)
          as [o Ho]; [rewrite length_insert; lia|].
        exists o. split; [assumption|]. apply (Hin j); [lia|assumption]. }
      destruct (0 <? remainingBurst cur - execTime); [|inversion Hj].
      apply list_elem_of_singleton in Hj. subst j.
      eexists. rewrite list_lookup_insert_eq by assumption.
      split; [reflexivity|]. simpl. lia.
Qed.

Lemma dispatch_after_arrival fuel procs algorithm quantum k g :
  (algorithm = str "RoundRobin" ->
   Forall (fun p => 0 < burstTime p) procs /\ 1 <= quantum) ->
  dispatch fuel procs algorithm quantum = Returned (k, g) ->
  after_arrival procs g.
Proof.
  intros Hrr Hrun.
  assert (Hnp : forall cmp, np_schedule cmp fuel procs = Some (k, g) ->
                            after_arrival procs g).
  { intros cmp Hr. apply np_schedule_returned in Hr.
    destruct Hr as (st & Hr & ->).
    destruct (while_invariant
                (fun st => (forall p, In p (np_remaining st) -> In p procs)
                           /\ after_arrival procs (np_gantt st))
                np_cond (np_body cmp) (np_after_arrival_step procs cmp)
                fuel (mkNp [] procs 0) k st) as [[_ H] _]; auto.
    split; [auto|apply after_arrival_nil]. }
  destruct (dispatch_returned _ _ _ _ _ _ Hrun)
    as [[_ ->] | [[_ Hr] | [[_ Hr] | [Halg Hr]]]]; eauto.
  - unfold scheduleFCFS.
    apply fcfs_fold_after_arrival; [|apply after_arrival_nil].
    intros p. apply js_sort_In.
  - destruct (Hrr Halg) as [Hb Hq].
    apply scheduleRoundRobin_returned in Hr. destruct Hr as (st & Hr & ->).
    destruct (while_invariant (rr_arrival_inv procs) rr_cond
                (rr_body quantum)
                (fun s => rr_arrival_step procs quantum s Hq)
                fuel (rr_init procs) k st) as [(_ & _ & _ & H) _]; auto.
    apply rr_arrival_init. assumption.
Qed.

(** X1. Whatever the policy, no segment of a result runs a process before it
    has arrived: a segment labelled with an identifier starts at or after
    the arrival time of a process of the input that bears this identifier.
    Round robin needs positive burst times and a quantum of at least 1 for
    this; the other policies need nothing. *)
Theorem no_run_before_arrival (localeCompare : jsstring -> jsstring -> Z)
    (fuel : nat) (processes : list Process) (algorithm : jsstring)
    (quantum : option Z) (r : SimulationResult) :
  (algorithm = str "RoundRobin" ->
   Forall (fun p => 0 < burstTime p) processes /\ 1 <= default 2 quantum) ->
  simulateSchedule localeCompare fuel processes algorithm quantum
  = Returned r ->
  forall s x, In s (ganttChart r) -> seg_pid s = Some x ->
    exists p, In p processes /\ pid p = x /\ arrivalTime p <= seg_start s.
Proof.
  intros Hrr Hrun.
  destruct (simulateSchedule_returned _ _ _ _ _ _ Hrun)
    as [[_ ->] | (_ & k & g & Hd & ->)].
  - intros s x [].
  - rewrite computeMetrics_ganttChart.
    apply (dispatch_after_arrival _ _ _ _ _ _ Hrr Hd).
Qed.

Lemma no_run_before_arrival_witness :
  exists p, In p getExampleProcesses /\ pid p = str "P3"
            /\ arrivalTime p <= seg_start (mkSegment (Some (str "P3")) 4 6).
Proof.
  refine (no_run_before_arrival ordinal_compare 40 getExampleProcesses
            (str "RoundRobin") None (example_result "RoundRobin") _ _
            (mkSegment (Some (str "P3")) 4 6) (str "P3") _ _).
  - intros _. split; [repeat constructor|simpl; lia].
  - vm_compute. reflexivity.
  - vm_compute. tauto.
  - reflexivity.
Defined.

(* ================================================================== *)
(** ** The policies without preemption run each process in one piece *)
(* ================================================================== *)














(* ================================================================== *)
(** ** Shortest job first and priority scheduling select the least ready
       process *)
(* ================================================================== *)

(** The first element of a sort by a reflexive, total and transitive
    comparison sorts before every element. *)
Lemma js_sort_head_least {A : Type} (cmp : A -> A -> Z) l m x :
  (forall a, cmp a a <= 0) ->
  (forall a b, 0 < cmp a b -> cmp b a <= 0) ->
  (forall a b c, cmp a b <= 0 -> cmp b c <= 0 -> cmp a c <= 0) ->
  head (js_sort cmp l) = Some m -> In x l -> cmp m x <= 0.
Proof.
  intros Hrefl Htot Htrans Hm Hx.
  pose proof (js_sort_sorted cmp l Htot Htrans) as Hs.
  apply (js_sort_In cmp) in Hx.
  destruct (js_sort cmp l) as [|y S]; [discriminate|].
  injection Hm as ->. inversion Hs as [|? ? _ Hall]; subst.
  destruct Hx as [<-|Hx]; [apply Hrefl|].
  rewrite List.Forall_forall in Hall. auto.
Qed.

Lemma selects_least_nil better procs : selects_least better procs [].
Proof. intros i s x H. discriminate. Qed.

Lemma selects_least_idle better procs g a b :
  selects_least better procs g ->
  selects_least better procs (g ++ [mkSegment None a b]).
Proof.
  intros H i s x Hi Hx. apply lookup_app_Some in Hi.
  destruct Hi as [Hi|[Hlen Hi]].
  - destruct (H i s x Hi Hx) as (sel & Hsel & Hpid & Hleast).
    exists sel. split; [assumption|]. split; [assumption|].
    intros p (Hp & Harr & Hnot). apply Hleast. split; [assumption|].
    split; [assumption|].
    rewrite take_app_le in Hnot
      by (apply lookup_lt_Some in Hi; lia). assumption.
  - destruct (i - length g)%nat; [|discriminate].
    injection Hi as <-. discriminate.
Qed.

Lemma selects_least_run (better : Process -> Process -> Prop) procs g sel t e :
  selects_least better procs g -> In sel procs ->
  (forall p, In p procs -> arrivalTime p <= t ->
             ~ In (Some (pid p)) (List.map seg_pid g) -> better sel p) ->
  selects_least better procs (g ++ [mkSegment (Some (pid sel)) t e]).
Proof.
  intros H Hsel Hleast i s x Hi Hx. apply lookup_app_Some in Hi.
  destruct Hi as [Hi|[Hlen Hi]].
  - destruct (H i s x Hi Hx) as (sel' & Hsel' & Hpid & Hleast').
    exists sel'. split; [assumption|]. split; [assumption|].
    intros p (Hp & Harr & Hnot). apply Hleast'. split; [assumption|].
    split; [assumption|].
    rewrite take_app_le in Hnot
      by (apply lookup_lt_Some in Hi; lia). assumption.
  - destruct (i - length g)%nat eqn:Hd; [|discriminate].
    injection Hi as <-. simpl in Hx. injection Hx as <-.
    exists sel. split; [assumption|]. split; [reflexivity|].
    intros p (Hp & Harr & Hnot). simpl in Harr.
    replace i with (length g) in Hnot by lia.
    rewrite take_app_length in Hnot. auto.
Qed.

Lemma np_select_step cmp procs st :
  (forall a, cmp a a <= 0) ->
  (forall a b, 0 < cmp a b -> cmp b a <= 0) ->
  (forall a b c, cmp a b <= 0 -> cmp b c <= 0 -> cmp a c <= 0) ->
  np_select_inv cmp procs st -> np_cond st = true ->
  np_select_inv cmp procs (np_body cmp st).
Proof.
  intros Hrefl Htot Htrans. destruct st as [g R t].
  intros (Hnd & HR & Hdone & Hleast) Hcond.
  apply np_cond_true in Hcond. unfold np_select_inv in *. simpl in *.
  destruct (arrived t R) eqn:Hav.
  - rewrite np_body_idle by assumption. simpl.
    split; [assumption|]. split; [assumption|]. split.
    + intros p Hp. destruct (Hdone p Hp) as [H|H]; [auto|]. right.
      rewrite List.map_app. apply in_app_iff. auto.
    + apply selects_least_idle. assumption.
  - destruct (np_body_run cmp g R t)
      as (sel & R1 & q & R2 & Hsel & Hhead & HRq & Hpid & ->); [congruence|].
    pose proof Hsel as Hsel'. apply arrived_In in Hsel'.
    destruct Hsel' as [HselR _].
    assert (q = sel) as ->.
    { apply (NoDup_pid_inj R); auto. subst R. apply in_app_iff. simpl. auto. }
    simpl. split; [|split; [|split]].
    + subst R. rewrite List.map_app in *. simpl in Hnd.
      apply NoDup_app in Hnd as (H1 & H12 & H2).
      apply NoDup_cons in H2 as [_ H2]. apply NoDup_app. repeat split; auto.
      intros x Hx Hx2. apply (H12 x Hx). right. assumption.
    + intros p' Hp. apply HR. subst R. apply in_app_iff in Hp.
      apply in_app_iff. simpl. tauto.
    + intros p' Hp. rewrite List.map_app, !in_app_iff. simpl.
      destruct (Hdone p' Hp) as [H|H]; [|auto].
      subst R. apply in_app_iff in H. destruct H as [H|[<-|H]];
        [tauto| |tauto].
      right. right. left. reflexivity.
    + apply selects_least_run; [assumption|auto|].
      intros p' Hp Harr Hnot.
      apply (js_sort_head_least cmp (arrived t R)); auto.
      apply arrived_In. split; [|assumption].
      destruct (Hdone p' Hp) as [H|H]; [assumption|contradiction].
Qed.

Lemma np_schedule_selects cmp fuel procs k g :
  (forall a, cmp a a <= 0) ->
  (forall a b, 0 < cmp a b -> cmp b a <= 0) ->
  (forall a b c, cmp a b <= 0 -> cmp b c <= 0 -> cmp a c <= 0) ->
  NoDup (List.map pid procs) ->
  np_schedule cmp fuel procs = Some (k, g) ->
  selects_least (fun a b => cmp a b <= 0) procs g.
Proof.
  intros Hrefl Htot Htrans Hnd Hr. apply np_schedule_returned in Hr.
  destruct Hr as (st & Hr & ->).
  destruct (while_invariant (np_select_inv cmp procs) np_cond (np_body cmp)
              (fun s => np_select_step cmp procs s Hrefl Htot Htrans)
              fuel (mkNp [] procs 0) k st)
    as [(_ & _ & _ & H) _]; auto.
  split; [assumption|]. split; [auto|]. split; [auto|].
  apply selects_least_nil.
Qed.

Lemma sjf_compare_order a b : sjf_compare a b <= 0 <-> sjf_order a b.
Proof.
  unfold sjf_compare, sjf_order, arrival_order.
  destruct (Z.eqb_spec (burstTime a) (burstTime b));
    destruct (Z.eqb_spec (arrivalTime a) (arrivalTime b)); simpl; lia.
Qed.

Lemma priority_compare_order a b :
  priority_compare a b <= 0 <-> priority_order a b.
Proof.
  unfold priority_compare, priority_order, arrival_order.
  destruct (Z.eqb_spec (priority a) (priority b));
    destruct (Z.eqb_spec (arrivalTime a) (arrivalTime b)); simpl; lia.
Qed.

Lemma selects_least_impl (R R' : Process -> Process -> Prop) procs g :
  (forall a b, R a b -> R' a b) ->
  selects_least R procs g -> selects_least R' procs g.
Proof.
  intros Himpl H i s x Hi Hx.
  destruct (H i s x Hi Hx) as (sel & Hsel & Hpid & Hleast).
  exists sel. auto.
Qed.

(** X4. Under shortest job first every segment that is not idle runs a process
    whose burst time is the least among the processes that are ready when
    the segment starts, that is, have arrived and have not run yet; among
    equal burst times the earliest arrival runs, then the lowest insertion
    order.  Identifiers must differ from one another. *)
Theorem sjf_runs_shortest_ready (localeCompare : jsstring -> jsstring -> Z)
    (fuel : nat) (processes : list Process) (quantum : option Z)
    (r : SimulationResult) :
  NoDup (List.map pid processes) ->
  simulateSchedule localeCompare fuel processes (str "SJF") quantum
  = Returned r ->
  selects_least sjf_order processes (ganttChart r).
Proof.
  intros Hnd Hrun.
  destruct (simulateSchedule_returned _ _ _ _ _ _ Hrun)
    as [[-> ->] | (_ & k & g & Hd & ->)]; [apply selects_least_nil|].
  rewrite computeMetrics_ganttChart. rewrite dispatch_SJF in Hd.
  unfold scheduleSJF in Hd.
  destruct (np_schedule sjf_compare fuel processes) as [kg|] eqn:Hr;
    [|discriminate].
  injection Hd as ->.
  apply (selects_least_impl (fun a b => sjf_compare a b <= 0)).
  { intros a b. apply sjf_compare_order. }
  apply (np_schedule_selects sjf_compare fuel processes k); auto.
  - intros a. apply sjf_compare_order. unfold sjf_order, arrival_order. lia.
  - intros a b. rewrite !sjf_compare_order.
    unfold sjf_order, arrival_order. unfold sjf_compare.
    destruct (Z.eqb_spec (burstTime a) (burstTime b));
      destruct (Z.eqb_spec (arrivalTime a) (arrivalTime b)); simpl; lia.
  - intros a b c. rewrite !sjf_compare_order.
    unfold sjf_order, arrival_order. lia.
Qed.

Lemma sjf_runs_shortest_ready_witness :
  selects_least sjf_order getExampleProcesses
    (ganttChart (example_result "SJF")).
Proof.
  apply (sjf_runs_shortest_ready ordinal_compare 40 getExampleProcesses
           None).
  - apply (bool_decide_unpack _). vm_compute. exact I.
  - vm_compute. reflexivity.
Defined.

(** X5. Under priority scheduling every segment that is not idle runs a
    process whose priority number is the least among the processes that
    are ready when the segment starts; among equal priorities the earliest
    arrival runs, then the lowest insertion order.  Identifiers must differ
    from one another. *)
Theorem priority_runs_most_urgent_ready
    (localeCompare : jsstring -> jsstring -> Z) (fuel : nat)
    (processes : list Process) (quantum : option Z) (r : SimulationResult) :
  NoDup (List.map pid processes) ->
  simulateSchedule localeCompare fuel processes (str "Priority") quantum
  = Returned r ->
  selects_least priority_order processes (ganttChart r).
Proof.
  intros Hnd Hrun.
  destruct (simulateSchedule_returned _ _ _ _ _ _ Hrun)
    as [[-> ->] | (_ & k & g & Hd & ->)]; [apply selects_least_nil|].
  rewrite computeMetrics_ganttChart. rewrite dispatch_Priority in Hd.
  unfold schedulePriority in Hd.
  destruct (np_schedule priority_compare fuel processes) as [kg|] eqn:Hr;
    [|discriminate].
  injection Hd as ->.
  apply (selects_least_impl (fun a b => priority_compare a b <= 0)).
  { intros a b. apply priority_compare_order. }
  apply (np_schedule_selects priority_compare fuel processes k); auto.
  - intros a. apply priority_compare_order.
    unfold priority_order, arrival_order. lia.
  - intros a b. rewrite !priority_compare_order.
    unfold priority_order, arrival_order. unfold priority_compare.
    destruct (Z.eqb_spec (priority a) (priority b));
      destruct (Z.eqb_spec (arrivalTime a) (arrivalTime b)); simpl; lia.
  - intros a b c. rewrite !priority_compare_order.
    unfold priority_order, arrival_order. lia.
Qed.

Lemma priority_runs_most_urgent_ready_witness :
  selects_least priority_order getExampleProcesses
    (ganttChart (example_result "Priority")).
Proof.
  apply (priority_runs_most_urgent_ready ordinal_compare 40
           getExampleProcesses None).
  - apply (bool_decide_unpack _). vm_compute. exact I.
  - vm_compute. reflexivity.
Defined.

(* ================================================================== *)
(** ** The slices of round robin *)
(* ================================================================== *)














(* ================================================================== *)
(** ** What the metrics read in a timeline *)
(* ================================================================== *)












(* ================================================================== *)
(** ** The rows of the metrics *)
(* ================================================================== *)

Lemma computeMetrics_processMetrics localeCompare processes g :
  exists f c,
    processMetrics (computeMetrics localeCompare processes g)
    = js_sort (fun a b => localeCompare (pm_pid a) (pm_pid b))
        (List.map (process_metrics f c) processes).
Proof.
  unfold computeMetrics.
  destruct (fold_left record_segment g (∅, ∅)) as [f c]. simpl. eauto.
Qed.

(** X11. The metrics of a result have one row for each process of the input,
    with its identifier, arrival time, burst time and priority, and the
    rows are in ascending order of identifier for [localeCompare] whenever
    that comparison is total and transitive. *)
Theorem one_row_per_process (localeCompare : jsstring -> jsstring -> Z)
    (fuel : nat) (processes : list Process) (algorithm : jsstring)
    (quantum : option Z) (r : SimulationResult) :
  simulateSchedule localeCompare fuel processes algorithm quantum
  = Returned r ->
  Permutation (List.map row_key (processMetrics r))
              (List.map process_key processes)
  /\ ((forall a b, 0 < localeCompare a b -> localeCompare b a <= 0) ->
      (forall a b c, localeCompare a b <= 0 -> localeCompare b c <= 0 ->
                     localeCompare a c <= 0) ->
      Sorted.StronglySorted
        (fun a b => localeCompare (pm_pid a) (pm_pid b) <= 0)
        (processMetrics r)).
Proof.
  intros Hrun.
  destruct (simulateSchedule_returned _ _ _ _ _ _ Hrun)
    as [[-> ->] | (_ & k & g & Hd & ->)].
  - split; [reflexivity|]. intros _ _. constructor.
  - destruct (computeMetrics_processMetrics localeCompare processes g)
      as (f & c & ->).
    split.
    + rewrite js_sort_perm, List.map_map. reflexivity.
    + intros Htot Htrans.
      apply (js_sort_sorted
               (fun a b => localeCompare (pm_pid a) (pm_pid b))).
      * intros a b. apply Htot.
      * intros a b c'. apply Htrans.
Qed.

Lemma ordinal_compare_total a : forall b,
  0 < ordinal_compare a b -> ordinal_compare b a <= 0.
Proof.
  induction a as [|x a IH]; intros [|y b]; simpl; try lia.
  destruct (N.ltb_spec x y), (N.ltb_spec y x); try lia. apply IH.
Qed.

Lemma ordinal_compare_trans a : forall b c,
  ordinal_compare a b <= 0 -> ordinal_compare b c <= 0 ->
  ordinal_compare a c <= 0.
Proof.
  induction a as [|x a IH]; intros [|y b] [|z c]; simpl; try lia.
  destruct (N.ltb_spec x y), (N.ltb_spec y x), (N.ltb_spec y z),
    (N.ltb_spec z y), (N.ltb_spec x z), (N.ltb_spec z x); try lia.
  apply IH.
Qed.

Lemma one_row_per_process_witness :
  Permutation (List.map row_key (processMetrics (example_result "SJF")))
              (List.map process_key getExampleProcesses)
  /\ Sorted.StronglySorted
       (fun a b => ordinal_compare (pm_pid a) (pm_pid b) <= 0)
       (processMetrics (example_result "SJF")).
Proof.
  destruct (one_row_per_process ordinal_compare 40 getExampleProcesses
              (str "SJF") None (example_result "SJF")) as [Hperm Hsorted].
  - vm_compute. reflexivity.
  - split; [exact Hperm|].
    apply Hsorted;
      [exact ordinal_compare_total|exact ordinal_compare_trans].
Defined.

(* ================================================================== *)
(** ** Without preemption a process waits until it responds *)
(* ================================================================== *)






(* ================================================================== *)
(** ** Integers among the rationals *)
(* ================================================================== *)

Lemma Z2Qc_le a b : a <= b <-> (Z2Qc a <= Z2Qc b)%Qc.
Proof.
  unfold Qcle, Z2Qc. simpl. rewrite !Qred_correct, <- Zle_Qle. reflexivity.
Qed.

Lemma Z2Qc_lt a b : a < b <-> (Z2Qc a < Z2Qc b)%Qc.
Proof.
  unfold Qclt, Z2Qc. simpl. rewrite !Qred_correct, <- Zlt_Qlt. reflexivity.
Qed.









(* ================================================================== *)
(** ** Busy time, idle time and utilization of a valid run *)
(* ================================================================== *)














(* ================================================================== *)
(** ** The averages of a valid run *)
(* ================================================================== *)





(* ================================================================== *)
(** ** Round robin with a long quantum is first come first served *)
(* ================================================================== *)

Lemma rr_objects_sorted_procs procs :
  rr_proc <$> rr_objects procs = js_sort fcfs_compare procs.
Proof.
  unfold rr_objects. rewrite <- map_fmap.
  rewrite (js_sort_map rr_proc fcfs_compare), List.map_map. simpl.
  rewrite List.map_id. reflexivity.
Qed.

Lemma fcfs_step_wait st p :
  fcfs_step st p
  = (fst (fcfs_wait st p)
       ++ [mkSegment (Some (pid p)) (snd (fcfs_wait st p))
                     (snd (fcfs_wait st p) + burstTime p)],
     snd (fcfs_wait st p) + burstTime p).
Proof.
  destruct st as [g t]. unfold fcfs_step, fcfs_wait.
  destruct (t <? arrivalTime p); reflexivity.
Qed.

Lemma fcfs_wait_arrived g t p :
  arrivalTime p <= t -> fcfs_wait (g, t) p = (g, t).
Proof.
  intros H. unfold fcfs_wait. destruct (Z.ltb_spec t (arrivalTime p)); [lia|].
  reflexivity.
Qed.

Lemma fcfs_prefix_S procs j p :
  js_sort fcfs_compare procs !! j = Some p ->
  fcfs_prefix procs (Datatypes.S j) = fcfs_step (fcfs_prefix procs j) p.
Proof.
  intros Hp. unfold fcfs_prefix. rewrite (take_S_r _ _ _ Hp).
  rewrite fold_left_app. reflexivity.
Qed.

Lemma fcfs_prefix_all procs :
  fst (fcfs_prefix procs (length (js_sort fcfs_compare procs)))
  = scheduleFCFS procs.
Proof. unfold fcfs_prefix, scheduleFCFS. rewrite firstn_all. reflexivity. Qed.

Lemma rr_fcfs_init procs : rr_fcfs_inv procs (rr_init procs).
Proof.
  unfold rr_init. fold (rr_objects procs).
  destruct (enqueueArrivals_spec 0 [] (rr_objects procs) [] 0 0)
    as (k & -> & Hk & Hin & Hout); [lia|].
  pose proof (rr_objects_sorted_procs procs) as Hobj.
  assert (Hlen : length (rr_objects procs)
                 = length (js_sort fcfs_compare procs))
    by (rewrite <- Hobj, length_fmap; reflexivity).
  exists O.
  cbn [rr_readyQueue rr_processIndex rr_allProcesses rr_gantt
       rr_currentTime Nat.add app].
  rewrite Nat.sub_0_r.
  split; [lia|]. split; [reflexivity|]. split; [assumption|].
  assert (Harr : forall c p, (c < k)%nat ->
            js_sort fcfs_compare procs !! c = Some p -> arrivalTime p <= 0).
  { intros c p Hc Hp. rewrite <- Hobj, list_lookup_fmap in Hp.
    destruct (rr_objects procs !! c) as [o|] eqn:Ho; [|discriminate].
    injection Hp as <-. apply (Hin c); [lia|assumption]. }
  split; [|split; [|split; [|split]]].
  - intros c o _ Ho.
    assert (Hino : In o (List.map (fun p => mkRR p (burstTime p)) procs)).
    { rewrite <- (rr_objects_perm procs). apply list_elem_of_In.
      eapply list_elem_of_lookup_2; eauto. }
    apply in_map_iff in Hino. destruct Hino as (p & <- & _). reflexivity.
  - intros c p Hc. apply Harr. lia.
  - intros p Hp. rewrite <- Hobj, list_lookup_fmap in Hp.
    destruct (rr_objects procs !! k) as [o|] eqn:Ho; [|discriminate].
    injection Hp as <-. apply Hout. assumption.
  - intros <-. reflexivity.
  - intros p Hk0 Hp.
    change (fcfs_prefix procs 0) with (@nil GanttSegment, 0).
    rewrite fcfs_wait_arrived; [reflexivity|]. apply (Harr O); assumption.
Qed.

Lemma rr_fcfs_step procs quantum st :
  Forall (fun p => 0 < burstTime p <= quantum) procs ->
  rr_fcfs_inv procs st -> rr_cond st = true ->
  rr_fcfs_inv procs (rr_body quantum st).
Proof.
  intros Hb. destruct st as [g a qu t i].
  intros (j & Hji & Hqu & Hobj & Hrem & Harr & Hnext & Hdone & Hwait) Hcond.
  cbn [rr_readyQueue rr_processIndex rr_allProcesses rr_gantt
       rr_currentTime] in *.
  set (sorted := js_sort fcfs_compare procs) in *.
  assert (Hlen : length a = length sorted)
    by (rewrite <- Hobj, length_fmap; reflexivity).
  assert (Hlook : forall c o, a !! c = Some o ->
                              sorted !! c = Some (rr_proc o)).
  { intros c o Ho. rewrite <- Hobj, list_lookup_fmap, Ho. reflexivity. }
  destruct (decide (j = i)) as [->|Hne].
  - (* the queue is empty: an idle turn *)
    rewrite Nat.sub_diag in Hqu. simpl in Hqu. subst qu.
    apply rr_cond_true in Hcond. simpl in Hcond.
    destruct Hcond as [Hcond|Hcond]; [congruence|].
    destruct (rr_body_idle quantum g a t i Hcond)
      as (next & k & Hn & Hk1 & Hk & _ & -> & Hin & Hout).
    exists i.
    cbn [rr_readyQueue rr_processIndex rr_allProcesses rr_gantt
         rr_currentTime].
    fold sorted.
    split; [lia|]. split; [f_equal; lia|]. split; [assumption|].
    split; [assumption|]. split; [|split; [|split]].
    + intros c p Hc Hp.
      destruct (lookup_lt_is_Some_2 a c) as [o Ho]; [lia|].
      rewrite (Hlook c o Ho) in Hp. injection Hp as <-.
      apply (Hin c); [lia|assumption].
    + intros p Hp.
      destruct (lookup_lt_is_Some_2 a (i + k)) as [o Ho].
      { apply lookup_lt_Some in Hp. lia. }
      rewrite (Hlook _ o Ho) in Hp. injection Hp as <-. auto.
    + intros Heq. lia.
    + intros p _ Hp. rewrite (Hlook i next Hn) in Hp. injection Hp as <-.
      rewrite <- (Hdone eq_refl). unfold fcfs_wait.
      specialize (Hnext _ (Hlook i next Hn)).
      destruct (Z.ltb_spec t (arrivalTime (rr_proc next))); [|lia].
      reflexivity.
  - (* the process [j] heads the queue and runs to its end *)
    assert (Hlt : (j < i)%nat) by lia.
    replace (i - j)%nat with (Datatypes.S (i - Datatypes.S j)) in Hqu by lia.
    simpl in Hqu. subst qu.
    destruct (lookup_lt_is_Some_2 a j) as [cur Hcur]; [lia|].
    destruct (rr_body_run quantum g a j (seq (Datatypes.S j)
                                           (i - Datatypes.S j)) t i cur Hcur)
      as (k & Hk & -> & Hin & Hout); [lia|].
    pose proof (Hlook j cur Hcur) as Hpj.
    assert (Hbj : 0 < burstTime (rr_proc cur) <= quantum).
    { rewrite List.Forall_forall in Hb. apply Hb.
      apply (js_sort_In fcfs_compare). apply list_elem_of_In.
      eapply list_elem_of_lookup_2; eauto. }
    rewrite (Hrem j cur (Nat.le_refl j) Hcur) in *.
    rewrite Z.min_r in * by lia. rewrite Z.sub_diag in *.
    simpl (0 <? 0) in *. cbv iota in *. rewrite app_nil_r.
    set (a' := <[j := mkRR (rr_proc cur) 0]> a) in *.
    assert (Hobj' : rr_proc <$> a' = sorted).
    { unfold a'. rewrite list_fmap_insert. simpl. rewrite <- Hobj.
      apply list_insert_id. rewrite list_lookup_fmap, Hcur. reflexivity. }
    assert (Hlook' : forall c o, a' !! c = Some o ->
                                 sorted !! c = Some (rr_proc o)).
    { intros c o Ho. rewrite <- Hobj', list_lookup_fmap, Ho. reflexivity. }
    assert (Hlen' : length a' = length a) by apply length_insert.
    assert (Hstate :
              (g ++ [mkSegment (Some (pid (rr_proc cur))) t
                               (t + burstTime (rr_proc cur))],
               t + burstTime (rr_proc cur))
              = fcfs_prefix procs (Datatypes.S j)).
    { rewrite (fcfs_prefix_S procs j (rr_proc cur) Hpj), fcfs_step_wait.
      rewrite <- (Hwait _ Hlt Hpj). reflexivity. }
    assert (Harr' : forall c p, (Datatypes.S j <= c < i + k)%nat ->
              sorted !! c = Some p ->
              arrivalTime p <= t + burstTime (rr_proc cur)).
    { intros c p Hc Hp. destruct (decide (c < i)%nat) as [Hci|Hci].
      - specialize (Harr c p ltac:(lia) Hp). lia.
      - destruct (lookup_lt_is_Some_2 a' c) as [o Ho]; [lia|].
        rewrite (Hlook' c o Ho) in Hp. injection Hp as <-.
        apply (Hin c); [lia|assumption]. }
    exists (Datatypes.S j).
    cbn [rr_readyQueue rr_processIndex rr_allProcesses rr_gantt
         rr_currentTime].
    fold sorted.
    split; [lia|]. split; [|split; [assumption|]].
    { replace (seq i k)
        with (seq (Datatypes.S j + (i - Datatypes.S j)) k)
        by (f_equal; lia).
      rewrite <- seq_app. f_equal. lia. }
    split; [|split; [assumption|split; [|split]]].
    + intros c o Hc Ho. unfold a' in Ho.
      rewrite list_lookup_insert_ne in Ho by lia. apply (Hrem c); [lia|].
      assumption.
    + intros p Hp.
      destruct (lookup_lt_is_Some_2 a' (i + k)) as [o Ho].
      { apply lookup_lt_Some in Hp. lia. }
      rewrite (Hlook' _ o Ho) in Hp. injection Hp as <-. auto.
    + intros _. exact Hstate.
    + intros p Hjk Hp. rewrite <- Hstate.
      rewrite fcfs_wait_arrived; [reflexivity|].
      apply (Harr' (Datatypes.S j)); [lia|assumption].
Qed.

(** X7. When no burst time exceeds the quantum, round robin returns what first
    come first served returns: the same timeline and the same metrics. *)
Theorem round_robin_long_quantum_is_fcfs
    (localeCompare : jsstring -> jsstring -> Z) (fuel : nat)
    (processes : list Process) (quantum : option Z) (r : SimulationResult) :
  Forall (fun p => 0 < burstTime p <= default 2 quantum) processes ->
  simulateSchedule localeCompare fuel processes (str "RoundRobin") quantum
  = Returned r ->
  forall fuel' quantum',
    simulateSchedule localeCompare fuel' processes (str "FCFS") quantum'
    = Returned r.
Proof.
  intros Hb Hrun fuel' quantum'.
  destruct (simulateSchedule_returned _ _ _ _ _ _ Hrun)
    as [[-> ->] | (Hne & k & g & Hd & ->)]; [reflexivity|].
  rewrite simulateSchedule_nonempty, dispatch_FCFS by assumption.
  do 2 f_equal. rewrite dispatch_RoundRobin in Hd.
  destruct (scheduleRoundRobin fuel processes (default 2 quantum))
    as [kg|] eqn:Hr; [|discriminate].
  injection Hd as ->. apply scheduleRoundRobin_returned in Hr.
  destruct Hr as (st & Hr & ->).
  destruct (while_invariant (rr_fcfs_inv processes) rr_cond
              (rr_body (default 2 quantum))
              (fun s => rr_fcfs_step processes (default 2 quantum) s Hb)
              fuel (rr_init processes) k st (rr_fcfs_init processes) Hr)
    as [(j & Hji & Hqu & Hobj & _ & _ & _ & Hdone & _) Hexit].
  apply rr_cond_false in Hexit. destruct Hexit as [Hq0 Hidx].
  assert (Hlen : length (rr_allProcesses st)
                 = length (js_sort fcfs_compare processes))
    by (rewrite <- Hobj, length_fmap; reflexivity).
  rewrite Hq0 in Hqu. symmetry in Hqu.
  apply (f_equal length) in Hqu. rewrite length_seq in Hqu. simpl in Hqu.
  assert (Hj : j = rr_processIndex st) by lia.
  specialize (Hdone Hj). apply (f_equal fst) in Hdone. simpl in Hdone.
  rewrite Hdone. replace j with (length (js_sort fcfs_compare processes))
    by lia.
  symmetry. apply fcfs_prefix_all.
Qed.

Lemma round_robin_long_quantum_is_fcfs_witness :
  simulateSchedule ordinal_compare 0 two_processes (str "FCFS") None
  = Returned
      (returned_result
         (simulateSchedule ordinal_compare 10 two_processes
            (str "RoundRobin") (Some 5))).
Proof.
  refine (round_robin_long_quantum_is_fcfs ordinal_compare 10 two_processes
            (Some 5) _ _ _ 0%nat None).
  - repeat constructor; simpl; lia.
  - vm_compute. reflexivity.
Defined.

(* ================================================================== *)
(** ** The processor is never idle while a process is ready *)
(* ================================================================== *)













(* ================================================================== *)
(** ** A run of at least one process takes time *)
(* ================================================================== *)






(* ================================================================== *)
(** ** The guard of the Run button *)
(* ================================================================== *)

Lemma num_lt_Z a b : num_lt (Z2Qc a) (Z2Qc b) = (a <? b).
Proof.
  apply eq_true_iff_eq. rewrite num_lt_spec, Z.ltb_lt. symmetry.
  apply Z2Qc_lt.
Qed.

Lemma num_le_Z a b : num_le (Z2Qc a) (Z2Qc b) = (a <=? b).
Proof.
  apply eq_true_iff_eq. rewrite num_le_spec, Z.leb_le. symmetry.
  apply Z2Qc_le.
Qed.

(** A descriptor is valid when none of the four checks fires. *)
Lemma validateProcess_valid c :
  valid (validateProcess c)
  = negb (pid_missing (pp_pid c))
    && negb (match pp_arrivalTime c with
             | None => true
             | Some a => num_lt a (Z2Qc 0)
             end)
    && negb (match pp_burstTime c with
             | None => true
             | Some b => num_le b (Z2Qc 0)
             end)
    && negb (match pp_priority c with
             | None => true
             | Some p => num_lt p (Z2Qc 0)
             end).
Proof.
  unfold validateProcess.
  destruct (pid_missing (pp_pid c));
    destruct (match pp_arrivalTime c with
              | None => true
              | Some a => num_lt a (Z2Qc 0)
              end);
    destruct (match pp_burstTime c with
              | None => true
              | Some b => num_le b (Z2Qc 0)
              end);
    destruct (match pp_priority c with
              | None => true
              | Some p => num_lt p (Z2Qc 0)
              end); reflexivity.
Qed.

Lemma validateProcess_as_partial p :
  valid (validateProcess (as_partial p))
  = negb (bool_decide (trim (pid p) = []))
    && (0 <=? arrivalTime p) && (0 <? burstTime p) && (0 <=? priority p).
Proof.
  rewrite validateProcess_valid. unfold as_partial. simpl.
  rewrite !num_lt_Z, num_le_Z.
  rewrite (Z.ltb_antisym 0 (arrivalTime p)), (Z.leb_antisym 0 (burstTime p)),
    (Z.ltb_antisym 0 (priority p)), !negb_involutive.
  do 3 f_equal.
  destruct (decide (pid p = [])) as [->|Hne].
  - rewrite trim_nil. reflexivity.
  - rewrite (bool_decide_eq_false_2 (pid p = [])) by assumption. reflexivity.
Qed.

Lemma canRun_spec processes :
  canRun processes = true
  <-> processes <> []
      /\ forall p, In p processes ->
           trim (pid p) <> [] /\ 0 <= arrivalTime p /\ 0 < burstTime p
           /\ 0 <= priority p.
Proof.
  unfold canRun. rewrite andb_true_iff, forallb_forall. split.
  - intros [Hlen Hall]. split; [destruct processes; [discriminate|congruence]|].
    intros p Hp. specialize (Hall p Hp).
    rewrite !andb_true_iff, negb_true_iff in Hall.
    destruct Hall as [[[H1 H2] H3] H4].
    apply bool_decide_eq_false_1 in H1. apply Z.leb_le in H2, H4.
    apply Z.ltb_lt in H3. auto.
  - intros [Hne Hall]. split; [destruct processes; [congruence|reflexivity]|].
    intros p Hp. destruct (Hall p Hp) as (H1 & H2 & H3 & H4).
    rewrite !andb_true_iff, negb_true_iff.
    repeat split;
      [apply bool_decide_eq_false_2; assumption|apply Z.leb_le; assumption
      |apply Z.ltb_lt; assumption|apply Z.leb_le; assumption].
Qed.

(** X15. The Run button is enabled exactly when the table has a row and every
    row passes [validateProcess]: the guard of [App] and the validation of
    the process table agree. *)
Theorem run_enabled_iff_rows_validate (processes : list Process) :
  canRun processes = true
  <-> processes <> []
      /\ forall p, In p processes ->
           valid (validateProcess (as_partial p)) = true.
Proof.
  unfold canRun. rewrite andb_true_iff, forallb_forall. split.
  - intros [Hlen Hall]. split; [destruct processes; [discriminate|congruence]|].
    intros p Hp. rewrite validateProcess_as_partial. auto.
  - intros [Hne Hall]. split; [destruct processes; [congruence|reflexivity]|].
    intros p Hp. rewrite <- validateProcess_as_partial. auto.
Qed.




(* ================================================================== *)
(** ** The process table *)
(* ================================================================== *)

Lemma perform_all_app t actions1 actions2 :
  perform_all t (actions1 ++ actions2)
  = match perform_all t actions1 with
    | Some t' => perform_all t' actions2
    | None => None
    end.
Proof.
  revert t. induction actions1 as [|a l IH]; intros t; simpl; [reflexivity|].
  destruct (perform t a); [apply IH|reflexivity].
Qed.

(** What holds of the empty table and is kept by every action holds after
    any sequence of actions. *)
Lemma perform_all_invariant (I : table -> Prop) (allowed : action -> Prop) :
  (forall t a t', I t -> allowed a -> perform t a = Some t' -> I t') ->
  forall actions t t',
    I t -> Forall allowed actions -> perform_all t actions = Some t' -> I t'.
Proof.
  intros Hstep actions. induction actions as [|a l IH]; intros t t' Ht Hall.
  - simpl. intros [= <-]. assumption.
  - simpl. apply Forall_cons in Hall as [Ha Hl].
    destruct (perform t a) as [t1|] eqn:Hp; [|discriminate].
    intros Hrun. apply (IH t1); eauto.
Qed.

Lemma filter_from_delete {A : Type} (l : list A) : forall i index,
  (i <= index)%nat ->
  filter_from (fun _ j => negb (j =? index)%nat) i l
  = delete (index - i)%nat l.
Proof.
  induction l as [|x l IH]; intros i index Hi; [reflexivity|].
  simpl. destruct (Nat.eqb_spec i index) as [->|Hne]; simpl.
  - rewrite Nat.sub_diag. simpl. clear IH Hi.
    assert (H : forall (l : list A) j, (index < j)%nat ->
              filter_from (fun _ j => negb (j =? index)%nat) j l = l).
    { clear. induction l as [|y l IH]; intros j Hj; [reflexivity|].
      simpl. destruct (Nat.eqb_spec j index); [lia|]. simpl.
      rewrite IH by lia. reflexivity. }
    apply H. lia.
  - rewrite IH by lia.
    replace (index - i)%nat with (Datatypes.S (index - Datatypes.S i))
      by lia.
    reflexivity.
Qed.

Lemma deleteProcess_processes t index :
  table_processes (deleteProcess t index)
  = imap (fun i p => mkProcess (pid p) (arrivalTime p) (burstTime p)
                               (priority p) (Z.of_nat i))
         (delete index (table_processes t)).
Proof.
  unfold deleteProcess. simpl. rewrite filter_from_delete by lia.
  rewrite Nat.sub_0_r. reflexivity.
Qed.

Lemma numbered_step t a t' :
  numbered (table_processes t) -> perform t a = Some t' ->
  numbered (table_processes t').
Proof.
  intros Hn. destruct a as [|index field value|index| |]; simpl.
  - intros [= <-]. simpl. intros i p Hi. apply lookup_app_Some in Hi.
    destruct Hi as [Hi|[Hlen Hi]]; [auto|].
    destruct (i - length (table_processes t))%nat eqn:Hd; [|discriminate].
    injection Hi as <-. simpl. f_equal. lia.
  - unfold updateProcess.
    destruct (table_processes t !! index) as [q|] eqn:Hq; [|discriminate].
    intros [= <-]. simpl. intros i p Hi.
    destruct (decide (i = index)) as [->|Hne].
    + rewrite list_lookup_insert_eq in Hi by (eapply lookup_lt_Some; eauto).
      injection Hi as <-. rewrite <- (Hn index q Hq).
      destruct field; reflexivity.
    + rewrite list_lookup_insert_ne in Hi by congruence. auto.
  - destruct (index <? length (table_processes t))%nat; [|discriminate].
    intros [= <-]. rewrite deleteProcess_processes. intros i p Hi.
    rewrite list_lookup_imap in Hi.
    destruct (delete index (table_processes t) !! i); [|discriminate].
    injection Hi as <-. reflexivity.
  - intros [= <-]. intros i p Hi.
    do 5 (destruct i as [|i]; [injection Hi as <-; reflexivity|]).
    discriminate.
  - intros [= <-]. intros i p Hi. discriminate.
Qed.

(** X17. Whatever the user does to the table, each row bears its position as
    insertion order; so two rows never have the same insertion order, and
    the ties of the scheduling policies are always broken. *)
Theorem rows_are_numbered (actions : list action) (t : table) (i : nat)
    (p : Process) :
  perform_all initial_table actions = Some t ->
  table_processes t !! i = Some p ->
  insertionOrder p = Z.of_nat i.
Proof.
  intros Hrun. revert i p.
  refine (perform_all_invariant (fun t => numbered (table_processes t))
            (fun _ => True) _ actions initial_table t _ _ Hrun).
  - intros t0 a t1 H _. apply numbered_step. assumption.
  - intros i p Hi. discriminate.
  - apply Forall_forall. auto.
Qed.

Lemma rows_are_numbered_witness :
  insertionOrder (mkProcess (str "P2") 0 1 1 0) = Z.of_nat 0.
Proof.
  refine (rows_are_numbered [AddProcess; AddProcess; DeleteProcess 0]
            (table_after [AddProcess; AddProcess; DeleteProcess 0])
            0%nat (mkProcess (str "P2") 0 1 1 0) _ _).
  - vm_compute. reflexivity.
  - vm_compute. reflexivity.
Defined.

Lemma trim_start_keeps_last l c :
  is_js_whitespace c = false -> trim_start (l ++ [c]) <> [].
Proof.
  intros Hc. induction l as [|x l IH]; simpl.
  - rewrite Hc. discriminate.
  - destruct (is_js_whitespace x); [assumption|discriminate].
Qed.

(** A string that starts with a character that is not white space is not
    blank. *)
Lemma trim_not_blank c s : is_js_whitespace c = false -> trim (c :: s) <> [].
Proof.
  intros Hc. unfold trim. simpl trim_start at 2. rewrite Hc. simpl rev at 2.
  intros H. apply (f_equal (@rev N)) in H. rewrite rev_involutive in H.
  simpl in H. apply (trim_start_keeps_last (rev s) c Hc). assumption.
Qed.

Lemma addProcess_row_valid n k :
  valid (validateProcess
           (as_partial (mkProcess (str "P" ++ number_to_string n) 0 1 1 k)))
  = true.
Proof.
  rewrite validateProcess_as_partial. simpl pid.
  rewrite bool_decide_eq_false_2 by (apply trim_not_blank; reflexivity).
  reflexivity.
Qed.

Lemma updateProcess_spec t index field value t' :
  updateProcess t index field value = Some t' ->
  exists q,
    table_processes t !! index = Some q
    /\ table_processes t'
       = <[index := with_field q field value]> (table_processes t)
    /\ table_errors t'
       = if valid (validateProcess (as_partial (with_field q field value)))
         then delete index (table_errors t)
         else <[index := errors (validateProcess
                                   (as_partial (with_field q field value)))]>
                (table_errors t).
Proof.
  unfold updateProcess.
  destruct (table_processes t !! index) as [q|]; [|discriminate].
  intros Heq. exists q. split; [reflexivity|].
  destruct (valid (validateProcess (as_partial (with_field q field value))));
    injection Heq as <-; split; reflexivity.
Qed.

Lemma addProcess_spec t :
  table_processes (addProcess t)
  = table_processes t
    ++ [mkProcess
          (str "P" ++ number_to_string (length (table_processes t) + 1))
          0 1 1 (Z.of_nat (length (table_processes t)))]
  /\ table_errors (addProcess t) = table_errors t.
Proof. split; reflexivity. Qed.

Lemma errors_match_step t a t' :
  is_delete a = false ->
  errors_match_rows t -> perform t a = Some t' -> errors_match_rows t'.
Proof.
  intros Hnd [Hrows Hout].
  destruct a as [|index field value|index| |]; cbn [perform];
    try discriminate.
  - intros [= <-]. destruct (addProcess_spec t) as [Hp He].
    unfold errors_match_rows. rewrite Hp, He. split.
    + intros i p Hi. apply lookup_app_Some in Hi.
      destruct Hi as [Hi|[Hlen Hi]]; [apply Hrows; assumption|].
      destruct (i - length (table_processes t))%nat eqn:Hd;
        [|simpl in Hi; discriminate].
      injection Hi as <-. split; intros _.
      * apply addProcess_row_valid.
      * apply Hout. lia.
    + intros i Hi. rewrite length_app in Hi. simpl in Hi. apply Hout. lia.
  - intros Hup. apply updateProcess_spec in Hup.
    destruct Hup as (q & Hq & Hp & He).
    unfold errors_match_rows. rewrite Hp, He.
    pose proof (lookup_lt_Some _ _ _ Hq) as Hlt.
    set (row := with_field q (field_of field) value).
    split.
    + intros i p Hi. destruct (decide (i = index)) as [->|Hne].
      * rewrite list_lookup_insert_eq in Hi by assumption.
        injection Hi as <-.
        destruct (valid (validateProcess (as_partial row))).
        -- rewrite lookup_delete_eq. tauto.
        -- rewrite lookup_insert_eq. split; discriminate.
      * rewrite list_lookup_insert_ne in Hi by congruence.
        destruct (valid (validateProcess (as_partial row))).
        -- rewrite lookup_delete_ne by congruence. auto.
        -- rewrite lookup_insert_ne by congruence. auto.
    + intros i Hi. rewrite length_insert in Hi.
      destruct (valid (validateProcess (as_partial row))).
      * rewrite lookup_delete_ne by lia. apply Hout. assumption.
      * rewrite lookup_insert_ne by lia. apply Hout. assumption.
  - intros [= <-]. split.
    + intros i p Hi. simpl. rewrite lookup_empty.
      do 5 (destruct i as [|i];
            [injection Hi as <-; split; [intros _; vm_compute|]; reflexivity|]).
      discriminate.
    + intros i _. apply lookup_empty.
  - intros [= <-]. split; [intros i p Hi; discriminate|].
    intros i _. apply lookup_empty.
Qed.

(** X18. As long as no row is deleted, the errors that the table shows are those
    of its rows: a row has an entry of errors exactly when
    [validateProcess] rejects it. *)
Theorem errors_flag_invalid_rows (actions : list action) (t : table)
    (i : nat) (p : Process) :
  Forall (fun a => is_delete a = false) actions ->
  perform_all initial_table actions = Some t ->
  table_processes t !! i = Some p ->
  (table_errors t !! i = None
   <-> valid (validateProcess (as_partial p)) = true).
Proof.
  intros Hall Hrun. revert i p.
  refine (proj1 (perform_all_invariant errors_match_rows
                   (fun a => is_delete a = false) _ actions initial_table t
                   _ Hall Hrun)).
  - intros t0 a t1 H Ha. apply errors_match_step; assumption.
  - split; [intros i p Hi; discriminate|]. intros i _. apply lookup_empty.
Qed.

Lemma errors_flag_invalid_rows_witness :
  table_errors
    (table_after [AddProcess; UpdateProcess 0 edit_burstTime (str "zero")])
    !! 0%nat = None
  <-> valid (validateProcess (as_partial (mkProcess (str "P1") 0 0 1 0)))
      = true.
Proof.
  refine (errors_flag_invalid_rows
            [AddProcess; UpdateProcess 0 edit_burstTime (str "zero")]
            (table_after
               [AddProcess; UpdateProcess 0 edit_burstTime (str "zero")])
            0%nat (mkProcess (str "P1") 0 0 1 0) _ _ _).
  - repeat constructor.
  - vm_compute. reflexivity.
  - vm_compute. reflexivity.
Defined.

(** X19. When a row is deleted, the row below takes its place without its
    errors: if that row is one that [validateProcess] rejects, the table
    now holds a rejected row for which it has no entry of errors. *)
Theorem deleted_row_successor_loses_errors (t : table) (index : nat)
    (p : Process) :
  table_processes t !! Datatypes.S index = Some p ->
  valid (validateProcess (as_partial p)) = false ->
  exists p',
    table_processes (deleteProcess t index) !! index = Some p'
    /\ pid p' = pid p
    /\ valid (validateProcess (as_partial p')) = false
    /\ table_errors (deleteProcess t index) !! index = None.
Proof.
  intros Hp Hv.
  exists (mkProcess (pid p) (arrivalTime p) (burstTime p) (priority p)
                    (Z.of_nat index)).
  split; [|split; [reflexivity|split]].
  - rewrite deleteProcess_processes, list_lookup_imap.
    rewrite list_lookup_delete_ge by lia. rewrite Hp. reflexivity.
  - rewrite validateProcess_as_partial in *. exact Hv.
  - unfold deleteProcess. simpl. apply lookup_delete_eq.
Qed.

Lemma deleted_row_successor_loses_errors_witness :
  exists p',
    table_processes
      (deleteProcess
         (table_after
            [AddProcess; AddProcess; UpdateProcess 1 edit_burstTime (str "0")])
         0)
      !! 0%nat = Some p'
    /\ pid p' = pid (mkProcess (str "P2") 0 0 1 1)
    /\ valid (validateProcess (as_partial p')) = false
    /\ table_errors
         (deleteProcess
            (table_after
               [AddProcess; AddProcess;
                UpdateProcess 1 edit_burstTime (str "0")])
            0)
       !! 0%nat = None.
Proof.
  apply (deleted_row_successor_loses_errors
           (table_after
              [AddProcess; AddProcess;
               UpdateProcess 1 edit_burstTime (str "0")])
           0 (mkProcess (str "P2") 0 0 1 1)).
  - vm_compute. reflexivity.
  - vm_compute. reflexivity.
Defined.

(** The rows that [n] clicks on "Add Process" append to a table. *)
Lemma add_rows n : forall t,
  exists t',
    perform_all t (repeat AddProcess n) = Some t'
    /\ table_processes t'
       = table_processes t
         ++ List.map (fun j => mkProcess
                        (str "P" ++ number_to_string
                                      (length (table_processes t) + j + 1))
                        0 1 1 (Z.of_nat (length (table_processes t) + j)))
                     (seq 0 n).
Proof.
  induction n as [|n IH]; intros t.
  - exists t. simpl. rewrite app_nil_r. auto.
  - destruct (IH (addProcess t)) as (t' & Hrun & Hrows).
    exists t'. split; [exact Hrun|].
    rewrite Hrows. destruct (addProcess_spec t) as [-> _].
    rewrite length_app, <- app_assoc. simpl length. f_equal.
    simpl. rewrite !Nat.add_0_r. f_equal.
    rewrite <- seq_shift, List.map_map. apply List.map_ext. intros j.
    replace (length (table_processes t) + 1 + j)%nat
      with (length (table_processes t) + Datatypes.S j)%nat by lia.
    reflexivity.
Qed.

Lemma added_row_can_run l :
  l <> [] -> Forall added_row l -> canRun l = true.
Proof.
  intros Hne Hall. apply canRun_spec. split; [assumption|].
  rewrite List.Forall_forall in Hall. intros p Hp.
  destruct (Hall p Hp) as (-> & -> & -> & s & ->).
  split; [apply trim_not_blank; reflexivity|lia].
Qed.

(** X20. The numbering of the identifiers that "Add Process" gives does not
    survive a deletion: after [n] rows have been added, a row other than the
    last has been deleted and a row has been added again, the last two rows
    bear the same identifier, and the Run button is enabled all the same. *)
Theorem add_after_delete_repeats_pid (n index : nat) :
  (index + 1 < n)%nat ->
  exists t,
    perform_all initial_table
      (repeat AddProcess n ++ [DeleteProcess index; AddProcess]) = Some t
    /\ canRun (table_processes t) = true
    /\ ~ NoDup (List.map pid (table_processes t)).
Proof.
  intros Hn. destruct (add_rows n initial_table) as (t0 & Hrun & Hrows).
  change (table_processes t0
          = List.map (fun j => mkProcess
                                 (str "P" ++ number_to_string (j + 1))
                                 0 1 1 (Z.of_nat j)) (seq 0 n)) in Hrows.
  assert (Hlen0 : length (table_processes t0) = n)
    by (rewrite Hrows, length_map, length_seq; reflexivity).
  exists (addProcess (deleteProcess t0 index)).
  split; [|split].
  - rewrite perform_all_app, Hrun. simpl. rewrite Hlen0.
    destruct (Nat.ltb_spec index n); [reflexivity|lia].
  - apply added_row_can_run.
    + destruct (addProcess_spec (deleteProcess t0 index)) as [-> _].
      intros H. apply app_eq_nil in H. destruct H. discriminate.
    + destruct (addProcess_spec (deleteProcess t0 index)) as [-> _].
      apply Forall_app. split.
      * rewrite deleteProcess_processes. apply Forall_lookup.
        intros i p Hi. rewrite list_lookup_imap in Hi.
        destruct (delete index (table_processes t0) !! i) as [q|] eqn:Hq;
          [|discriminate].
        injection Hi as <-.
        assert (Hin : q ∈ table_processes t0)
          by (eapply list_elem_of_delete_inv, list_elem_of_lookup_2; eauto).
        rewrite Hrows in Hin. apply list_elem_of_In, in_map_iff in Hin.
        destruct Hin as (j & <- & _). unfold added_row. simpl. eauto 10.
      * repeat constructor. unfold added_row. simpl. eauto 10.
  - intros Hnd.
    destruct (addProcess_spec (deleteProcess t0 index)) as [Hp _].
    assert (Hlen : length (table_processes (deleteProcess t0 index))
                   = (n - 1)%nat).
    { rewrite deleteProcess_processes, length_imap, length_delete, Hlen0.
      - reflexivity.
      - apply lookup_lt_is_Some_2. lia. }
    rewrite Hlen in Hp.
    assert (Hlast : List.map pid (table_processes
                                    (addProcess (deleteProcess t0 index)))
                    !! (n - 2)%nat
                    = Some (str "P" ++ number_to_string n)).
    { rewrite Hp, map_fmap, list_lookup_fmap.
      rewrite lookup_app_l by lia.
      rewrite deleteProcess_processes, list_lookup_imap.
      rewrite list_lookup_delete_ge by lia.
      rewrite Hrows, map_fmap, list_lookup_fmap.
      rewrite lookup_seq_lt by lia. simpl.
      do 3 f_equal. lia. }
    assert (Hnew : List.map pid (table_processes
                                   (addProcess (deleteProcess t0 index)))
                   !! (n - 1)%nat
                   = Some (str "P" ++ number_to_string n)).
    { rewrite Hp, map_fmap, list_lookup_fmap.
      rewrite lookup_app_r by lia. rewrite Hlen, Nat.sub_diag. simpl.
      do 3 f_equal. lia. }
    pose proof (NoDup_lookup _ _ _ _ Hnd Hlast Hnew). lia.
Qed.

Lemma add_after_delete_repeats_pid_witness :
  exists t,
    perform_all initial_table
      (repeat AddProcess 3 ++ [DeleteProcess 0; AddProcess]) = Some t
    /\ canRun (table_processes t) = true
    /\ ~ NoDup (List.map pid (table_processes t)).
Proof.
  apply (add_after_delete_repeats_pid 3 0). lia.
Defined.

(* ================================================================== *)
(** ** Colors *)
(* ================================================================== *)

Lemma indexOf_absent x l : ~ In x l -> indexOf x l = -1.
Proof.
  unfold indexOf. induction l as [|y l IH]; intros Hx; [reflexivity|].
  simpl. rewrite bool_decide_eq_false_2 by (intros ->; apply Hx; left; auto).
  rewrite IH by (intros H; apply Hx; right; assumption). reflexivity.
Qed.

(** [indexOf] finds the first place at which the element stands. *)
Lemma indexOf_first x l i :
  l !! i = Some x -> (forall j, (j < i)%nat -> l !! j <> Some x) ->
  indexOf x l = Z.of_nat i.
Proof.
  unfold indexOf. revert i. induction l as [|y l IH]; intros i Hi Hfirst;
    [discriminate|].
  simpl. destruct i as [|i].
  - injection Hi as ->. rewrite bool_decide_eq_true_2 by reflexivity.
    reflexivity.
  - rewrite bool_decide_eq_false_2
      by (intros ->; apply (Hfirst O); [lia|reflexivity]).
    rewrite (IH i Hi) by (intros j Hj; apply (Hfirst (Datatypes.S j)); lia).
    destruct (Z.ltb_spec (Z.of_nat i) 0); lia.
Qed.

Lemma indexOf_NoDup x l i :
  NoDup l -> l !! i = Some x -> indexOf x l = Z.of_nat i.
Proof.
  intros Hnd Hi. apply indexOf_first; [assumption|].
  intros j Hj Hjx. pose proof (NoDup_lookup _ _ _ _ Hnd Hi Hjx). lia.
Qed.

Lemma indexOf_present x l :
  In x l ->
  exists i, l !! i = Some x /\ indexOf x l = Z.of_nat i.
Proof.
  intros Hx. unfold indexOf.
  destruct (findIndex_first (fun y => bool_decide (y = x)) l)
    as (l1 & q & l2 & -> & Hq & _ & Hidx).
  { exists x. split; [assumption|]. apply bool_decide_eq_true_2. reflexivity. }
  apply bool_decide_eq_true_1 in Hq. subst q.
  exists (length l1). split; [|assumption]. apply list_lookup_middle.
  reflexivity.
Qed.

Lemma at_index_palette {A : Type} (l : list A) (i : nat) :
  l <> [] ->
  exists c,
    at_index l (Z.rem (Z.of_nat i) (Z.of_nat (length l))) = Some c
    /\ l !! (i mod length l)%nat = Some c.
Proof.
  intros Hne. assert (Hlen : (0 < length l)%nat)
    by (destruct l; [congruence|simpl; lia]).
  unfold at_index. rewrite Z.rem_mod_nonneg by lia.
  rewrite <- Nat2Z.inj_mod.
  destruct (Z.ltb_spec (Z.of_nat (i mod length l)) 0); [lia|].
  rewrite Nat2Z.id.
  destruct (lookup_lt_is_Some_2 l (i mod length l)) as [c Hc].
  { apply Nat.mod_upper_bound. lia. }
  exists c. auto.
Qed.

(** X21. A process has a colour exactly when its identifier is among the
    identifiers given: for an identifier that is not among them both
    functions return [undefined]. *)
Theorem unknown_pid_has_no_color (pid : jsstring)
    (allPids : list jsstring) :
  (getProcessColor pid allPids = None <-> ~ In pid allPids)
  /\ (getProcessHexColor pid allPids = None <-> ~ In pid allPids).
Proof.
  unfold getProcessColor, getProcessHexColor.
  destruct (decide (pid ∈ allPids)) as [Hin|Hnot];
    rewrite list_elem_of_In in *.
  - destruct (indexOf_present pid allPids Hin) as (i & _ & ->).
    destruct (at_index_palette PROCESS_COLORS i) as (c & -> & _);
      [discriminate|].
    destruct (at_index_palette PROCESS_HEX_COLORS i) as (h & -> & _);
      [discriminate|].
    split; split; (discriminate || contradiction).
  - rewrite (indexOf_absent pid allPids Hnot). split; split; auto.
Qed.

Lemma palette_lookup_inj {A : Type} (l : list A) a b :
  NoDup l -> (a < length l)%nat -> (b < length l)%nat ->
  l !! a = l !! b -> a = b.
Proof.
  intros Hnd Ha Hb Heq.
  destruct (lookup_lt_is_Some_2 l a Ha) as [c Hc].
  rewrite Hc in Heq. symmetry in Heq.
  apply (NoDup_lookup l a b c Hnd Hc Heq).
Qed.

Lemma PROCESS_HEX_COLORS_NoDup : NoDup PROCESS_HEX_COLORS.
Proof. apply (bool_decide_unpack _). vm_compute. exact I. Qed.

Lemma PROCESS_COLORS_NoDup : NoDup PROCESS_COLORS.
Proof. apply (bool_decide_unpack _). vm_compute. exact I. Qed.

(** X22. Among identifiers that differ from one another, two processes have
    the same colour exactly when their positions differ by a multiple of
    ten, the length of the palettes. *)
Theorem colors_repeat_every_ten (allPids : list jsstring) (i j : nat)
    (x y : jsstring) :
  NoDup allPids ->
  allPids !! i = Some x -> allPids !! j = Some y ->
  (getProcessColor x allPids = getProcessColor y allPids
   <-> (i mod 10 = j mod 10)%nat)
  /\ (getProcessHexColor x allPids = getProcessHexColor y allPids
      <-> (i mod 10 = j mod 10)%nat).
Proof.
  intros Hnd Hi Hj. unfold getProcessColor, getProcessHexColor.
  rewrite (indexOf_NoDup x allPids i Hnd Hi).
  rewrite (indexOf_NoDup y allPids j Hnd Hj).
  destruct (at_index_palette PROCESS_COLORS i) as (c & -> & Hc);
    [discriminate|].
  destruct (at_index_palette PROCESS_COLORS j) as (c' & -> & Hc');
    [discriminate|].
  destruct (at_index_palette PROCESS_HEX_COLORS i) as (h & -> & Hh);
    [discriminate|].
  destruct (at_index_palette PROCESS_HEX_COLORS j) as (h' & -> & Hh');
    [discriminate|].
  change (length PROCESS_COLORS) with 10%nat in *.
  change (length PROCESS_HEX_COLORS) with 10%nat in *.
  assert (Hi10 : (i mod 10 < 10)%nat) by (apply Nat.mod_upper_bound; lia).
  assert (Hj10 : (j mod 10 < 10)%nat) by (apply Nat.mod_upper_bound; lia).
  split; split.
  - intros [= <-].
    apply (palette_lookup_inj PROCESS_COLORS); auto using PROCESS_COLORS_NoDup.
    congruence.
  - intros Heq. rewrite Heq in Hc. congruence.
  - intros [= <-].
    apply (palette_lookup_inj PROCESS_HEX_COLORS);
      auto using PROCESS_HEX_COLORS_NoDup.
    congruence.
  - intros Heq. rewrite Heq in Hh. congruence.
Qed.

Lemma colors_repeat_every_ten_witness :
  (getProcessColor (str "P1") [str "P1"; str "P2"]
   = getProcessColor (str "P2") [str "P1"; str "P2"]
   <-> (0 mod 10 = 1 mod 10)%nat)
  /\ (getProcessHexColor (str "P1") [str "P1"; str "P2"]
      = getProcessHexColor (str "P2") [str "P1"; str "P2"]
      <-> (0 mod 10 = 1 mod 10)%nat).
Proof.
  apply (colors_repeat_every_ten [str "P1"; str "P2"] 0 1).
  - apply (bool_decide_unpack _). vm_compute. exact I.
  - reflexivity.
  - reflexivity.
Defined.

Lemma color_map_loop_snoc pids p :
  color_map_loop (pids ++ [p])
  = (<[p := at_index PROCESS_HEX_COLORS
              (Z.rem (snd (color_map_loop pids))
                     (Z.of_nat (length PROCESS_HEX_COLORS)))]>
       (fst (color_map_loop pids)),
     snd (color_map_loop pids) + 1).
Proof.
  unfold color_map_loop. rewrite fold_left_app. simpl.
  destruct (fold_left _ pids (∅, 0)) as [m k]. reflexivity.
Qed.

Lemma color_map_loop_spec pids :
  NoDup pids ->
  snd (color_map_loop pids) = Z.of_nat (length pids)
  /\ forall x,
       fst (color_map_loop pids) !! x
       = if decide (x ∈ pids) then Some (getProcessHexColor x pids)
         else None.
Proof.
  induction pids as [|p pids IH] using rev_ind; intros Hnd.
  - split; [reflexivity|]. intros x. rewrite decide_False by apply not_elem_of_nil.
    apply lookup_empty.
  - apply NoDup_app in Hnd as (Hnd & Hnot & _).
    destruct (IH Hnd) as [Hk Hm]. rewrite color_map_loop_snoc, Hk. simpl.
    split; [rewrite length_app; simpl; lia|].
    assert (Hnd' : NoDup (pids ++ [p])).
    { apply NoDup_app. split; [assumption|]. split; [assumption|].
      apply NoDup_singleton. }
    intros x. destruct (decide (x = p)) as [->|Hne].
    + rewrite lookup_insert_eq.
      rewrite decide_True by (apply elem_of_app; right; apply list_elem_of_singleton; reflexivity).
      unfold getProcessHexColor.
      rewrite (indexOf_NoDup p (pids ++ [p]) (length pids) Hnd')
        by (apply list_lookup_middle; reflexivity).
      reflexivity.
    + rewrite lookup_insert_ne by congruence. rewrite Hm.
      destruct (decide (x ∈ pids)) as [Hin|Hnin].
      * rewrite decide_True by (apply elem_of_app; left; assumption).
        apply list_elem_of_lookup_1 in Hin. destruct Hin as [i Hi].
        unfold getProcessHexColor.
        rewrite (indexOf_NoDup x pids i Hnd Hi).
        rewrite (indexOf_NoDup x (pids ++ [p]) i Hnd')
          by (apply lookup_app_l_Some; assumption).
        reflexivity.
      * rewrite decide_False; [reflexivity|].
        rewrite elem_of_app, list_elem_of_singleton. tauto.
Qed.

(** X23. For identifiers that differ from one another, the map of
    [generateColorMap] holds, for each of them, the colour that
    [getProcessHexColor] returns, and nothing for any other identifier. *)
Theorem color_map_agrees (pids : list jsstring) (x : jsstring) :
  NoDup pids ->
  generateColorMap pids !! x
  = if decide (x ∈ pids) then Some (getProcessHexColor x pids) else None.
Proof.
  intros Hnd. apply (proj2 (color_map_loop_spec pids Hnd)).
Qed.

Lemma color_map_agrees_witness :
  generateColorMap [str "P1"; str "P2"] !! str "P2"
  = if decide (str "P2" ∈ [str "P1"; str "P2"])
    then Some (getProcessHexColor (str "P2") [str "P1"; str "P2"])
    else None.
Proof.
  apply (color_map_agrees [str "P1"; str "P2"] (str "P2")).
  apply (bool_decide_unpack _). vm_compute. exact I.
Defined.

(* ================================================================== *)
(** ** The chart *)
(* ================================================================== *)

Lemma at_index_nat {A : Type} (l : list A) (i : nat) :
  at_index l (Z.of_nat i) = l !! i.
Proof.
  unfold at_index. destruct (Z.ltb_spec (Z.of_nat i) 0); [lia|].
  rewrite Nat2Z.id. reflexivity.
Qed.

(** X24. In the initial state of the chart, whose progress is 0, the button
    "Step forward" leaves the progress at 0 whatever timeline of the
    engine is shown: the next segment is taken to be the first one, which
    starts at 0. *)
Theorem step_stalls_at_start (segments : list GanttSegment) (totalTime : Z)
    (st : chart) :
  chain 0 segments totalTime ->
  animationProgress st = Z2Qc 0 ->
  animationProgress (handleStep segments totalTime st) = Z2Qc 0.
Proof.
  intros Hc H0. unfold handleStep, currentSegmentIndex.
  rewrite H0, decide_True by reflexivity.
  change (-1 + 1) with (Z.of_nat 0). rewrite at_index_nat.
  destruct segments as [|s g]; simpl.
  - reflexivity.
  - destruct Hc as (-> & _). reflexivity.
Qed.

Lemma step_stalls_at_start_witness :
  animationProgress
    (handleStep (ganttChart (example_result "FCFS"))
       (totalTime (example_result "FCFS")) (mkChart false (Z2Qc 0)))
  = Z2Qc 0.
Proof.
  apply (step_stalls_at_start (ganttChart (example_result "FCFS"))
           (totalTime (example_result "FCFS")) (mkChart false (Z2Qc 0))).
  - vm_compute. repeat split; reflexivity.
  - reflexivity.
Defined.

(** In a chain the first segment that holds an instant is the one that
    holds it. *)
Lemma findIndex_in_chain (x : Qc) g : forall t t' i s,
  chain t g t' -> g !! i = Some s ->
  (Z2Qc (seg_start s) <= x)%Qc -> (x < Z2Qc (seg_end s))%Qc ->
  findIndex (fun seg => num_le (Z2Qc (seg_start seg)) x
                        && num_lt x (Z2Qc (seg_end seg))) g
  = Z.of_nat i.
Proof.
  induction g as [|s0 g IH]; intros t t' i s Hc Hi Hle Hlt; [discriminate|].
  destruct Hc as (Hs0 & Hpos & Hc). simpl findIndex. destruct i as [|i].
  - injection Hi as ->.
    rewrite (proj2 (num_le_spec _ _) Hle), (proj2 (num_lt_spec _ _) Hlt).
    reflexivity.
  - simpl in Hi.
    assert (Hin : In s g)
      by (apply list_elem_of_In; eapply list_elem_of_lookup_2; eauto).
    destruct (chain_bounds _ _ _ _ Hc Hin) as [Hafter _].
    assert (Hnot : num_lt x (Z2Qc (seg_end s0)) = false).
    { destruct (num_lt x (Z2Qc (seg_end s0))) eqn:E; [|reflexivity].
      apply num_lt_spec in E. exfalso.
      apply (Qclt_not_le _ _ E).
      apply Qcle_trans with (Z2Qc (seg_start s)); [|assumption].
      apply (proj1 (Z2Qc_le _ _)). assumption. }
    rewrite Hnot, andb_false_r. rewrite (IH _ _ i s Hc Hi Hle Hlt).
    destruct (Z.ltb_spec (Z.of_nat i) 0); lia.
Qed.

(** X25. When the progress lies in a segment of a timeline of the engine, past
    the start of the chart, the button "Step forward" moves it to the end
    of that segment: the start of the next segment, or the total time
    after the last one. *)
Theorem step_moves_to_end_of_segment (segments : list GanttSegment)
    (totalTime : Z) (st : chart) (i : nat) (s : GanttSegment) :
  chain 0 segments totalTime ->
  segments !! i = Some s ->
  (Z2Qc (seg_start s) <= animationProgress st)%Qc ->
  (animationProgress st < Z2Qc (seg_end s))%Qc ->
  animationProgress st <> Z2Qc 0 ->
  handleStep segments totalTime st = mkChart false (Z2Qc (seg_end s)).
Proof.
  intros Hc Hi Hle Hlt Hne. unfold handleStep, currentSegmentIndex.
  rewrite decide_False by assumption.
  rewrite (findIndex_in_chain _ _ _ _ _ _ Hc Hi Hle Hlt).
  destruct (Z.eqb_spec (Z.of_nat i) (-1)); [lia|]. simpl negb. cbv iota.
  replace (Z.of_nat i + 1) with (Z.of_nat (Datatypes.S i)) by lia.
  rewrite at_index_nat.
  destruct (segments !! Datatypes.S i) as [s'|] eqn:Hnext.
  - rewrite <- (chain_adjacent _ _ _ _ _ _ Hc Hi Hnext). reflexivity.
  - assert (Hlen : length segments = Datatypes.S i).
    { apply lookup_ge_None in Hnext. apply lookup_lt_Some in Hi. lia. }
    rewrite Hlen. simpl. do 2 f_equal.
    rewrite <- (chain_total_time _ _ _ Hc)
      by (intros ->; discriminate).
    unfold total_time. rewrite last_lookup, Hlen. simpl. rewrite Hi.
    reflexivity.
Qed.

Lemma step_moves_to_end_of_segment_witness :
  handleStep (ganttChart (example_result "FCFS"))
    (totalTime (example_result "FCFS")) (mkChart true (Q2Qc (13 # 2)))
  = mkChart false (Z2Qc (seg_end (mkSegment (Some (str "P2")) 5 8))).
Proof.
  apply (step_moves_to_end_of_segment (ganttChart (example_result "FCFS"))
           (totalTime (example_result "FCFS")) (mkChart true (Q2Qc (13 # 2)))
           1 (mkSegment (Some (str "P2")) 5 8)).
  - vm_compute. repeat split; reflexivity.
  - vm_compute. reflexivity.
  - vm_compute. discriminate.
  - vm_compute. reflexivity.
  - intros H. apply (f_equal this) in H. vm_compute in H. discriminate H.
Defined.







